(** * queryguard: a shallow embedding of [proxy.go]

    The proxy sits between MongoDB clients and a server.  For every
    [OpQuery] it decides whether the query can use an index
    ([checkForIndex]), tags and caps the admitted ones ([mutateQuery]),
    forwards them, and on a failed response kills the operation on the
    server and answers the client with a synthetic error reply
    ([sendErrorToClient]).

    Layout of this file:
    - Go runtime values: byte strings, errors, panics, [float64];
    - the [strings]/[bytes] functions the proxy calls;
    - BSON documents ([bson.D]), the wire header, the library and the
      outside world (sockets, control channel, clock, randomness) as an
      environment of answers, and a state monad over the trace of what
      the proxy does;
    - the functions of [proxy.go], in the order of the source;
    - the whole connection: the loop of [handleClientConnection] over
      a list of exchanges, with the server connection it holds;
    - the vocabulary of the properties, the client's byte stream and a
      concrete world;
    - the properties of admission, mutation and the replies, component
      by component; then those of the rest of the proxy: key lookup,
      forwarding and framing, the error paths, the life of a
      connection; and their instances on concrete exchanges. *)

From Stdlib Require Import ZArith List String Ascii Bool Lia.
From Stdlib Require Import Floats.SpecFloat.
From stdpp Require Import gmap strings list fin_maps pretty.

Import ListNotations.
Local Open Scope string_scope.
Local Open Scope list_scope.
Local Open Scope Z_scope.

(** ** Go runtime values *)

(** A Go call either returns or panics; an unrecovered panic unwinds
    the goroutine (and ends the process). *)
Inductive Result (A : Type) : Type :=
| Ok (a : A)
| Panic (msg : string).
Arguments Ok {A} a.
Arguments Panic {A} msg.

Definition is_panic {A} (r : Result A) : bool :=
  match r with Panic _ => true | Ok _ => false end.

(** Go [error] values.  [clientReadHeader] compares errors by identity
    and the reactor asks for [net.Error.Timeout()], so the model keeps
    the sentinels apart from network errors and from formatted ones. *)
Inductive error : Type :=
| EOF
| errNormalClose
| errClientReadTimeout
| NetError (text : string) (timeout : bool)
| Errorf (text : string).

Definition Error (e : error) : string :=
  match e with
  | EOF => "EOF"
  | errNormalClose => "normal close"
  | errClientReadTimeout => "client read timeout"
  | NetError text _ => text
  | Errorf text => text
  end.

(** [ne, ok := err.(net.Error); ok && ne.Timeout()] *)
Definition isNetTimeout (e : error) : bool :=
  match e with
  | NetError _ timeout => timeout
  | _ => false
  end.

(** Raw wire data is [[]byte]. *)
Abbreviation bytes := (list Byte.byte).

Definition byte_of_Z (z : Z) : Byte.byte :=
  match Byte.of_N (Z.to_N (z mod 256)) with
  | Some b => b
  | None => Byte.x00
  end.

Definition Z_of_byte (b : Byte.byte) : Z := Z.of_N (Byte.to_N b).

(** Two's complement wrap-around of Go's fixed-width conversions. *)
Definition wrap (w : Z) (z : Z) : Z :=
  let m := z mod 2 ^ w in
  if m <? 2 ^ (w - 1) then m else m - 2 ^ w.

Definition int32 (z : Z) : Z := wrap 32 z.
Definition int64 (z : Z) : Z := wrap 64 z.

(** Little-endian encoding and decoding of [n] bytes. *)
Fixpoint le_bytes (n : nat) (z : Z) : bytes :=
  match n with
  | O => []
  | S n' => byte_of_Z z :: le_bytes n' (z / 256)
  end.

Fixpoint le_unsigned (b : bytes) : Z :=
  match b with
  | [] => 0
  | x :: b' => Z_of_byte x + 256 * le_unsigned b'
  end.

Definition le_int32 (b : bytes) : Z := wrap 32 (le_unsigned (take 4 b)).
Definition le_int64 (b : bytes) : Z := wrap 64 (le_unsigned (take 8 b)).

(** [float64] is IEEE binary64, as the Standard Library specifies it. *)
Abbreviation float64 := spec_float.

Definition float64_of_int (z : Z) : float64 := binary_normalize 53 1024 z 0 false.

(** [a > b] on [float64]; false as soon as one side is NaN. *)
Definition float64_gt (a b : float64) : bool := SFltb b a.
Definition float64_le (a b : float64) : bool := SFleb a b.

(** Durations are [int64] nanoseconds. *)
Definition Millisecond : Z := 1000000.
Definition Second : Z := 1000000000.

(** ** The [strings] and [bytes] functions used by the proxy

    Go strings are byte sequences: a [string] here is the sequence of
    its bytes. *)

Definition byte_lt (a b : ascii) : bool := (nat_of_ascii a <? nat_of_ascii b)%nat.
Definition byte_le (a b : ascii) : bool := (nat_of_ascii a <=? nat_of_ascii b)%nat.

(** [utf8.RuneSelf = 0x80]: bytes below it are one-byte runes. *)
Definition isASCII (c : ascii) : bool := (nat_of_ascii c <? 128)%nat.

Fixpoint allASCII (s : string) : bool :=
  match s with
  | EmptyString => true
  | String c s' => isASCII c && allASCII s'
  end.

(** [strings.TrimLeft(s, cutset)] for a cutset of one ASCII byte. *)
Fixpoint TrimLeft (s : string) (c : ascii) : string :=
  match s with
  | String x s' => if Ascii.eqb x c then TrimLeft s' c else s
  | EmptyString => EmptyString
  end.

Fixpoint TrimRight (s : string) (c : ascii) : string :=
  match s with
  | EmptyString => EmptyString
  | String x s' =>
      match TrimRight s' c with
      | EmptyString => if Ascii.eqb x c then EmptyString else String x EmptyString
      | r => String x r
      end
  end.

(** [strings.Trim(s, cutset)] for a cutset of one ASCII byte: both ends. *)
Definition Trim (s : string) (c : ascii) : string := TrimLeft (TrimRight s c) c.

(** [bytes.HasSuffix(s, suffix)]:
    [len(s) >= len(suffix) && s[len(s)-len(suffix):] == suffix]. *)
Definition HasSuffix (s suffix : string) : bool :=
  (String.length suffix <=? String.length s)%nat
  && String.eqb (substring (String.length s - String.length suffix)%nat (String.length suffix) s) suffix.

(** [bytes.Contains(s, sub)] *)
Fixpoint Contains (s sub : string) : bool :=
  String.prefix sub s
  || match s with
     | EmptyString => false
     | String _ s' => Contains s' sub
     end.

(** [strings.SplitN(s, ".", 2)] *)
Fixpoint cutAtDot (s : string) : option (string * string) :=
  match s with
  | EmptyString => None
  | String c s' =>
      if Ascii.eqb c "." then Some (EmptyString, s')
      else match cutAtDot s' with
           | Some (a, b) => Some (String c a, b)
           | None => None
           end
  end.

Definition SplitN2 (s : string) : list string :=
  match cutAtDot s with
  | Some (a, b) => [a; b]
  | None => [s]
  end.

(** [strings.Join(a, ".")] *)
Fixpoint Join (a : list string) : string :=
  match a with
  | [] => ""
  | [x] => x
  | x :: rest => x ++ "." ++ Join rest
  end.

(** [strings.Join(a, sep)] *)
Fixpoint JoinWith (sep : string) (a : list string) : string :=
  match a with
  | [] => ""
  | [x] => x
  | x :: rest => x ++ sep ++ JoinWith sep rest
  end.

(** ** BSON documents

    [bson.D] is an ordered list of [bson.DocElem{Name, Value}]; a value
    decoded into [interface{}] is a [float64], a [string], a nested
    [bson.D], a slice, a [bool], [nil], an [int], an [int64], or one of
    the remaining wire kinds, kept opaque.  [VMap] is a [bson.M] built
    by the proxy itself (only ever with a single key). *)
#[warnings="-register-all"] Inductive Value : Type :=
| VFloat (f : float64)
| VString (s : string)
| VDoc (d : list (string * Value))
| VArray (a : list Value)
| VBool (b : bool)
| VNull
| VInt (n : Z)
| VInt64 (n : Z)
| VMap (m : list (string * Value))
| VOther (kind : Byte.byte) (raw : bytes).

Abbreviation DocElem := (string * Value)%type.
Abbreviation D := (list DocElem).

Definition Name (e : DocElem) : string := fst e.
Definition Val (e : DocElem) : Value := snd e.

(** [mgo.Index]: only the key list is used. *)
Record Index : Type := { Key : list string }.

(** [type Proxy struct]; the credentials play no part in the handlers
    and the control-channel session is part of the environment. *)
Record Proxy : Type := {
  servers : list string;
  clientIdleTimeout : Z;
  messageTimeout : Z
}.

(** [flattenQuery]: every leaf of a document goes into [result] under
    the dotted path of the names leading to it.  A [bson.D] recurses
    into its elements, a [bson.DocElem] extends the path, anything else
    (arrays included) is a leaf. *)
Fixpoint flattenQuery (d : Value) (name : list string) (result : gmap string Value)
  : gmap string Value :=
  match d with
  | VDoc m =>
      (fix elems (m : D) (result : gmap string Value) : gmap string Value :=
         match m with
         | [] => result
         | td :: m' => elems m' (flattenQuery (snd td) (name ++ [fst td]) result)
         end) m result
  | _ => <[Join name := d]> result
  end.


(** ** The wire header *)

(** Modelled from the spec: [messageHeader] is declared in a file of the
    repository that is not among the sources.  The header is a fixed
    four-field record: total message length in bytes (header included),
    request id, response-to id, opcode, each a signed 32-bit integer. *)
Record messageHeader : Type := {
  MessageLength : Z;
  RequestID : Z;
  ResponseTo : Z;
  OpCode : Z
}.

(** Modelled from the spec: the opcode constants are declared next to
    [messageHeader]; the spec names the tags [Reply], [Query], [GetMore],
    and their numbers are those of the classic wire format. *)
Definition OpReply : Z := 1.
Definition OpQuery : Z := 2004.
Definition OpGetMore : Z := 2005.

(** Modelled from the spec: [OpCode.HasResponse] is true for [Query] and
    [GetMore] and false for the other opcodes. *)
Definition HasResponse (op : Z) : bool := (op =? OpQuery) || (op =? OpGetMore).

(** Modelled from the spec: [messageHeader.ToWire] writes the four fields
    as little-endian 32-bit integers, 16 bytes in all. *)
Definition ToWire (h : messageHeader) : bytes :=
  le_bytes 4 (MessageLength h) ++ le_bytes 4 (RequestID h)
  ++ le_bytes 4 (ResponseTo h) ++ le_bytes 4 (OpCode h).

Definition headerLen : Z := 16.

Definition cmdCollectionSuffix : string := ".$cmd" ++ String "000" "".
Definition indexCollectionSuffix : string := ".indexes" ++ String "000" "".
Definition systemCollection : string := ".system.".

Definition errorBytes : bytes :=
  [Byte.x00; Byte.x00; Byte.x00; Byte.x01;
   Byte.x00; Byte.x00; Byte.x00; Byte.x00; Byte.x00; Byte.x00; Byte.x00; Byte.x00;
   Byte.x00; Byte.x00; Byte.x00; Byte.x00;
   Byte.x00; Byte.x00; Byte.x00; Byte.x01].

(** ** Library code outside the repository

    [strings.EqualFold] compares byte by byte as long as both strings
    are ASCII and jumps to a rune loop over Unicode's simple case
    folding at the first byte [>= 0x80]; that loop, applied to the two
    remaining suffixes, is [unicodeEqualFold].  [durationString] is the
    [%s] rendering of a [time.Duration].  [bsonMarshal] and
    [bsonUnmarshal] are mgo's codec between wire bytes and [bson.D]
    (a failed [Marshal] yields the nil slice). *)
Record Library : Type := {
  unicodeEqualFold : string -> string -> bool;
  durationString : Z -> string;
  bsonMarshal : D -> bytes;
  bsonUnmarshal : bytes -> error + D
}.

(** ** The outside world

    What the sockets, the control channel, the id generator, the clock
    and the random source answer during one message exchange.  The
    handlers are functions of these answers, so a property proved for
    every [Env] holds whatever the peers do. *)
Record Env : Type := {
  (** [Some addr] when the client is a [net.Conn] *)
  clientConn : option string;
  (** [readHeader(c)] *)
  readHeader : error + messageHeader;
  (** [io.ReadFull(client, flags[:])] *)
  readFlags : error + bytes;
  (** [readCString(client)]: the name with its terminator *)
  readCString : error + string;
  (** [io.ReadFull(client, twoInt32[:])] *)
  readTwoInt32 : error + bytes;
  (** [readDocument(client)]: the raw document *)
  readDocument : error + bytes;
  (** outcome of the k-th [Write] on the client, on the server *)
  clientWriteErr : nat -> option error;
  serverWriteErr : nat -> option error;
  (** [io.CopyN(server, client, n)] and [copyMessage(client, server)] *)
  copyNErr : option error;
  copyMessageErr : option error;
  (** control channel: [Count], [Indexes], the find on [$cmd.sys.inprog] *)
  ctlCount : string -> string -> error + Z;
  ctlIndexes : string -> string -> error + list Index;
  (** (the outcome of a kill is only logged) *)
  ctlInprog : gmap string Value -> error + list Value;
  (** [uuid.New("Q")] *)
  uuidNew : string;
  (** [time.Now().Sub(queryStart)] *)
  elapsed : Z;
  (** the k-th value drawn from [math/rand] and the k-th [net.Dial] *)
  randSource : nat -> Z;
  dialErr : nat -> string -> option error
}.

(** What the proxy does to the world, in order. *)
Inductive Event : Type :=
| ClientWrite (b : bytes) (r : option error)
| ServerWrite (b : bytes) (r : option error)
| CopyN (n : Z) (r : option error)
| CopyMessage (r : option error)
| ClientSetReadDeadline (d : Z)
| ClientSetDeadline (d : Z)
| ServerSetDeadline (d : Z)
| InprogFind (f : gmap string Value)
| KillOp (opid : Value)
| Dial (server : string) (r : option error)
| Sleep (d : Z)
| ServerClose
| ClientClose.

Abbreviation Trace := (list Event).

Definition isClientWrite (e : Event) : bool :=
  match e with ClientWrite _ _ => true | _ => false end.

Definition isServerWrite (e : Event) : bool :=
  match e with ServerWrite _ _ => true | _ => false end.

(** Events that move bytes of a client message towards the server. *)
Definition isUpstream (e : Event) : bool :=
  match e with ServerWrite _ _ | CopyN _ _ => true | _ => false end.

(** The chunks handed to [client.Write], in order. *)
Fixpoint clientWrites (tr : Trace) : list bytes :=
  match tr with
  | [] => []
  | ClientWrite b _ :: tr' => b :: clientWrites tr'
  | _ :: tr' => clientWrites tr'
  end.

Fixpoint serverWrites (tr : Trace) : list bytes :=
  match tr with
  | [] => []
  | ServerWrite b _ :: tr' => b :: serverWrites tr'
  | _ :: tr' => serverWrites tr'
  end.

(** ** Handlers run in a state monad over the trace; a panic stops the run. *)
Definition M (A : Type) : Type := Trace -> Result A * Trace.

#[local] Instance M_ret : MRet M := fun A a tr => (Ok a, tr).

#[local] Instance M_bind : MBind M := fun A B f m tr =>
  match m tr with
  | (Ok a, tr') => f a tr'
  | (Panic msg, tr') => (Panic msg, tr')
  end.

Definition emit (e : Event) : M unit := fun tr => (Ok tt, tr ++ [e]).

Definition lift {A} (r : Result A) : M A := fun tr => (r, tr).

Definition run {A} (m : M A) : Result A * Trace := m [].

Section Proxy.

Variable lib : Library.

(** [strings.EqualFold]: the ASCII fast path is the library's loop. *)
Fixpoint EqualFold (s t : string) : bool :=
  match s, t with
  | String sr s', String tr t' =>
      if negb (isASCII sr && isASCII tr) then unicodeEqualFold lib s t
      else if Ascii.eqb tr sr then EqualFold s' t'
      else
        let lo := if byte_lt tr sr then tr else sr in
        let hi := if byte_lt tr sr then sr else tr in
        if byte_le "A" lo && byte_le lo "Z"
           && (nat_of_ascii hi =? nat_of_ascii lo + 32)%nat
        then EqualFold s' t'
        else false
  | EmptyString, EmptyString => true
  | _, _ => false
  end.

(** [keyIndex]: position of the first element whose name, without its
    leading [$]s, folds to [k]; [-1] when there is none. *)
Fixpoint keyIndexFrom (i : Z) (d : D) (k : string) : Z :=
  match d with
  | [] => -1
  | v :: d' =>
      if EqualFold (TrimLeft (Name v) "$") k then i
      else keyIndexFrom (i + 1) d' k
  end.

Definition keyIndex (d : D) (k : string) : Z := keyIndexFrom 0 d k.

Definition hasKey (d : D) (k : string) : bool := 0 <=? keyIndex d k.

(** [getKey]: [None] is Go's [nil] result for a missing key. *)
Definition getKey (d : D) (k : string) : option Value :=
  let index := keyIndex d k in
  if 0 <=? index then Val <$> (d !! Z.to_nat index) else None.

(** [orderbytosort]: one entry per element, the name for a direction
    above zero and the name behind a [-] otherwise; [res] is the slice
    the loop appends to.  The type assertion [v.Value.(float64)] panics
    on any other dynamic type. *)
Fixpoint orderbytosortFrom (d : D) (res : list string) : Result string :=
  match d with
  | [] => Ok (JoinWith "," res)
  | v :: d' =>
      match Val v with
      | VFloat f =>
          if float64_gt f (float64_of_int 0)
          then orderbytosortFrom d' (res ++ [Name v])
          else orderbytosortFrom d' (res ++ [("-" ++ Name v)%string])
      | _ => Panic "interface conversion: interface {} is not float64"
      end
  end.

Definition orderbytosort (d : D) : Result string := orderbytosortFrom d [].

(** [float64((p.messageTimeout - 1*time.Second) / time.Millisecond)] *)
Definition maxCap (p : Proxy) : float64 :=
  float64_of_int (Z.quot (int64 (messageTimeout p - 1 * Second)) Millisecond).

Definition queryGuard (remoteAddr queryID : string) : DocElem :=
  ("$queryGuard", VDoc [("remoteaddr", VString remoteAddr); ("track", VString queryID)]).

(** [mutateQuery], statement by statement.

    Lines 302-309: the query is wrapped unless it has more than one
    element and its first name, without leading [$]s, is [query]. *)
Definition alreadyWrapped (query : D) : bool :=
  (1 <? Z.of_nat (length query))
  && match query with
     | e0 :: _ => String.eqb (TrimLeft (Name e0) "$") "query"
     | [] => false
     end.

Definition wrapQuery (query : D) : D :=
  if negb (alreadyWrapped query) then [("$query", VDoc query)] else query.

(** Lines 311-321: clamp an existing [maxTimeMS] in place or append
    [$maxTimeMS].  The type assertion [query[index].Value.(float64)]
    panics on any other dynamic type. *)
Definition clampMaxTimeMS (p : Proxy) (query : D) : Result D :=
  let maxTimeMS := maxCap p in
  let index := keyIndex query "maxTimeMS" in
  if 0 <=? index then
    match query !! Z.to_nat index with
    | Some (n, VFloat v) =>
        if float64_gt v maxTimeMS
        then Ok (<[Z.to_nat index := (n, VFloat maxTimeMS)]> query)
        else Ok query
    | Some (_, _) => Panic "interface conversion: interface {} is not float64"
    | None => Panic "index out of range"
    end
  else Ok (query ++ [("$maxTimeMS", VFloat maxTimeMS)]).

(** Lines 323-337: the tag is appended last. *)
Definition mutateQuery (p : Proxy) (query : D) (remoteAddr queryID : string) : Result D :=
  let query := wrapQuery query in
  match clampMaxTimeMS p query with
  | Ok query => Ok (query ++ [queryGuard remoteAddr queryID])
  | Panic msg => Panic msg
  end.

(** [firstIndexableField].  [query[0]] and [t[0]] panic on an empty
    slice; a [nil] [orderby] and one of an unknown type fall through to
    the query's own first name. *)
Definition firstIndexableField (query : D) : Result string :=
  match query with
  | [] => Panic "index out of range"
  | e0 :: _ =>
      if String.eqb (TrimLeft (Name e0) "$") "query" && (1 <? Z.of_nat (length query)) then
        match Val e0 with
        | VDoc (v0 :: _) => Ok (Name v0)
        | _ =>
            match getKey query "orderby" with
            | Some (VDoc t) =>
                match t with
                | t0 :: _ => Ok (Name t0)
                | [] => Panic "index out of range"
                end
            | Some (VString t) => Ok (Trim t "-")
            | _ => Ok (Name e0)
            end
        end
      else Ok (Name e0)
  end.

(** [splitDatabaseCollection]: [split[1]] panics when the name has no dot. *)
Definition splitDatabaseCollection (fullName : string) : Result (string * string) :=
  match SplitN2 fullName with
  | [a; b] => Ok (a, b)
  | _ => Panic "index out of range"
  end.

(** The loop of [checkForIndex] over the collection's indexes;
    [index.Key[0]] panics on an index without keys. *)
Fixpoint indexLoop (indexes : list Index) (indexFieldName : string) : Result bool :=
  match indexes with
  | [] => Ok false
  | index :: rest =>
      match Key index with
      | [] => Panic "index out of range"
      | k0 :: _ =>
          if EqualFold (Trim k0 "-") indexFieldName then Ok true
          else indexLoop rest indexFieldName
      end
  end.

(** ** The handlers *)

Variable env : Env.

(** [client.Write(b)] and [server.Write(b)]: the environment decides
    whether the k-th write fails. *)
Definition clientWrite (b : bytes) : M (option error) := fun tr =>
  let r := clientWriteErr env (length (filter isClientWrite tr)) in
  (Ok r, tr ++ [ClientWrite b r]).

Definition serverWrite (b : bytes) : M (option error) := fun tr =>
  let r := serverWriteErr env (length (filter isServerWrite tr)) in
  (Ok r, tr ++ [ServerWrite b r]).

(** [io.CopyN(server, client, n)]: nothing to copy, and no error, when [n <= 0]. *)
Definition copyN (n : Z) : M (option error) :=
  if n <=? 0 then mret None
  else emit (CopyN n (copyNErr env));; mret (copyNErr env).

Definition copyMessage : M (option error) :=
  emit (CopyMessage (copyMessageErr env));; mret (copyMessageErr env).

(** [c.Count()] and [c.Indexes()]: mgo returns the zero value next to an error. *)
Definition Count (db coll : string) : Z * option error :=
  match ctlCount env db coll with
  | inr n => (n, None)
  | inl err => (0, Some err)
  end.

Definition Indexes (db coll : string) : list Index * option error :=
  match ctlIndexes env db coll with
  | inr l => (l, None)
  | inl err => ([], Some err)
  end.

(** [rand.Intn(n)]: a value in [[0, n)]. *)
Definition Intn (k : nat) (n : Z) : Z := randSource env k mod n.

(** [newServerConn]: [retryCount] counts down from 7. *)
Fixpoint dialLoop (p : Proxy) (retryCount : nat) (attempt : nat) (retrySleep : Z)
    (lastServer : string) : M (option error) :=
  match retryCount with
  | O => mret (Some (Errorf ("Couldn't connect to " ++ lastServer)))
  | S retryCount' =>
      match servers p with
      | [] => lift (Panic "index out of range")
      | s0 :: _ =>
          let l := Z.of_nat (length (servers p)) in
          let server :=
            if 1 <? l
            then nth (Z.to_nat (Intn attempt (l - 1))) (servers p) s0
            else s0 in
          let r := dialErr env attempt server in
          emit (Dial server r);;
          match r with
          | None => mret None
          | Some _ =>
              emit (Sleep retrySleep);;
              dialLoop p retryCount' (S attempt) (int64 (retrySleep * 2)) server
          end
      end
  end.

Definition newServerConn (p : Proxy) : M (option error) :=
  dialLoop p 7 0 (50 * Millisecond) "".

(** [checkForIndex] *)
Definition checkForIndex (databaseName collectionName : string) (query : D) : Result bool :=
  let '(count, _) := Count databaseName collectionName in
  if count =? 0 then Ok true
  else
    let '(indexes, _) := Indexes databaseName collectionName in
    match firstIndexableField query with
    | Panic msg => Panic msg
    | Ok indexFieldName => indexLoop indexes indexFieldName
    end.

(** [for _, p := range parts { client.Write(p) }] of [sendErrorToClient] *)
Fixpoint clientWriteAll (parts : list bytes) : M (option error) :=
  match parts with
  | [] => mret None
  | b :: rest =>
      r ← clientWrite b;
      match r with
      | Some err => mret (Some err)
      | None => clientWriteAll rest
      end
  end.

(** The error document: mgo marshals the struct's two tagged fields in
    order, as it does the elements of a [bson.D]. *)
Definition errorDocument (err : error) (code : Z) : D :=
  [("$err", VString (Error err)); ("code", VInt code)].

Definition errorHeader (h : messageHeader) (errorDoc : bytes) : messageHeader :=
  {| MessageLength := int32 (headerLen + Z.of_nat (length errorBytes) + Z.of_nat (length errorDoc));
     RequestID := RequestID h;
     ResponseTo := RequestID h;
     OpCode := OpReply |}.

(** [sendErrorToClient] *)
Definition sendErrorToClient (h : messageHeader) (err : error) (code : Z) : M (option error) :=
  let errorDoc := bsonMarshal lib (errorDocument err code) in
  let parts := [ToWire (errorHeader h errorDoc); errorBytes; errorDoc] in
  clientWriteAll parts.

(** [for _, b := range parts { n, err := server.Write(b); written += n }] *)
Fixpoint serverWriteAll (parts : list bytes) (written : Z) : M (error + Z) :=
  match parts with
  | [] => mret (inr written)
  | b :: rest =>
      r ← serverWrite b;
      match r with
      | Some err => mret (inl err)
      | None => serverWriteAll rest (written + Z.of_nat (length b))
      end
  end.

(** [for _, op := range ops.Inprog { ...killop... }]: errors are only logged. *)
Fixpoint killAll (ops : list Value) : M unit :=
  match ops with
  | [] => mret tt
  | op :: rest => emit (KillOp op);; killAll rest
  end.

(** [math.Floor] and [Duration.Seconds]. *)
Definition Floor (x : float64) : float64 :=
  match x with
  | S754_finite s m e =>
      if 0 <=? e then x
      else
        let q := Z.shiftr (Z.pos m) (- e) in
        let exact := Z.pos m mod 2 ^ (- e) =? 0 in
        if s then float64_of_int (if exact then - q else - (q + 1))
        else float64_of_int q
  | _ => x
  end.

Definition Seconds (d : Z) : float64 :=
  SFadd 53 1024 (float64_of_int (Z.quot d Second))
    (SFdiv 53 1024 (float64_of_int (Z.rem d Second)) (float64_of_int Second)).

(** The in-progress-operations filter of the reactor. *)
Definition inprogFilter (fullCollectionString queryID : string) (q : D) : gmap string Value :=
  let f : gmap string Value :=
    <["ns" := VString fullCollectionString]> (<["op" := VString "query"]> ∅) in
  if String.eqb queryID "" then
    let f :=
      <["secs_running" :=
          VMap [("$gte", VFloat (SFsub 53 1024 (Floor (Seconds (elapsed env))) (float64_of_int 1)))]]> f in
    flattenQuery (VDoc q) ["query"] f
  else
    <["query.$queryGuard.track" := VString queryID]> f.

Definition bytes_of_string (s : string) : bytes := list_byte_of_string s.

(** [fullCollectionName[:len(fullCollectionName)-1]] *)
Definition dropLast (s : string) : Result string :=
  match s with
  | EmptyString => Panic "slice bounds out of range"
  | _ => Ok (substring 0 (String.length s - 1) s)
  end.

(** The condition of line 212: the namespace is a user namespace and
    the query document is not empty. *)
Definition subjectToAdmission (fullCollectionName : string) (q : D) : bool :=
  negb (HasSuffix fullCollectionName cmdCollectionSuffix
        || HasSuffix fullCollectionName indexCollectionSuffix
        || Contains fullCollectionName systemCollection)
  && (0 <? Z.of_nat (length q)).

Definition rejection (collection : string) : error :=
  Errorf ("No index was found that could be used for your query try db."
          ++ collection ++ ".getIndexes()").

(** [handleQueryRequest] up to the response phase (lines 176-251)
    either returns, or has sent the query and goes on with the header,
    the namespace and the parsed query as they then are ([h] is a
    pointer and [q] is assigned with [=], so the response phase sees
    the patched header and the mutated query). *)
Inductive Forwarded : Type :=
| Returned (r : option error)
| Sent (h : messageHeader) (fullCollectionString : string) (q : D).

(** What the admission block (lines 212-235) leaves behind. *)
Inductive Block : Type :=
| Return (r : option error)
| Fallthrough (h : messageHeader) (q : D) (parts : list bytes).

(** Lines 237-251: write the parts, then copy what is left of the
    message from the client. *)
Definition transmit (h : messageHeader) (fullCollectionString : string) (q : D)
    (parts : list bytes) : M Forwarded :=
  w ← serverWriteAll parts 0;
  match w with
  | inl err => mret (Returned (Some err))
  | inr written =>
      let pending := int64 (int64 (MessageLength h) - int64 written) in
      c ← copyN pending;
      match c with
      | Some err => mret (Returned (Some err))
      | None => mret (Sent h fullCollectionString q)
      end
  end.

(** The header after line 227. *)
Definition patchLength (h : messageHeader) (queryDoc newdoc : bytes) : messageHeader :=
  {| MessageLength :=
       int32 (int32 (MessageLength h - int32 (Z.of_nat (length queryDoc)))
              + int32 (Z.of_nat (length newdoc)));
     RequestID := RequestID h;
     ResponseTo := ResponseTo h;
     OpCode := OpCode h |}.

Definition forwardQuery (p : Proxy) (h : messageHeader) (remoteAddr : string) : M Forwarded :=
  let parts := [ToWire h] in
  match readFlags env with
  | inl err => mret (Returned (Some err))
  | inr flags =>
  let parts := parts ++ [flags] in
  match readCString env with
  | inl err => mret (Returned (Some err))
  | inr fullCollectionName =>
  fullCollectionString ← lift (dropLast fullCollectionName);
  let parts := parts ++ [bytes_of_string fullCollectionName] in
  match readTwoInt32 env with
  | inl err => mret (Returned (Some err))
  | inr twoInt32 =>
  let parts := parts ++ [twoInt32] in
  match readDocument env with
  | inl err => mret (Returned (Some err))
  | inr queryDoc =>
  match bsonUnmarshal lib queryDoc with
  | inl err => mret (Returned (Some err))
  | inr q =>
  blk ←
    (if subjectToAdmission fullCollectionName q
     then
       '(database, collection) ← lift (splitDatabaseCollection fullCollectionString);
       ok ← lift (checkForIndex database collection q);
       if negb ok then
         r ← sendErrorToClient h (rejection collection) 17357;
         mret (Return r)
       else
         let queryID := uuidNew env in
         q ← lift (mutateQuery p q remoteAddr queryID);
         let newdoc := bsonMarshal lib q in
         let h := patchLength h queryDoc newdoc in
         let parts := <[0%nat := ToWire h]> parts in
         let parts := parts ++ [newdoc] in
         mret (Fallthrough h q parts)
     else
       let parts := parts ++ [queryDoc] in
       mret (Fallthrough h q parts));
  match blk with
  | Return r => mret (Returned r)
  | Fallthrough h q parts => transmit h fullCollectionString q parts
  end end end end end end.

(** The reactor (lines 255-295): find the operation, kill what was
    found, refresh the client's deadline and tell the client; all of it
    only when the lookup succeeded.  [err] is the error of
    [copyMessage]: the [err] of the kill loop is local to its body. *)
Definition reactor (p : Proxy) (h : messageHeader) (fullCollectionString queryID : string)
    (q : D) (err : error) : M (option error) :=
  let f := inprogFilter fullCollectionString queryID q in
  emit (InprogFind f);;
  match ctlInprog env f with
  | inl _ => mret (Some err)
  | inr ops =>
      killAll ops;;
      (if clientConn env is Some _
       then emit (ClientSetDeadline (messageTimeout p))
       else mret tt);;
      (if isNetTimeout err then
         sendErrorToClient h
           (Errorf ("Your query exceeded the time limit of "
                    ++ durationString lib (messageTimeout p)
                    ++ " and has been killed")) 50
       else
         sendErrorToClient h
           (Errorf ("Error: " ++ Error err ++ ". Your query has been killed")) 14044);;
      mret (Some err)
  end.

(** [handleQueryRequest].  [queryID] is declared twice in the source:
    at function scope (line 171) and, with [:=], inside the admission
    block (line 222).  The second declaration is the [let] inside
    [forwardQuery] and ends with that block; the response phase reads
    the first. *)
Definition handleQueryRequest (p : Proxy) (h : messageHeader) : M (option error) :=
  let remoteAddr := match clientConn env with Some a => a | None => "unknown" end in
  let queryID := "" in
  s ← forwardQuery p h remoteAddr;
  match s with
  | Returned r => mret r
  | Sent h fullCollectionString q =>
      r ← copyMessage;
      match r with
      | None => mret None
      | Some err => reactor p h fullCollectionString queryID q err
      end
  end.

(** [clientReadHeader] *)
Definition clientReadHeader (p : Proxy) : M (error + messageHeader) :=
  emit (ClientSetReadDeadline (clientIdleTimeout p));;
  match readHeader env with
  | inr header => mret (inr header)
  | inl EOF => mret (inl errNormalClose)
  | inl (NetError text true) => mret (inl errClientReadTimeout)
  | inl err => mret (inl err)
  end.

(** [handleMessage]; [h.WriteTo(server)] writes the wire form of the header. *)
Definition handleMessage (p : Proxy) (h : messageHeader) : M (option error) :=
  emit (ServerSetDeadline (messageTimeout p));;
  emit (ClientSetDeadline (messageTimeout p));;
  if OpCode h =? OpQuery then handleQueryRequest p h
  else
    w ← serverWrite (ToWire h);
    match w with
    | Some err => mret (Some err)
    | None =>
        c ← copyN (int64 (int32 (MessageLength h - headerLen)));
        match c with
        | Some err => mret (Some err)
        | None =>
            if HasResponse (OpCode h) then
              r ← copyMessage;
              match r with
              | Some err => mret (Some err)
              | None => mret None
              end
            else mret None
        end
    end.

(** One turn of the [for] loop of [handleClientConnection]: [Stop] is
    the [return] (with the deferred [s.Close()]), [Next] is the jump
    back to [clientReadHeader]. *)
Inductive Loop : Type := Stop | Next.

Definition pumpIteration (p : Proxy) : M Loop :=
  r ← clientReadHeader p;
  match r with
  | inl _ => emit ServerClose;; mret Stop
  | inr h =>
      err ← handleMessage p h;
      match err with
      | Some _ =>
          emit ServerClose;;
          newServerConn p;;
          mret Next
      | None => mret Next
      end
  end.

(** The variable [s] of [handleClientConnection]: the server
    connection, or [nil] once [s, _ = p.newServerConn()] has failed. *)
Inductive Conn : Type := Connected | Nil.

Definition nilDereference : string := "invalid memory address or nil pointer dereference".

(** [s.Close()]; calling a method of a [nil] interface value panics. *)
Definition closeServer (s : Conn) : M unit :=
  match s with
  | Connected => emit ServerClose
  | Nil => lift (Panic nilDereference)
  end.

(** One turn of the [for] loop with the connection it starts from and
    the one it leaves in [s].  [handleMessage] calls
    [server.SetDeadline] before anything else, so that on a [nil]
    connection it panics at once. *)
Definition turn (p : Proxy) (s : Conn) : M (Loop * Conn) :=
  r ← clientReadHeader p;
  match r with
  | inl _ => mret (Stop, s)
  | inr h =>
      err ← match s with
            | Connected => handleMessage p h
            | Nil => lift (Panic nilDereference)
            end;
      match err with
      | Some _ =>
          closeServer s;;
          c ← newServerConn p;
          mret (Next, if c is None then Connected else Nil)
      | None => mret (Next, s)
      end
  end.

End Proxy.

(** ** The whole connection *)

(** How [handleClientConnection] ends: the server could not be reached,
    the loop has returned, or the exchanges listed are over and the loop
    is back in [clientReadHeader]. *)
Inductive Outcome : Type :=
| Refused
| Closed
| Reading (s : Conn).

(** [defer func() { s.Close() }()]: a panic runs the deferred call, on
    the connection [s] holds at that moment, and goes on unwinding
    (nothing in the program recovers). *)
Definition unwind {A} (s : Conn) (m : M A) : M A := fun tr =>
  match m tr with
  | (Panic msg, tr') => (Panic msg, snd (closeServer s tr'))
  | r => r
  end.

(** The [for] loop, one environment of answers per turn; a [return]
    runs the deferred close. *)
Fixpoint pump (lib : Library) (p : Proxy) (s : Conn) (envs : list Env) : M Outcome :=
  match envs with
  | [] => mret (Reading s)
  | env :: rest =>
      r ← unwind s (turn lib env p s);
      match r with
      | (Stop, s') => closeServer s';; mret Closed
      | (Next, s') => pump lib p s' rest
      end
  end.

(** [handleClientConnection]: [dial] answers the first
    [newServerConn]; the keep-alive options set on the client socket
    are not traced. *)
Definition handleClientConnection (lib : Library) (p : Proxy) (dial : Env) (envs : list Env)
  : M Outcome :=
  c ← newServerConn dial p;
  match c with
  | Some _ => emit ClientClose;; mret Refused
  | None => pump lib p Connected envs
  end.

(** ** Vocabulary of the properties *)

Definition foldsTo (lib : Library) (k : string) (e : DocElem) : bool :=
  EqualFold lib (TrimLeft (Name e) "$") k.

Definition firstKeyIsQuery (q : D) : bool :=
  match q with
  | e0 :: _ => String.eqb (TrimLeft (Name e0) "$") "query"
  | [] => false
  end.

Definition isFloat (v : Value) : bool :=
  match v with VFloat _ => true | _ => false end.

Definition isQueryGuard (e : DocElem) : bool := String.eqb (Name e) "$queryGuard".

Definition capped (p : Proxy) (f : float64) : float64 :=
  if float64_gt f (maxCap p) then maxCap p else f.

(** How deep documents nest inside a value. *)
Fixpoint nesting (v : Value) : nat :=
  match v with
  | VDoc d =>
      S ((fix elems (d : D) : nat :=
            match d with
            | [] => O
            | td :: d' => (nesting (snd td) + elems d')%nat
            end) d)
  | _ => O
  end.

Definition noInnerDocument (v : Value) : Prop :=
  forall (v0 : DocElem) (vrest : D), v <> VDoc (v0 :: vrest).

(** The first indexable field, case by case.  The query counts as
    wrapped when it has more than one element and its first key,
    without leading [$]s, is [query]; [orderby] is looked up among the
    top-level keys by [getKey] (leading [$]s ignored, compared by
    [EqualFold]); an empty [orderby] document has no first key. *)
Inductive FirstIndexable (lib : Library) : D -> string -> Prop :=
| FI_inner (e0 e1 : DocElem) (rest : D) (v0 : DocElem) (vrest : D) :
    TrimLeft (Name e0) "$" = "query" ->
    Val e0 = VDoc (v0 :: vrest) ->
    FirstIndexable lib (e0 :: e1 :: rest) (Name v0)
| FI_orderby_document (e0 e1 : DocElem) (rest : D) (t0 : DocElem) (trest : D) :
    TrimLeft (Name e0) "$" = "query" ->
    noInnerDocument (Val e0) ->
    getKey lib (e0 :: e1 :: rest) "orderby" = Some (VDoc (t0 :: trest)) ->
    FirstIndexable lib (e0 :: e1 :: rest) (Name t0)
| FI_orderby_string (e0 e1 : DocElem) (rest : D) (t : string) :
    TrimLeft (Name e0) "$" = "query" ->
    noInnerDocument (Val e0) ->
    getKey lib (e0 :: e1 :: rest) "orderby" = Some (VString t) ->
    FirstIndexable lib (e0 :: e1 :: rest) (Trim t "-")
| FI_orderby_other (e0 e1 : DocElem) (rest : D) :
    TrimLeft (Name e0) "$" = "query" ->
    noInnerDocument (Val e0) ->
    (forall d : D, getKey lib (e0 :: e1 :: rest) "orderby" <> Some (VDoc d)) ->
    (forall t : string, getKey lib (e0 :: e1 :: rest) "orderby" <> Some (VString t)) ->
    FirstIndexable lib (e0 :: e1 :: rest) (Name e0)
| FI_single (e0 : DocElem) :
    FirstIndexable lib [e0] (Name e0)
| FI_unwrapped (e0 : DocElem) (rest : D) :
    TrimLeft (Name e0) "$" <> "query" ->
    FirstIndexable lib (e0 :: rest) (Name e0).

(** The events of a write loop that starts at the k-th write: it stops
    after the first write that fails. *)
Fixpoint clientWriteEvents (env : Env) (k : nat) (parts : list bytes) : Trace :=
  match parts with
  | [] => []
  | b :: rest =>
      ClientWrite b (clientWriteErr env k)
      :: match clientWriteErr env k with
         | None => clientWriteEvents env (S k) rest
         | Some _ => []
         end
  end.

Fixpoint clientWriteResult (env : Env) (k : nat) (parts : list bytes) : option error :=
  match parts with
  | [] => None
  | b :: rest =>
      match clientWriteErr env k with
      | None => clientWriteResult env (S k) rest
      | Some err => Some err
      end
  end.

Fixpoint serverWriteEvents (env : Env) (k : nat) (parts : list bytes) : Trace :=
  match parts with
  | [] => []
  | b :: rest =>
      ServerWrite b (serverWriteErr env k)
      :: match serverWriteErr env k with
         | None => serverWriteEvents env (S k) rest
         | Some _ => []
         end
  end.

Fixpoint serverWriteResult (env : Env) (k : nat) (parts : list bytes) (written : Z) : error + Z :=
  match parts with
  | [] => inr written
  | b :: rest =>
      match serverWriteErr env k with
      | None => serverWriteResult env (S k) rest (written + Z.of_nat (length b))
      | Some err => inl err
      end
  end.

(** What [handleQueryRequest] reads from the client. *)
Record Request : Type := {
  flags : bytes;
  fullCollectionName : string;
  twoInt32 : bytes;
  queryDoc : bytes;
  query : D
}.

Definition Reads (lib : Library) (env : Env) (rq : Request) : Prop :=
  readFlags env = inr (flags rq)
  /\ readCString env = inr (fullCollectionName rq)
  /\ readTwoInt32 env = inr (twoInt32 rq)
  /\ readDocument env = inr (queryDoc rq)
  /\ bsonUnmarshal lib (queryDoc rq) = inr (query rq).

(** The namespace without its terminator, and its two halves. *)
Definition Namespace (rq : Request) (full db coll : string) : Prop :=
  dropLast (fullCollectionName rq) = Ok full
  /\ splitDatabaseCollection full = Ok (db, coll).

(** The query is subject to admission and the inspector answers [ok]. *)
Definition Inspected (lib : Library) (env : Env) (rq : Request) (full coll : string)
    (ok : bool) : Prop :=
  subjectToAdmission (fullCollectionName rq) (query rq) = true
  /\ exists db : string,
       Namespace rq full db coll
       /\ checkForIndex lib env db coll (query rq) = Ok ok.

Definition remoteAddrOf (env : Env) : string :=
  match clientConn env with Some a => a | None => "unknown" end.

(** The parts of an admitted query as they go to the server. *)
Definition admittedHeader (lib : Library) (h : messageHeader) (rq : Request) (q' : D)
  : messageHeader :=
  patchLength h (queryDoc rq) (bsonMarshal lib q').

Definition admittedParts (lib : Library) (h : messageHeader) (rq : Request) (q' : D)
  : list bytes :=
  [ToWire (admittedHeader lib h rq q'); flags rq; bytes_of_string (fullCollectionName rq);
   twoInt32 rq; bsonMarshal lib q'].

Definition bypassParts (h : messageHeader) (rq : Request) : list bytes :=
  [ToWire h; flags rq; bytes_of_string (fullCollectionName rq); twoInt32 rq; queryDoc rq].

(** The endpoint of the k-th attempt. *)
Definition chosen (env : Env) (p : Proxy) (k : nat) : string :=
  match servers p with
  | [] => ""
  | s0 :: _ =>
      let l := Z.of_nat (length (servers p)) in
      if 1 <? l then nth (Z.to_nat (Intn env k (l - 1))) (servers p) s0 else s0
  end.

(** [env] with [draws] for its random source. *)
Definition withDraws (env : Env) (draws : nat -> Z) : Env :=
  {| clientConn := clientConn env; readHeader := readHeader env; readFlags := readFlags env;
     readCString := readCString env; readTwoInt32 := readTwoInt32 env;
     readDocument := readDocument env; clientWriteErr := clientWriteErr env;
     serverWriteErr := serverWriteErr env; copyNErr := copyNErr env;
     copyMessageErr := copyMessageErr env; ctlCount := ctlCount env;
     ctlIndexes := ctlIndexes env; ctlInprog := ctlInprog env; uuidNew := uuidNew env;
     elapsed := elapsed env; randSource := draws; dialErr := dialErr env |}.

(** The retry sleep after the k-th failed attempt. *)
Definition backoff (k : nat) : Z := 50 * Millisecond * 2 ^ Z.of_nat k.

Definition failedAttempt (env : Env) (p : Proxy) (k : nat) : Trace :=
  [Dial (chosen env p k) (dialErr env k (chosen env p k)); Sleep (backoff k)].

Definition isDialing (e : Event) : bool :=
  match e with Dial _ _ | Sleep _ => true | _ => false end.

Definition isDial (e : Event) : bool :=
  match e with Dial _ _ => true | _ => false end.

(** The reply [sendErrorToClient] writes for request [h]. *)
Definition errorReply (lib : Library) (h : messageHeader) (err : error) (code : Z) : list bytes :=
  [ToWire (errorHeader h (bsonMarshal lib (errorDocument err code)));
   errorBytes;
   bsonMarshal lib (errorDocument err code)].

(** The message of the synthetic error after a failed response. *)
Definition failureError (lib : Library) (p : Proxy) (err : error) : error :=
  if isNetTimeout err then
    Errorf ("Your query exceeded the time limit of "
            ++ durationString lib (messageTimeout p) ++ " and has been killed")
  else Errorf ("Error: " ++ Error err ++ ". Your query has been killed").

Definition failureCode (err : error) : Z := if isNetTimeout err then 50 else 14044.

Definition deadlineRefresh (env : Env) (p : Proxy) : Trace :=
  if clientConn env is Some _ then [ClientSetDeadline (messageTimeout p)] else [].

(** The reply prelude as the wire format has it: [responseFlags = 0],
    [cursorID = 0], [startingFrom = 0], [numberReturned = 1], all
    little-endian. *)
Definition replyPrelude (responseFlags cursorID startingFrom numberReturned : Z) : bytes :=
  le_bytes 4 responseFlags ++ le_bytes 8 cursorID
  ++ le_bytes 4 startingFrom ++ le_bytes 4 numberReturned.

Definition responseFlagsOf (body : bytes) : Z := le_int32 (take 4 body).

Definition cursorIDOf (body : bytes) : Z := le_int64 (take 8 (drop 4 body)).

Definition startingFromOf (body : bytes) : Z := le_int32 (take 4 (drop 12 body)).

Definition numberReturnedOf (body : bytes) : Z := le_int32 (take 4 (drop 16 body)).

(** Admission as the specification words it: the first indexable
    field is the inner document's first key when the first key is
    [query] or [$query] and its value a non-empty document, else the
    first key of an [orderby] document or the [orderby] string without
    its leading [-]s, else the query's own first key; a query is
    admitted when the count is 0 or some index has a first key that,
    without its leading [-]s, equals that field up to ASCII case. *)
Definition asciiLower (c : ascii) : ascii :=
  if byte_le "A" c && byte_le c "Z" then ascii_of_nat (nat_of_ascii c + 32) else c.

Fixpoint asciiEqualFold (s t : string) : bool :=
  match s, t with
  | String a s', String b t' => Ascii.eqb (asciiLower a) (asciiLower b) && asciiEqualFold s' t'
  | EmptyString, EmptyString => true
  | _, _ => false
  end.

(** One turn of the ASCII loop of [strings.EqualFold]. *)
Definition foldStep (sr tr : ascii) : bool :=
  Ascii.eqb tr sr
  || (let lo := if byte_lt tr sr then tr else sr in
      let hi := if byte_lt tr sr then sr else tr in
      byte_le "A" lo && byte_le lo "Z" && (nat_of_ascii hi =? nat_of_ascii lo + 32)%nat).

Definition asciiBytes : list ascii := ascii_of_nat <$> seq 0 128.

Definition specOrderby (q : D) : option Value :=
  Val <$> List.find (fun e => String.eqb (TrimLeft (Name e) "$") "orderby") q.

Definition specFirstIndexableField (q : D) : option string :=
  match q with
  | [] => None
  | e0 :: _ =>
      match String.eqb (Name e0) "query" || String.eqb (Name e0) "$query", Val e0 with
      | true, VDoc (v0 :: _) => Some (Name v0)
      | _, _ =>
          match specOrderby q with
          | Some (VDoc (t0 :: _)) => Some (Name t0)
          | Some (VString t) => Some (TrimLeft t "-")
          | _ => Some (Name e0)
          end
      end
  end.

Definition specAdmits (count : Z) (indexes : list Index) (q : D) : bool :=
  (count =? 0)
  || existsb (fun index =>
                match Key index, specFirstIndexableField q with
                | k0 :: _, Some f => asciiEqualFold (TrimLeft k0 "-") f
                | _, _ => false
                end) indexes.

(** A name without a dot. *)
Definition undotted (s : string) : Prop := forall a b : string, s <> (a ++ "." ++ b)%string.

(** The leaves of a value, each with the names leading to it: a
    document has the leaves of its elements' values, anything else is
    its own leaf. *)
Inductive Leaf : Value -> list string -> Value -> Prop :=
| Leaf_here (v : Value) : (forall d : D, v <> VDoc d) -> Leaf v [] v
| Leaf_below (d : D) (e : DocElem) (path : list string) (v : Value) :
    e ∈ d -> Leaf (Val e) path v -> Leaf (VDoc d) (Name e :: path) v.

(** One field of a sort specification as [orderbytosort] renders it. *)
Definition sortField (e : DocElem) : string :=
  match Val e with
  | VFloat f => if float64_gt f (float64_of_int 0) then Name e else ("-" ++ Name e)%string
  | _ => ""
  end.

(** The bytes the server has been handed: by writes and copies that
    did not fail. *)
Fixpoint upstreamBytes (tr : Trace) : Z :=
  match tr with
  | [] => 0
  | ServerWrite b None :: tr' => Z.of_nat (length b) + upstreamBytes tr'
  | CopyN n None :: tr' => n + upstreamBytes tr'
  | _ :: tr' => upstreamBytes tr'
  end.

(** The length of a message made of [parts]. *)
Definition totalLength (parts : list bytes) : Z := Z.of_nat (length (concat parts)).

(** What the proxy has read of a query message when it forwards it. *)
Definition readLength (rq : Request) : Z :=
  headerLen + Z.of_nat (length (flags rq))
  + Z.of_nat (length (bytes_of_string (fullCollectionName rq)))
  + Z.of_nat (length (twoInt32 rq)) + Z.of_nat (length (queryDoc rq)).

(** Events on the control channel. *)
Definition isControl (e : Event) : bool :=
  match e with InprogFind _ | KillOp _ => true | _ => false end.

(** Why [handleQueryRequest] could not read the query in full: the first
    of its reads, or the decoding of the document, that fails. *)
Inductive ReadFailure (lib : Library) (env : Env) : error -> Prop :=
| RF_flags (err : error) :
    readFlags env = inl err -> ReadFailure lib env err
| RF_name (fl : bytes) (err : error) :
    readFlags env = inr fl -> readCString env = inl err -> ReadFailure lib env err
| RF_twoInt32 (fl : bytes) (name : string) (err : error) :
    readFlags env = inr fl -> readCString env = inr name -> name <> "" ->
    readTwoInt32 env = inl err -> ReadFailure lib env err
| RF_document (fl : bytes) (name : string) (two : bytes) (err : error) :
    readFlags env = inr fl -> readCString env = inr name -> name <> "" ->
    readTwoInt32 env = inr two -> readDocument env = inl err -> ReadFailure lib env err
| RF_unmarshal (fl : bytes) (name : string) (two doc : bytes) (err : error) :
    readFlags env = inr fl -> readCString env = inr name -> name <> "" ->
    readTwoInt32 env = inr two -> readDocument env = inr doc ->
    bsonUnmarshal lib doc = inl err -> ReadFailure lib env err.

(** The query [rq] goes to the server as [parts] under the header [h']:
    as it came when it is not subject to admission, mutated when it is
    admitted. *)
Inductive Forwards (lib : Library) (env : Env) (p : Proxy) (h : messageHeader) (rq : Request)
  : string -> messageHeader -> D -> list bytes -> Prop :=
| Forwards_bypass (full : string) :
    subjectToAdmission (fullCollectionName rq) (query rq) = false ->
    dropLast (fullCollectionName rq) = Ok full ->
    Forwards lib env p h rq full h (query rq) (bypassParts h rq)
| Forwards_admitted (full coll : string) (q' : D) :
    Inspected lib env rq full coll true ->
    mutateQuery lib p (query rq) (remoteAddrOf env) (uuidNew env) = Ok q' ->
    Forwards lib env p h rq full (admittedHeader lib h rq q') q' (admittedParts lib h rq q').

(** The durations slept, in order. *)
Fixpoint sleeps (tr : Trace) : list Z :=
  match tr with
  | [] => []
  | Sleep d :: tr' => d :: sleeps tr'
  | _ :: tr' => sleeps tr'
  end.

(** [m] only adds events that satisfy [P] to the trace. *)
Definition emits {A} (P : Event -> Prop) (m : M A) : Prop :=
  forall tr : Trace, exists tr' : Trace, snd (m tr) = tr ++ tr' /\ Forall P tr'.

Definition leavesClient (e : Event) : Prop := e <> ClientClose.

(** No write on either socket is recorded in [pre]. *)
Definition quiet (pre : Trace) : Prop :=
  filter isClientWrite pre = [] /\ filter isServerWrite pre = [].

(** [m] does the same after a quiet stretch of trace as without it. *)
Definition framed {A} (m : M A) : Prop :=
  forall pre tr : Trace, quiet pre -> m (pre ++ tr) = (fst (m tr), pre ++ snd (m tr)).

(** ** The client's byte stream

    The answers of an [Env] are what the reads of one exchange return.
    On a connection they come off the bytes the client has sent, each
    read taking its bytes from the front of what the reads before it
    have left.  [None]: the stream does not start with a whole value of
    that kind (the read then waits for more bytes and ends with the
    peer's close or the deadline). *)

(** [io.ReadFull(client, buf)] for a buffer of [n] bytes. *)
Definition readFullOn (n : nat) (s : bytes) : option (bytes * bytes) :=
  if (n <=? length s)%nat then Some (take n s, drop n s) else None.

(** Modelled from the spec: the header is read as 16 bytes, four
    little-endian 32-bit integers. *)
Definition fromWire (b : bytes) : messageHeader :=
  {| MessageLength := le_int32 b;
     RequestID := le_int32 (drop 4 b);
     ResponseTo := le_int32 (drop 8 b);
     OpCode := le_int32 (drop 12 b) |}.

(** Modelled from the spec: [readCString] returns the bytes up to the
    first zero byte, terminator included. *)
Fixpoint readCStringOn (s : bytes) : option (bytes * bytes) :=
  match s with
  | [] => None
  | b :: s' =>
      if Byte.eqb b Byte.x00 then Some ([b], s')
      else match readCStringOn s' with
           | Some (name, rest) => Some (b :: name, rest)
           | None => None
           end
  end.

(** Modelled from the spec: [readDocument] returns the raw document,
    as many bytes as its first four say, those four included.  A
    length below 4 is left out. *)
Definition readDocumentOn (s : bytes) : option (bytes * bytes) :=
  if 4 <=? le_int32 s then readFullOn (Z.to_nat (le_int32 s)) s else None.

(** The reads of a query exchange in the order of the source:
    [readHeader] in [clientReadHeader] (line 124), then the flags, the
    namespace, the two integers and the document in
    [handleQueryRequest] (lines 179, 185, 194, 200), which it decodes
    (line 207).  With them, the bytes they leave on the stream. *)
Definition readQueryOn (lib : Library) (s : bytes) : option (messageHeader * Request * bytes) :=
  match readFullOn 16 s with
  | None => None
  | Some (head, s) =>
  match readFullOn 4 s with
  | None => None
  | Some (fl, s) =>
  match readCStringOn s with
  | None => None
  | Some (name, s) =>
  match readFullOn 8 s with
  | None => None
  | Some (two, s) =>
  match readDocumentOn s with
  | None => None
  | Some (doc, s) =>
  match bsonUnmarshal lib doc with
  | inl _ => None
  | inr q =>
      Some (fromWire head,
            {| flags := fl; fullCollectionName := string_of_list_byte name;
               twoInt32 := two; queryDoc := doc; query := q |},
            s)
  end end end end end end.

(** [env] answers a query exchange as the stream [s] does: the message
    read is [rq] under the header [h], and [rest] stays unread. *)
Definition QueryFrom (lib : Library) (env : Env) (s : bytes) (h : messageHeader)
    (rq : Request) (rest : bytes) : Prop :=
  readQueryOn lib s = Some (h, rq, rest)
  /\ readHeader env = inr h
  /\ Reads lib env rq.

(** [env] answers [readHeader] as the stream [s] does: the 16 bytes
    [head] are taken for a header. *)
Definition HeaderFrom (env : Env) (s : bytes) (head : bytes) : Prop :=
  (exists rest : bytes, readFullOn 16 s = Some (head, rest))
  /\ readHeader env = inr (fromWire head).

(** ** A concrete library and world for the examples

    The BSON encoder follows the wire format (and mgo's choice of
    [int32] for a Go [int] that fits); decoding is by table, over the
    documents an example names.  All names in the examples are ASCII,
    so the Unicode branch of [EqualFold] is never entered. *)
Module Example.

Definition cstring (s : string) : bytes := list_byte_of_string s ++ [Byte.x00].

Definition float64bits (f : float64) : Z :=
  match f with
  | S754_zero s => if s then 2 ^ 63 else 0
  | S754_infinity s => (if s then 2 ^ 63 else 0) + 2047 * 2 ^ 52
  | S754_nan => 2047 * 2 ^ 52 + 2 ^ 51 + 1
  | S754_finite s m e =>
      (if s then 2 ^ 63 else 0)
      + (if Z.pos m <? 2 ^ 52 then Z.pos m
         else (e + 1075) * 2 ^ 52 + (Z.pos m - 2 ^ 52))
  end.

Definition fitsInt32 (n : Z) : bool := (- 2 ^ 31 <=? n) && (n <? 2 ^ 31).

Definition frame (body : bytes) : bytes :=
  le_bytes 4 (Z.of_nat (length body) + 5) ++ body ++ [Byte.x00].

Fixpoint encodeValue (v : Value) : Byte.byte * bytes :=
  match v with
  | VFloat f => (Byte.x01, le_bytes 8 (float64bits f))
  | VString s => (Byte.x02, le_bytes 4 (Z.of_nat (String.length s) + 1) ++ cstring s)
  | VDoc d =>
      (Byte.x03,
       frame ((fix elems (d : D) : bytes :=
                 match d with
                 | [] => []
                 | td :: d' =>
                     fst (encodeValue (snd td)) :: cstring (fst td)
                     ++ snd (encodeValue (snd td)) ++ elems d'
                 end) d))
  | VMap d =>
      (Byte.x03,
       frame ((fix elems (d : D) : bytes :=
                 match d with
                 | [] => []
                 | td :: d' =>
                     fst (encodeValue (snd td)) :: cstring (fst td)
                     ++ snd (encodeValue (snd td)) ++ elems d'
                 end) d))
  | VArray a =>
      (Byte.x04,
       frame ((fix elems (i : nat) (a : list Value) : bytes :=
                 match a with
                 | [] => []
                 | x :: a' =>
                     fst (encodeValue x) :: cstring (pretty i)
                     ++ snd (encodeValue x) ++ elems (S i) a'
                 end) O a))
  | VBool b => (Byte.x08, [if b then Byte.x01 else Byte.x00])
  | VNull => (Byte.x0a, [])
  | VInt n => if fitsInt32 n then (Byte.x10, le_bytes 4 n) else (Byte.x12, le_bytes 8 n)
  | VInt64 n => (Byte.x12, le_bytes 8 n)
  | VOther kind raw => (kind, raw)
  end.

Definition Marshal (d : D) : bytes := snd (encodeValue (VDoc d)).

Definition bytes_eqb (a b : bytes) : bool :=
  bool_decide (Byte.to_N <$> a = Byte.to_N <$> b).

Fixpoint decodeAmong (known : list D) (b : bytes) : error + D :=
  match known with
  | [] => inl (Errorf "Document is corrupted")
  | d :: known' => if bytes_eqb (Marshal d) b then inr d else decodeAmong known' b
  end.

Definition library (known : list D) : Library :=
  {| unicodeEqualFold := fun _ _ => false;
     durationString := fun d => (pretty (d / Second) ++ "s")%string;
     bsonMarshal := Marshal;
     bsonUnmarshal := decodeAmong known |}.

Definition nul : string := String "000" "".

Definition header (ns : string) (q : D) : messageHeader :=
  {| MessageLength := 16 + 4 + Z.of_nat (String.length ns) + 1 + 8
                      + Z.of_nat (length (Marshal q));
     RequestID := 7; ResponseTo := 0; OpCode := OpQuery |}.

(** A client at [10.0.0.1:5000] sends the query [q] for [ns]; nothing
    fails on the sockets unless set otherwise. *)
Definition world (ns : string) (q : D) (count : error + Z) (indexes : error + list Index)
    (response : option error) (ops : error + list Value) : Env :=
  {| clientConn := Some "10.0.0.1:5000";
     readHeader := inr (header ns q);
     readFlags := inr (le_bytes 4 0);
     readCString := inr (ns ++ nul)%string;
     readTwoInt32 := inr (le_bytes 4 0 ++ le_bytes 4 0);
     readDocument := inr (Marshal q);
     clientWriteErr := fun _ => None;
     serverWriteErr := fun _ => None;
     copyNErr := None;
     copyMessageErr := response;
     ctlCount := fun _ _ => count;
     ctlIndexes := fun _ _ => indexes;
     ctlInprog := fun _ => ops;
     uuidNew := "Q4f2a9c";
     elapsed := 5 * Second;
     randSource := fun k => Z.of_nat k;
     dialErr := fun _ _ => None |}.

Definition proxy : Proxy :=
  {| servers := ["db1:27017"; "db2:27017"; "db3:27017"];
     clientIdleTimeout := 600 * Second;
     messageTimeout := 5 * Second |}.

Definition timeout : error := NetError "i/o timeout" true.

Definition emailIndex : list Index := [ {| Key := ["_id"] |}; {| Key := ["-email"; "name"] |} ].

Definition request (ns : string) (q : D) : Request :=
  {| flags := le_bytes 4 0;
     fullCollectionName := (ns ++ nul)%string;
     twoInt32 := le_bytes 4 0 ++ le_bytes 4 0;
     queryDoc := Marshal q;
     query := q |}.

(** The queries of the examples. *)
Definition byEmail : D := [("email", VString "a@b")].
Definition byName : D := [("name", VString "x")].
Definition envelopeOnly : D := [("$query", VDoc [("email", VString "a@b")])].
Definition longRunning : D :=
  [("$query", VDoc [("email", VString "x")]); ("maxTimeMS", VFloat (float64_of_int 999999))].
Definition intLimit : D :=
  [("$query", VDoc [("email", VString "x")]); ("maxTimeMS", VInt 5000)].
Definition taggedByClient : D :=
  [("$query", VDoc [("email", VString "x")]); ("$queryGuard", VString "mine")].
Definition emptySort : D := [("query", VDoc []); ("orderby", VDoc [])].

Definition lib : Library :=
  library [byEmail; byName; envelopeOnly; longRunning; intLimit; taggedByClient; emptySort].

Definition unreachable : error := Errorf "no reachable servers".

(** [app.users] holds 10 documents and has an index on [email]. *)
Definition users (q : D) (response : option error) (ops : error + list Value) : Env :=
  world "app.users" q (inr 10) (inr emailIndex) response ops.

Definition usersHeader (q : D) : messageHeader := header "app.users" q.
Definition usersRequest (q : D) : Request := request "app.users" q.

(** The response to [byEmail] times out; the lookup of the operation
    succeeds in the first world and fails in the second. *)
Definition timedOut : Env := users byEmail (Some timeout) (inr [VInt 4711]).
Definition timedOutUnseen : Env := users byEmail (Some timeout) (inl unreachable).

(** The same collection while the index listing fails. *)
Definition usersUnlisted (q : D) : Env :=
  world "app.users" q (inr 10) (inl unreachable) None (inr []).

(** The first two dials fail. *)
Definition flaky : Env :=
  {| clientConn := Some "10.0.0.1:5000";
     readHeader := inl EOF;
     readFlags := inl EOF;
     readCString := inl EOF;
     readTwoInt32 := inl EOF;
     readDocument := inl EOF;
     clientWriteErr := fun _ => None;
     serverWriteErr := fun _ => None;
     copyNErr := None;
     copyMessageErr := None;
     ctlCount := fun _ _ => inr 0;
     ctlIndexes := fun _ _ => inr [];
     ctlInprog := fun _ => inr [];
     uuidNew := "Q4f2a9c";
     elapsed := 0;
     randSource := fun k => Z.of_nat k;
     dialErr := fun k _ => if (k <? 2)%nat then Some (NetError "connection refused" false) else None |}.

(** [byEmail] as it leaves the proxy. *)
Definition sentQuery : D :=
  [("$query", VDoc [("email", VString "a@b")]);
   ("$maxTimeMS", VFloat (float64_of_int 4000));
   ("$queryGuard", VDoc [("remoteaddr", VString "10.0.0.1:5000"); ("track", VString "Q4f2a9c")])].

Definition sentHeader : messageHeader :=
  {| MessageLength := 158; RequestID := 7; ResponseTo := 0; OpCode := OpQuery |}.

Definition sentTrace : Trace :=
  Eval vm_compute in
    snd (run (forwardQuery lib (users byEmail (Some timeout) (inr [VInt 4711])) proxy
                (header "app.users" byEmail) "10.0.0.1:5000")).

(** An environment with one of its answers replaced. *)
Definition withHeader (env : Env) (r : error + messageHeader) : Env :=
  {| clientConn := clientConn env; readHeader := r; readFlags := readFlags env;
     readCString := readCString env; readTwoInt32 := readTwoInt32 env;
     readDocument := readDocument env; clientWriteErr := clientWriteErr env;
     serverWriteErr := serverWriteErr env; copyNErr := copyNErr env;
     copyMessageErr := copyMessageErr env; ctlCount := ctlCount env;
     ctlIndexes := ctlIndexes env; ctlInprog := ctlInprog env; uuidNew := uuidNew env;
     elapsed := elapsed env; randSource := randSource env; dialErr := dialErr env |}.

Definition withDocument (env : Env) (r : error + bytes) : Env :=
  {| clientConn := clientConn env; readHeader := readHeader env; readFlags := readFlags env;
     readCString := readCString env; readTwoInt32 := readTwoInt32 env;
     readDocument := r; clientWriteErr := clientWriteErr env;
     serverWriteErr := serverWriteErr env; copyNErr := copyNErr env;
     copyMessageErr := copyMessageErr env; ctlCount := ctlCount env;
     ctlIndexes := ctlIndexes env; ctlInprog := ctlInprog env; uuidNew := uuidNew env;
     elapsed := elapsed env; randSource := randSource env; dialErr := dialErr env |}.

Definition withServerWrites (env : Env) (f : nat -> option error) : Env :=
  {| clientConn := clientConn env; readHeader := readHeader env; readFlags := readFlags env;
     readCString := readCString env; readTwoInt32 := readTwoInt32 env;
     readDocument := readDocument env; clientWriteErr := clientWriteErr env;
     serverWriteErr := f; copyNErr := copyNErr env;
     copyMessageErr := copyMessageErr env; ctlCount := ctlCount env;
     ctlIndexes := ctlIndexes env; ctlInprog := ctlInprog env; uuidNew := uuidNew env;
     elapsed := elapsed env; randSource := randSource env; dialErr := dialErr env |}.

Definition withDials (env : Env) (f : nat -> string -> option error) : Env :=
  {| clientConn := clientConn env; readHeader := readHeader env; readFlags := readFlags env;
     readCString := readCString env; readTwoInt32 := readTwoInt32 env;
     readDocument := readDocument env; clientWriteErr := clientWriteErr env;
     serverWriteErr := serverWriteErr env; copyNErr := copyNErr env;
     copyMessageErr := copyMessageErr env; ctlCount := ctlCount env;
     ctlIndexes := ctlIndexes env; ctlInprog := ctlInprog env; uuidNew := uuidNew env;
     elapsed := elapsed env; randSource := randSource env; dialErr := f |}.

Definition connectionRefused : error := NetError "connection connectionRefused" false.
Definition brokenPipe : error := NetError "broken pipe" false.
Definition unexpectedEOF : error := Errorf "unexpected EOF".

(** A [GetMore] on [app.users]: 16 bytes of header and 26 of body. *)
Definition getMore : messageHeader :=
  {| MessageLength := 42; RequestID := 8; ResponseTo := 0; OpCode := OpGetMore |}.

(** [{ email: "a@b" }] on [app.users], answered by the server. *)
Definition answered : Env := users byEmail None (inr []).

(** [{ name: "x" }] on a namespace without a dot, and on a system
    collection. *)
Definition undottedWorld : Env := world "users" byName (inr 10) (inr emailIndex) None (inr []).
Definition systemWorld : Env :=
  world "app.system.indexes" byName (inr 10) (inr emailIndex) None (inr []).

(** The query document of [answered] cannot be read in full. *)
Definition truncated : Env := withDocument answered (inl unexpectedEOF).

(** No endpoint accepts a connection. *)
Definition down : Env := withDials flaky (fun _ _ => Some connectionRefused).

(** A [GetMore] arrives, the write to the server fails and no endpoint
    accepts the reconnect. *)
Definition lostUpstream : Env :=
  withDials (withServerWrites (withHeader flaky (inr getMore)) (fun _ => Some brokenPipe))
            (fun _ _ => Some connectionRefused).

(** [answered] with every write to the server failing. *)
Definition unwritable : Env := withServerWrites answered (fun _ => Some brokenPipe).

(** [{ name: "x" }] on [app.users], asking for the field [email] only:
    the message carries the selector [{ email: 1 }] after the query
    document, 71 bytes in all. *)
Definition onlyEmail : D := [("email", VInt 1)].

Definition selectingHeader : messageHeader :=
  {| MessageLength := 71; RequestID := 7; ResponseTo := 0; OpCode := OpQuery |}.

Definition selecting : bytes :=
  ToWire selectingHeader ++ le_bytes 4 0 ++ cstring "app.users"
  ++ (le_bytes 4 0 ++ le_bytes 4 0) ++ Marshal byName ++ Marshal onlyEmail.

Definition selectingWorld : Env := withHeader (users byName None (inr [])) (inr selectingHeader).

(** The exchange after it: the 16 bytes of the selector are what
    [readHeader] finds on the stream. *)
Definition afterSelecting : Env := withHeader flaky (inr (fromWire (Marshal onlyEmail))).

End Example.

(** * Properties *)

(** ** Running the monad *)

Lemma bind_run {A B} (m : M A) (f : A -> M B) (tr : Trace) :
  (m ≫= f) tr =
  match m tr with
  | (Ok a, tr') => f a tr'
  | (Panic msg, tr') => (Panic msg, tr')
  end.
Proof. reflexivity. Qed.

Lemma ret_run {A} (a : A) (tr : Trace) : (mret a : M A) tr = (Ok a, tr).
Proof. reflexivity. Qed.

Lemma lift_run {A} (r : Result A) (tr : Trace) : lift r tr = (r, tr).
Proof. reflexivity. Qed.

Lemma emit_run (e : Event) (tr : Trace) : emit e tr = (Ok tt, tr ++ [e]).
Proof. reflexivity. Qed.

Ltac step :=
  repeat progress (rewrite ?bind_run, ?ret_run, ?lift_run, ?emit_run; cbv beta iota).

(** ** Keys of a document *)

Lemma keyIndexFrom_cases lib (d : D) (k : string) : forall i : Z,
  (keyIndexFrom lib i d k = -1 /\ Forall (fun e => foldsTo lib k e = false) d)
  \/ (exists (j : nat) (e : DocElem),
        keyIndexFrom lib i d k = i + Z.of_nat j
        /\ d !! j = Some e
        /\ foldsTo lib k e = true
        /\ Forall (fun e => foldsTo lib k e = false) (take j d))
  \/ i < 0.
Proof.
  induction d as [|v d IH]; intros i.
  - left. split; [reflexivity | constructor].
  - destruct (Z_lt_dec i 0) as [Hi|Hi]; [right; right; exact Hi|].
    simpl. destruct (EqualFold lib (TrimLeft (Name v) "$") k) eqn:Hv.
    + right. left. exists O, v. simpl. repeat split; auto with zarith.
    + destruct (IH (i + 1)) as [[Hn Hall] | [(j & e & Hj & He & Hf & Hall) | Hneg]].
      * left. split; [exact Hn|]. constructor; [exact Hv | exact Hall].
      * right. left. exists (S j), e.
        split; [rewrite Hj; lia|].
        split; [exact He|].
        split; [exact Hf|].
        rewrite firstn_cons. constructor; [exact Hv | exact Hall].
      * lia.
Qed.

Lemma keyIndex_cases lib (d : D) (k : string) :
  (keyIndex lib d k = -1 /\ Forall (fun e => foldsTo lib k e = false) d)
  \/ (exists (j : nat) (e : DocElem),
        keyIndex lib d k = Z.of_nat j
        /\ d !! j = Some e
        /\ foldsTo lib k e = true
        /\ Forall (fun e => foldsTo lib k e = false) (take j d)).
Proof.
  unfold keyIndex.
  destruct (keyIndexFrom_cases lib d k 0) as [H | [H | H]]; [left; exact H | right; exact H | lia].
Qed.

(** ** [EqualFold] on ASCII names *)

Lemma asciiBytes_complete (c : ascii) : isASCII c = true -> In c asciiBytes.
Proof.
  unfold isASCII, asciiBytes. intros Hc. apply Nat.ltb_lt in Hc.
  rewrite <- (ascii_nat_embedding c). apply in_map, in_seq. lia.
Qed.

Lemma foldStep_table :
  List.forallb
    (fun a => List.forallb
                (fun b => Bool.eqb (foldStep a b) (Ascii.eqb (asciiLower a) (asciiLower b)))
                asciiBytes)
    asciiBytes = true.
Proof. vm_compute. reflexivity. Qed.

Lemma foldStep_lower (a b : ascii) :
  isASCII a = true -> isASCII b = true ->
  foldStep a b = Ascii.eqb (asciiLower a) (asciiLower b).
Proof.
  intros Ha Hb. pose proof foldStep_table as H.
  rewrite List.forallb_forall in H. specialize (H a (asciiBytes_complete a Ha)).
  rewrite List.forallb_forall in H. specialize (H b (asciiBytes_complete b Hb)).
  apply Bool.eqb_prop in H. exact H.
Qed.

(** On ASCII strings [EqualFold] is the ASCII case-insensitive
    comparison, whatever the Unicode tables say. *)
Lemma EqualFold_ascii (lib : Library) (s : string) : forall t : string,
  allASCII s = true -> allASCII t = true -> EqualFold lib s t = asciiEqualFold s t.
Proof.
  induction s as [|a s IH]; intros [|b t] Hs Ht; try reflexivity.
  cbn [allASCII] in Hs, Ht.
  apply andb_true_iff in Hs as [Ha Hs]. apply andb_true_iff in Ht as [Hb Ht].
  cbn [EqualFold asciiEqualFold]. rewrite Ha, Hb. cbn [andb negb].
  rewrite <- (foldStep_lower a b Ha Hb), (IH t Hs Ht). unfold foldStep.
  destruct (Ascii.eqb b a); [reflexivity|]. cbn [orb].
  destruct (byte_le "A" (if byte_lt b a then b else a)
            && byte_le (if byte_lt b a then b else a) "Z"
            && (nat_of_ascii (if byte_lt b a then a else b)
                =? nat_of_ascii (if byte_lt b a then b else a) + 32)%nat); reflexivity.
Qed.

(** ** Comparing [float64] values *)

Lemma SFcompare_antisym (a b : float64) :
  SFcompare a b = option_map CompOpp (SFcompare b a).
Proof.
  destruct a as [sa|sa| |sa ma ea], b as [sb|sb| |sb mb eb]; simpl;
    try reflexivity; try (destruct sa; reflexivity); try (destruct sb; reflexivity);
    try (destruct sa, sb; reflexivity).
  destruct sa, sb; try reflexivity.
  - rewrite (Z.compare_antisym ea eb). destruct (ea ?= eb) eqn:He; simpl; try reflexivity.
    rewrite (Pos.compare_cont_antisym mb ma Eq). reflexivity.
  - rewrite (Z.compare_antisym ea eb). destruct (ea ?= eb) eqn:He; simpl; try reflexivity.
    rewrite (Pos.compare_cont_antisym mb ma Eq). simpl.
    destruct (Pos.compare_cont Eq mb ma); reflexivity.
Qed.

Lemma float64_not_gt_le (a b : float64) :
  a <> S754_nan -> b <> S754_nan -> float64_gt a b = false -> float64_le a b = true.
Proof.
  unfold float64_gt, float64_le, SFltb, SFleb. intros Ha Hb.
  rewrite (SFcompare_antisym a b).
  destruct (SFcompare b a) as [[ | | ]|] eqn:Hc; simpl; try reflexivity; try discriminate.
  destruct a, b; simpl in Hc; try discriminate; congruence.
Qed.

(** Shifting a non-negative mantissa keeps it non-negative, so rounding
    an integer never yields NaN. *)
Lemma shr_1_nonneg (r : shr_record) : 0 <= shr_m r -> 0 <= shr_m (shr_1 r).
Proof.
  destruct r as [m r s]. simpl. intros Hm.
  destruct m as [|[p|p|]|[p|p|]]; simpl; lia.
Qed.

Lemma iter_shr_1_nonneg (n : positive) : forall r : shr_record,
  0 <= shr_m r -> 0 <= shr_m (SpecFloat.iter_pos shr_1 n r).
Proof.
  induction n as [n IH|n IH|]; intros r Hr; simpl.
  - apply IH, IH, shr_1_nonneg, Hr.
  - apply IH, IH, Hr.
  - apply shr_1_nonneg, Hr.
Qed.

Lemma shr_fexp_nonneg (m e : Z) (l : location) :
  0 <= m -> 0 <= shr_m (fst (shr_fexp 53 1024 m e l)).
Proof.
  intros Hm. unfold shr_fexp, shr.
  assert (H0 : 0 <= shr_m (shr_record_of_loc m l)) by (destruct l as [|[]]; exact Hm).
  destruct (fexp 53 1024 (Zdigits2 m + e) - e) as [|n|n]; simpl; try exact H0.
  apply iter_shr_1_nonneg, H0.
Qed.

Lemma round_nearest_even_nonneg (m : Z) (l : location) :
  0 <= m -> 0 <= round_nearest_even m l.
Proof.
  intros Hm. destruct l as [|[]]; simpl; try lia.
  destruct (Z.even m); lia.
Qed.

Lemma binary_round_aux_not_nan (s : bool) (m e : Z) (l : location) :
  0 <= m -> binary_round_aux 53 1024 s m e l <> S754_nan.
Proof.
  intros Hm. unfold binary_round_aux.
  pose proof (shr_fexp_nonneg m e l Hm) as H1.
  destruct (shr_fexp 53 1024 m e l) as [mrs' e'] eqn:E1. simpl in H1.
  pose proof (shr_fexp_nonneg _ e' loc_Exact
                (round_nearest_even_nonneg _ (loc_of_shr_record mrs') H1)) as H2.
  destruct (shr_fexp 53 1024 _ e' loc_Exact) as [mrs'' e''] eqn:E2. simpl in H2.
  destruct (shr_m mrs'') as [|q|q]; try discriminate; try lia.
  destruct (e'' <=? 1024 - 53); discriminate.
Qed.

Lemma float64_of_int_not_nan (z : Z) : float64_of_int z <> S754_nan.
Proof.
  unfold float64_of_int, binary_normalize, binary_round.
  destruct z as [|m|m]; try discriminate;
    destruct (shl_align m 0 _) as [mz ez]; apply binary_round_aux_not_nan; lia.
Qed.

(** ** The mutator *)

Section Mutator.

Context (lib : Library).

Lemma alreadyWrapped_true (q : D) :
  alreadyWrapped q = true <-> (1 < length q)%nat /\ firstKeyIsQuery q = true.
Proof.
  unfold alreadyWrapped, firstKeyIsQuery.
  rewrite andb_true_iff, Z.ltb_lt. split; intros [H1 H2]; (split; [lia | exact H2]).
Qed.

Lemma wrapQuery_wrapped (q : D) :
  alreadyWrapped q = true -> wrapQuery q = q.
Proof. unfold wrapQuery. intros ->. reflexivity. Qed.

Lemma wrapQuery_bare (q : D) :
  alreadyWrapped q = false -> wrapQuery q = [("$query", VDoc q)].
Proof. unfold wrapQuery. intros ->. reflexivity. Qed.

Lemma clamp_absent (p : Proxy) (w : D) :
  keyIndex lib w "maxTimeMS" = -1 ->
  clampMaxTimeMS lib p w = Ok (w ++ [("$maxTimeMS", VFloat (maxCap p))]).
Proof. unfold clampMaxTimeMS. intros ->. reflexivity. Qed.

Lemma clamp_float (p : Proxy) (w : D) (j : nat) (n : string) (f : float64) :
  keyIndex lib w "maxTimeMS" = Z.of_nat j -> w !! j = Some (n, VFloat f) ->
  clampMaxTimeMS lib p w =
  Ok (if float64_gt f (maxCap p) then <[j := (n, VFloat (maxCap p))]> w else w).
Proof.
  unfold clampMaxTimeMS. intros -> Hj.
  replace (0 <=? Z.of_nat j) with true by (symmetry; apply Z.leb_le; lia).
  rewrite Nat2Z.id, Hj. destruct (float64_gt f (maxCap p)); reflexivity.
Qed.

Lemma clamp_other (p : Proxy) (w : D) (j : nat) (n : string) (v : Value) :
  keyIndex lib w "maxTimeMS" = Z.of_nat j -> w !! j = Some (n, v) -> isFloat v = false ->
  clampMaxTimeMS lib p w = Panic "interface conversion: interface {} is not float64".
Proof.
  unfold clampMaxTimeMS. intros -> Hj Hv.
  replace (0 <=? Z.of_nat j) with true by (symmetry; apply Z.leb_le; lia).
  rewrite Nat2Z.id, Hj. destruct v; try reflexivity; discriminate.
Qed.

Lemma clamp_bare (p : Proxy) (q : D) :
  clampMaxTimeMS lib p [("$query", VDoc q)]
  = Ok [("$query", VDoc q); ("$maxTimeMS", VFloat (maxCap p))].
Proof. reflexivity. Qed.

Lemma float64_gt_irrefl (x : float64) : float64_gt x x = false.
Proof.
  unfold float64_gt, SFltb. pose proof (SFcompare_antisym x x) as H.
  destruct (SFcompare x x) as [[ | | ]|]; simpl in H; try reflexivity; discriminate.
Qed.

Lemma capped_not_gt (p : Proxy) (f : float64) : float64_gt (capped p f) (maxCap p) = false.
Proof.
  unfold capped. destruct (float64_gt f (maxCap p)) eqn:H; [apply float64_gt_irrefl | exact H].
Qed.

Lemma capped_le (p : Proxy) (f : float64) :
  f <> S754_nan -> float64_le (capped p f) (maxCap p) = true.
Proof.
  intros Hf. apply float64_not_gt_le.
  - unfold capped. destruct (float64_gt f (maxCap p)); [apply float64_of_int_not_nan | exact Hf].
  - apply float64_of_int_not_nan.
  - apply capped_not_gt.
Qed.

(** What [mutateQuery] returns, when it returns. *)
Lemma mutateQuery_cases (p : Proxy) (q : D) (addr id : string) (q' : D) :
  mutateQuery lib p q addr id = Ok q' ->
  (keyIndex lib (wrapQuery q) "maxTimeMS" = -1
   /\ q' = wrapQuery q ++ [("$maxTimeMS", VFloat (maxCap p)); queryGuard addr id])
  \/ (exists (j : nat) (n : string) (f : float64),
        keyIndex lib (wrapQuery q) "maxTimeMS" = Z.of_nat j
        /\ wrapQuery q !! j = Some (n, VFloat f)
        /\ foldsTo lib "maxTimeMS" (n, VFloat f) = true
        /\ q' = <[j := (n, VFloat (capped p f))]> (wrapQuery q) ++ [queryGuard addr id]).
Proof.
  unfold mutateQuery. intros H.
  destruct (keyIndex_cases lib (wrapQuery q) "maxTimeMS")
    as [[Hn _] | (j & [n v] & Hj & He & Hf & _)].
  - left. split; [exact Hn|]. rewrite (clamp_absent p _ Hn) in H.
    injection H as <-. rewrite <- app_assoc. reflexivity.
  - right. destruct (isFloat v) eqn:Hv.
    + destruct v as [f| | | | | | | | | ]; try discriminate.
      exists j, n, f. rewrite (clamp_float p _ j n f Hj He) in H.
      repeat split; try assumption.
      injection H as <-. unfold capped.
      destruct (float64_gt f (maxCap p)); [reflexivity|].
      rewrite (list_insert_id _ _ _ He). reflexivity.
    + rewrite (clamp_other p _ j n v Hj He Hv) in H. discriminate.
Qed.

(** The tag is the last element of what [mutateQuery] returns. *)
Lemma mutateQuery_tag_last (p : Proxy) (q : D) (addr id : string) (q' : D) :
  mutateQuery lib p q addr id = Ok q' ->
  exists front : D, q' = front ++ [queryGuard addr id].
Proof.
  intros H.
  destruct (mutateQuery_cases p q addr id q' H) as [[_ ->] | (j & n & f & _ & _ & _ & ->)].
  - exists (wrapQuery q ++ [("$maxTimeMS", VFloat (maxCap p))]).
    rewrite <- app_assoc. reflexivity.
  - eexists. reflexivity.
Qed.

(** A document is not the value of one of its own elements. *)
Lemma nesting_elems (d : D) (e : DocElem) :
  e ∈ d -> (nesting (Val e) < nesting (VDoc d))%nat.
Proof.
  intros He. cbn [nesting]. apply Nat.lt_succ_r.
  induction He as [e d|e x d _ IH]; simpl; unfold Val in *; lia.
Qed.

Lemma not_own_element (q : D) (n : string) : (n, VDoc q) ∉ q.
Proof.
  intros Hin. apply nesting_elems in Hin. unfold Val in Hin. simpl in Hin. lia.
Qed.

Lemma query_not_maxTimeMS (e0 : DocElem) :
  String.eqb (TrimLeft (Name e0) "$") "query" = true -> foldsTo lib "maxTimeMS" e0 = false.
Proof.
  unfold foldsTo. intros H. apply String.eqb_eq in H. rewrite H. reflexivity.
Qed.

(** What [mutateQuery] returns for a document that has more than one
    element and [query] for its first key: the document itself, its
    [maxTimeMS] clamped or appended, and the tag. *)
Lemma mutateQuery_wrapped (p : Proxy) (q : D) (addr id : string) (q' : D) :
  (1 < length q)%nat /\ firstKeyIsQuery q = true ->
  mutateQuery lib p q addr id = Ok q' ->
  head q' = head q
  /\ ((keyIndex lib q "maxTimeMS" = -1
       /\ q' = q ++ [("$maxTimeMS", VFloat (maxCap p)); queryGuard addr id])
      \/ (exists (j : nat) (n : string) (f : float64),
            keyIndex lib q "maxTimeMS" = Z.of_nat j
            /\ q !! j = Some (n, VFloat f)
            /\ q' = <[j := (n, VFloat (capped p f))]> q ++ [queryGuard addr id])).
Proof.
  intros Hq H. pose proof (proj2 (alreadyWrapped_true q) Hq) as Hw.
  destruct Hq as [Hlen Hkey].
  destruct (mutateQuery_cases p q addr id q' H)
    as [[Hn ->] | (j & n & f & Hj & He & Hf & ->)];
    rewrite (wrapQuery_wrapped q Hw) in *.
  - split; [|left; split; [exact Hn | reflexivity]].
    destruct q; [simpl in Hlen; lia | reflexivity].
  - split; [|right; exists j, n, f; repeat split; assumption].
    destruct q as [|e0 q]; [discriminate|]. destruct j as [|j]; [|reflexivity].
    injection He as He. subst e0. simpl in Hkey.
    rewrite (query_not_maxTimeMS (n, VFloat f) Hkey) in Hf. discriminate.
Qed.

(** C7 (amended): the mutator wraps the query as [{ $query: <original> }]
    iff it is not the case that the document has more than one element
    and its first key, without leading [$]s, is [query]: exactly then
    [mutateQuery] returns [{ $query: <original>, $maxTimeMS: cap,
    $queryGuard: ... }].  A document that has both is left at its
    wrapping level: what [mutateQuery] returns for it, when it returns,
    starts with the document's own first element and is the document
    itself with its [maxTimeMS] clamped in place, or [$maxTimeMS]
    appended, and the tag at the end. *)
Theorem wrap_iff_not_already_wrapped (q : D) :
  (wrapQuery q = [("$query", VDoc q)]
   <-> ~ ((1 < length q)%nat /\ firstKeyIsQuery q = true))
  /\ ((1 < length q)%nat /\ firstKeyIsQuery q = true -> wrapQuery q = q)
  /\ (forall (p : Proxy) (addr id : string),
        ~ ((1 < length q)%nat /\ firstKeyIsQuery q = true) ->
        mutateQuery lib p q addr id
        = Ok [("$query", VDoc q); ("$maxTimeMS", VFloat (maxCap p)); queryGuard addr id])
  /\ (forall (p : Proxy) (addr id : string),
        mutateQuery lib p q addr id
        = Ok [("$query", VDoc q); ("$maxTimeMS", VFloat (maxCap p)); queryGuard addr id]
        <-> ~ ((1 < length q)%nat /\ firstKeyIsQuery q = true))
  /\ (forall (p : Proxy) (addr id : string) (q' : D),
        (1 < length q)%nat /\ firstKeyIsQuery q = true ->
        mutateQuery lib p q addr id = Ok q' ->
        head q' = head q
        /\ ((keyIndex lib q "maxTimeMS" = -1
             /\ q' = q ++ [("$maxTimeMS", VFloat (maxCap p)); queryGuard addr id])
            \/ (exists (j : nat) (n : string) (f : float64),
                  keyIndex lib q "maxTimeMS" = Z.of_nat j
                  /\ q !! j = Some (n, VFloat f)
                  /\ q' = <[j := (n, VFloat (capped p f))]> q ++ [queryGuard addr id]))).
Proof.
  assert (Hbare : forall (p : Proxy) (addr id : string),
             alreadyWrapped q = false ->
             mutateQuery lib p q addr id
             = Ok [("$query", VDoc q); ("$maxTimeMS", VFloat (maxCap p)); queryGuard addr id]).
  { intros p addr id Hw. unfold mutateQuery. rewrite (wrapQuery_bare q Hw), clamp_bare.
    reflexivity. }
  assert (Hkept : forall (p : Proxy) (addr id : string),
             (1 < length q)%nat /\ firstKeyIsQuery q = true ->
             mutateQuery lib p q addr id
             <> Ok [("$query", VDoc q); ("$maxTimeMS", VFloat (maxCap p)); queryGuard addr id]).
  { intros p addr id Hq H.
    destruct (mutateQuery_wrapped p q addr id _ Hq H) as [Hhead _].
    destruct q as [|e0 q0] eqn:Eq; [destruct Hq as [Hlen _]; simpl in Hlen; lia|].
    simpl in Hhead. injection Hhead as Hhead.
    apply (not_own_element (e0 :: q0) "$query"). rewrite Hhead. left. }
  destruct (alreadyWrapped q) eqn:Hw.
  - pose proof (proj1 (alreadyWrapped_true q) Hw) as Hq.
    rewrite (wrapQuery_wrapped q Hw).
    split; [|split; [|split; [|split]]].
    + split; [|intros H; contradiction].
      intros Heq. apply (f_equal (@length DocElem)) in Heq. simpl in Heq.
      destruct Hq as [Hlen _]. lia.
    + reflexivity.
    + intros p addr id H. contradiction.
    + intros p addr id. split; [|intros H; contradiction].
      intros H. exfalso. exact (Hkept p addr id Hq H).
    + intros p addr id q' _. apply mutateQuery_wrapped, Hq.
  - assert (Hq : ~ ((1 < length q)%nat /\ firstKeyIsQuery q = true)).
    { intros H. apply alreadyWrapped_true in H. congruence. }
    rewrite (wrapQuery_bare q Hw).
    split; [|split; [|split; [|split]]].
    + split; [intros _; exact Hq | reflexivity].
    + intros H. contradiction.
    + intros p addr id _. apply Hbare. reflexivity.
    + intros p addr id. split; [intros _; exact Hq | intros _; apply Hbare; reflexivity].
    + intros p addr id q' H. contradiction.
Qed.

Lemma names_insert_same (w : D) (j : nat) (n : string) (v v' : Value) :
  w !! j = Some (n, v) -> Name <$> <[j := (n, v')]> w = Name <$> w.
Proof.
  intros H. rewrite list_fmap_insert. apply list_insert_id.
  rewrite list_lookup_fmap, H. reflexivity.
Qed.

Lemma firstKeyIsQuery_names (a b : D) :
  head (Name <$> a) = head (Name <$> b) -> firstKeyIsQuery a = firstKeyIsQuery b.
Proof.
  destruct a as [|[x ?] ?], b as [|[y ?] ?]; simpl; try discriminate; try reflexivity.
  intros [= ->]. reflexivity.
Qed.

Lemma guardCount_names (a b : D) :
  Name <$> a = Name <$> b -> length (filter isQueryGuard a) = length (filter isQueryGuard b).
Proof.
  revert b. induction a as [|x a IH]; intros [|y b]; simpl; try discriminate; try reflexivity.
  intros [= Hxy Hab].
  assert (Hg : isQueryGuard x = isQueryGuard y) by (unfold isQueryGuard; rewrite Hxy; reflexivity).
  rewrite !filter_cons.
  destruct (decide (isQueryGuard x)) as [Hx|Hx], (decide (isQueryGuard y)) as [Hy|Hy];
    simpl; rewrite ?(IH b Hab); try reflexivity; rewrite Hg in Hx; contradiction.
Qed.

Lemma firstKeyIsQuery_wrapQuery (q : D) : firstKeyIsQuery (wrapQuery q) = true.
Proof.
  unfold wrapQuery. destruct (alreadyWrapped q) eqn:Hw; [|reflexivity].
  apply alreadyWrapped_true in Hw. apply Hw.
Qed.

(** C4 (amended): every document the mutator returns is in wrapped form
    (its first key, without leading [$]s, is [query]); its last element
    is [$queryGuard] with exactly the sub-keys [remoteaddr] and [track],
    in that order, and it is the only [$queryGuard] element provided the
    incoming document, if it was already wrapped, had none; it has an
    element matching [maxTimeMS] (leading [$]s ignored, compared by
    [EqualFold]) whose value is a [float64] not greater than the cap,
    and at most the cap unless it is NaN; an element already present
    keeps its key and position and is clamped in place, otherwise
    [$maxTimeMS] is appended with exactly the cap. *)
Theorem mutateQuery_shape (p : Proxy) (q : D) (addr id : string) (q' : D) :
  mutateQuery lib p q addr id = Ok q' ->
  firstKeyIsQuery q' = true
  /\ last q' = Some ("$queryGuard", VDoc [("remoteaddr", VString addr); ("track", VString id)])
  /\ length (filter isQueryGuard q') = S (length (filter isQueryGuard (wrapQuery q)))
  /\ (alreadyWrapped q = false -> length (filter isQueryGuard q') = 1%nat)
  /\ (exists (j : nat) (n : string) (v : float64),
        q' !! j = Some (n, VFloat v)
        /\ foldsTo lib "maxTimeMS" (n, VFloat v) = true
        /\ float64_gt v (maxCap p) = false
        /\ (v <> S754_nan -> float64_le v (maxCap p) = true))
  /\ (forall (j : nat) (n : string) (v : Value),
        keyIndex lib (wrapQuery q) "maxTimeMS" = Z.of_nat j ->
        wrapQuery q !! j = Some (n, v) ->
        exists f : float64,
          v = VFloat f
          /\ q' = <[j := (n, VFloat (if float64_gt f (maxCap p) then maxCap p else f))]>
                    (wrapQuery q) ++ [queryGuard addr id])
  /\ (keyIndex lib (wrapQuery q) "maxTimeMS" = -1 ->
      q' = wrapQuery q ++ [("$maxTimeMS", VFloat (maxCap p)); queryGuard addr id]).
Proof.
  intros H.
  assert (Hcount : length (filter isQueryGuard q') = S (length (filter isQueryGuard (wrapQuery q)))).
  { destruct (mutateQuery_cases p q addr id q' H)
      as [[Hn ->] | (j & n & f & Hj & He & Hf & ->)].
    - rewrite filter_app, length_app. simpl. lia.
    - rewrite filter_app, length_app.
      rewrite (guardCount_names _ (wrapQuery q) (names_insert_same _ j n _ _ He)).
      simpl. lia. }
  split; [|split; [|split; [|split; [|split; [|split]]]]].
  - rewrite <- (firstKeyIsQuery_wrapQuery q). apply firstKeyIsQuery_names.
    destruct (mutateQuery_cases p q addr id q' H)
      as [[Hn ->] | (j & n & f & Hj & He & Hf & ->)].
    + rewrite fmap_app. destruct (wrapQuery q) eqn:Hw; [|reflexivity].
      pose proof (firstKeyIsQuery_wrapQuery q) as Hk. rewrite Hw in Hk. discriminate.
    + rewrite fmap_app, (names_insert_same _ j n _ _ He).
      destruct (wrapQuery q) eqn:Hw; [discriminate | reflexivity].
  - destruct (mutateQuery_cases p q addr id q' H)
      as [[Hn ->] | (j & n & f & Hj & He & Hf & ->)].
    + change (wrapQuery q ++ [("$maxTimeMS", VFloat (maxCap p)); queryGuard addr id])
        with (wrapQuery q ++ [("$maxTimeMS", VFloat (maxCap p))] ++ [queryGuard addr id]).
      rewrite app_assoc. apply last_snoc.
    + apply last_snoc.
  - exact Hcount.
  - intros Hw. rewrite Hcount, (wrapQuery_bare q Hw). reflexivity.
  - destruct (mutateQuery_cases p q addr id q' H)
      as [[Hn ->] | (j & n & f & Hj & He & Hf & ->)].
    + exists (length (wrapQuery q)), "$maxTimeMS", (maxCap p).
      split; [|split; [|split]].
      * rewrite lookup_app_r by lia. rewrite Nat.sub_diag. reflexivity.
      * reflexivity.
      * apply float64_gt_irrefl.
      * intros _. apply float64_not_gt_le;
          [apply float64_of_int_not_nan | apply float64_of_int_not_nan | apply float64_gt_irrefl].
    + exists j, n, (capped p f).
      split; [|split; [|split]].
      * rewrite lookup_app_l by (rewrite length_insert; eapply lookup_lt_Some; exact He).
        apply list_lookup_insert_eq. eapply lookup_lt_Some; exact He.
      * exact Hf.
      * apply capped_not_gt.
      * intros Hnan. apply float64_not_gt_le; [exact Hnan | apply float64_of_int_not_nan |].
        apply capped_not_gt.
  - intros j n v Hj He.
    destruct (mutateQuery_cases p q addr id q' H)
      as [[Hn ->] | (j' & n' & f & Hj' & He' & Hf & ->)].
    + rewrite Hn in Hj. lia.
    + rewrite Hj' in Hj. apply Nat2Z.inj in Hj. subst j'.
      rewrite He in He'. injection He' as -> ->.
      exists f. split; reflexivity.
  - intros Hn.
    destruct (mutateQuery_cases p q addr id q' H)
      as [[_ ->] | (j' & n' & f & Hj' & _)]; [reflexivity|].
    rewrite Hn in Hj'. lia.
Qed.

(** The clamp returns when the matching elements hold a [float64], and
    panics when the first of them, in a wrapped query, does not. *)
Lemma mutateQuery_total_iff_float (p : Proxy) (q : D) (addr id : string) :
  (Forall (fun e => foldsTo lib "maxTimeMS" e = true -> isFloat (Val e) = true) q ->
   exists q' : D, mutateQuery lib p q addr id = Ok q')
  /\ (forall (j : nat) (n : string) (v : Value),
        alreadyWrapped q = true ->
        keyIndex lib q "maxTimeMS" = Z.of_nat j ->
        q !! j = Some (n, v) ->
        isFloat v = false ->
        mutateQuery lib p q addr id
        = Panic "interface conversion: interface {} is not float64").
Proof.
  split.
  - intros Hall. unfold mutateQuery.
    destruct (alreadyWrapped q) eqn:Hw.
    + rewrite (wrapQuery_wrapped q Hw).
      destruct (keyIndex_cases lib q "maxTimeMS")
        as [[Hn _] | (j & [n v] & Hj & He & Hf & _)].
      * rewrite (clamp_absent p _ Hn). eexists. reflexivity.
      * rewrite Forall_forall in Hall.
        assert (Hv : isFloat v = true).
        { apply (Hall (n, v)); [|exact Hf].
          eapply list_elem_of_lookup_2. exact He. }
        destruct v as [f| | | | | | | | | ]; try discriminate.
        rewrite (clamp_float p _ j n f Hj He). eexists. reflexivity.
    + rewrite (wrapQuery_bare q Hw), clamp_bare. eexists. reflexivity.
  - intros j n v Hw Hj He Hv. unfold mutateQuery.
    rewrite (wrapQuery_wrapped q Hw), (clamp_other p _ j n v Hj He Hv). reflexivity.
Qed.

End Mutator.

(** ** The inspector *)

Section Inspector.

Context (lib : Library).

Lemma more_than_one (e0 e1 : DocElem) (rest : D) :
  (1 <? Z.of_nat (length (e0 :: e1 :: rest))) = true.
Proof. apply Z.ltb_lt. simpl length. lia. Qed.

Lemma firstIndexableField_single (e0 : DocElem) :
  firstIndexableField lib [e0] = Ok (Name e0).
Proof. unfold firstIndexableField. simpl. rewrite andb_false_r. reflexivity. Qed.

Lemma firstIndexableField_long (e0 e1 : DocElem) (rest : D) :
  firstIndexableField lib (e0 :: e1 :: rest) =
  if String.eqb (TrimLeft (Name e0) "$") "query" then
    match Val e0 with
    | VDoc (v0 :: _) => Ok (Name v0)
    | _ =>
        match getKey lib (e0 :: e1 :: rest) "orderby" with
        | Some (VDoc t) =>
            match t with
            | t0 :: _ => Ok (Name t0)
            | [] => Panic "index out of range"
            end
        | Some (VString t) => Ok (Trim t "-")
        | _ => Ok (Name e0)
        end
    end
  else Ok (Name e0).
Proof.
  unfold firstIndexableField. rewrite more_than_one, andb_true_r. reflexivity.
Qed.

Lemma firstIndexableField_sound (q : D) (f : string) :
  firstIndexableField lib q = Ok f -> FirstIndexable lib q f.
Proof.
  destruct q as [|e0 [|e1 rest]]; [discriminate | |].
  - rewrite firstIndexableField_single. intros [= <-]. apply FI_single.
  - rewrite firstIndexableField_long.
    destruct (String.eqb (TrimLeft (Name e0) "$") "query") eqn:Hq.
    + apply String.eqb_eq in Hq.
      destruct (Val e0) as [ | |[|v0 vrest]| | | | | | | ] eqn:Hv;
        try (intros [= <-]; eapply FI_inner; eassumption);
        (assert (Hno : noInnerDocument (Val e0)) by (rewrite Hv; intros ? ? ?; discriminate));
        (destruct (getKey lib (e0 :: e1 :: rest) "orderby")
           as [[ | |[|t0 trest]| | | | | | | ]|] eqn:Ho;
         try discriminate;
         try (intros [= <-]; eapply FI_orderby_document; eassumption);
         try (intros [= <-]; eapply FI_orderby_string; eassumption);
         intros [= <-]; apply FI_orderby_other; try assumption; intros ?; rewrite Ho; discriminate).
    + intros [= <-]. apply FI_unwrapped. intros H. apply String.eqb_neq in Hq. contradiction.
Qed.

Lemma firstIndexableField_complete (q : D) (f : string) :
  FirstIndexable lib q f -> firstIndexableField lib q = Ok f.
Proof.
  intros H. destruct H as [e0 e1 rest v0 vrest Hq Hv | e0 e1 rest t0 trest Hq Hno Ho
                           | e0 e1 rest t Hq Hno Ho | e0 e1 rest Hq Hno Hd Hs | e0 | e0 rest Hq].
  - rewrite firstIndexableField_long, Hq, Hv. reflexivity.
  - rewrite firstIndexableField_long, Hq, Ho. simpl.
    destruct (Val e0) as [ | |[|v0 vrest]| | | | | | | ]; try reflexivity.
    exfalso. eapply Hno. reflexivity.
  - rewrite firstIndexableField_long, Hq, Ho. simpl.
    destruct (Val e0) as [ | |[|v0 vrest]| | | | | | | ]; try reflexivity.
    exfalso. eapply Hno. reflexivity.
  - rewrite firstIndexableField_long, Hq. simpl.
    destruct (getKey lib (e0 :: e1 :: rest) "orderby") as [[ | |d| | | | | | | ]|] eqn:Ho;
      try (exfalso; eapply Hd; reflexivity); try (exfalso; eapply Hs; reflexivity);
      destruct (Val e0) as [ | |[|v0 vrest]| | | | | | | ]; try reflexivity;
      exfalso; eapply Hno; reflexivity.
  - apply firstIndexableField_single.
  - destruct rest as [|e1 rest]; [apply firstIndexableField_single|].
    rewrite firstIndexableField_long. apply String.eqb_neq in Hq. rewrite Hq. reflexivity.
Qed.

Lemma indexLoop_true (indexes : list Index) (f : string) :
  indexLoop lib indexes f = Ok true ->
  exists (index : Index) (k0 : string),
    index ∈ indexes /\ head (Key index) = Some k0 /\ EqualFold lib (Trim k0 "-") f = true.
Proof.
  induction indexes as [|index rest IH]; simpl; [discriminate|].
  destruct (Key index) as [|k0 ks] eqn:Hk; [discriminate|].
  destruct (EqualFold lib (Trim k0 "-") f) eqn:He.
  - intros _. exists index, k0. rewrite Hk. repeat split; [left | exact He].
  - intros H. destruct (IH H) as (i & k & Hi & Hh & Hf).
    exists i, k. repeat split; [right; exact Hi | exact Hh | exact Hf].
Qed.

Lemma indexLoop_false (indexes : list Index) (f : string) :
  indexLoop lib indexes f = Ok false ->
  forall index : Index, index ∈ indexes ->
    exists k0 : string, head (Key index) = Some k0 /\ EqualFold lib (Trim k0 "-") f = false.
Proof.
  induction indexes as [|index rest IH]; simpl; intros H i Hi.
  - inversion Hi.
  - destruct (Key index) as [|k0 ks] eqn:Hk; [discriminate|].
    destruct (EqualFold lib (Trim k0 "-") f) eqn:He; [discriminate|].
    apply elem_of_cons in Hi as [-> | Hi].
    + exists k0. rewrite Hk. split; [reflexivity | exact He].
    + apply (IH H i Hi).
Qed.

Lemma checkForIndex_empty (env : Env) (db coll : string) (q : D) :
  fst (Count env db coll) = 0 -> checkForIndex lib env db coll q = Ok true.
Proof.
  unfold checkForIndex. destruct (Count env db coll) as [count e]. simpl. intros ->. reflexivity.
Qed.

Lemma checkForIndex_nonempty (env : Env) (db coll : string) (q : D) :
  fst (Count env db coll) <> 0 ->
  checkForIndex lib env db coll q =
  match firstIndexableField lib q with
  | Panic msg => Panic msg
  | Ok f => indexLoop lib (fst (Indexes env db coll)) f
  end.
Proof.
  unfold checkForIndex. destruct (Count env db coll) as [count e]. simpl. intros H.
  apply Z.eqb_neq in H. rewrite H. destruct (Indexes env db coll). reflexivity.
Qed.

(** The admission decision, for a query on which the inspector returns. *)
Lemma checkForIndex_admits (env : Env) (db coll : string) (q : D) (ok : bool) :
  checkForIndex lib env db coll q = Ok ok ->
  (ok = true <->
   fst (Count env db coll) = 0
   \/ exists (f : string) (index : Index) (k0 : string),
        FirstIndexable lib q f
        /\ index ∈ fst (Indexes env db coll)
        /\ head (Key index) = Some k0
        /\ EqualFold lib (Trim k0 "-") f = true).
Proof.
  intros H. destruct (Z.eq_dec (fst (Count env db coll)) 0) as [Hc|Hc].
  - rewrite (checkForIndex_empty env db coll q Hc) in H. injection H as <-.
    split; [left; exact Hc | reflexivity].
  - rewrite (checkForIndex_nonempty env db coll q Hc) in H.
    destruct (firstIndexableField lib q) as [f|] eqn:Hf; [|discriminate].
    split.
    + intros ->. right. destruct (indexLoop_true _ _ H) as (i & k & Hi & Hh & He).
      exists f, i, k. repeat split; try assumption. apply firstIndexableField_sound, Hf.
    + intros [Hz | (f' & i & k & Hf' & Hi & Hh & He)]; [contradiction|].
      apply firstIndexableField_complete in Hf'. rewrite Hf in Hf'. injection Hf' as <-.
      destruct ok; [reflexivity|].
      destruct (indexLoop_false _ _ H i Hi) as (k' & Hh' & He').
      rewrite Hh in Hh'. injection Hh' as <-. congruence.
Qed.

End Inspector.

(** ** Writing to the sockets *)

Section Sockets.

Context (lib : Library) (env : Env).

Lemma count_snoc (P : Event -> bool) (tr : Trace) (e : Event) :
  length (filter P (tr ++ [e])) = (length (filter P tr) + (if P e then 1 else 0))%nat.
Proof.
  rewrite filter_app, length_app, filter_cons, filter_nil.
  destruct (decide (P e)) as [H|H]; destruct (P e); simpl in *; try reflexivity; contradiction.
Qed.

Lemma clientWriteAll_run (parts : list bytes) : forall tr : Trace,
  clientWriteAll env parts tr =
  (Ok (clientWriteResult env (length (filter isClientWrite tr)) parts),
   tr ++ clientWriteEvents env (length (filter isClientWrite tr)) parts).
Proof.
  induction parts as [|b rest IH]; intros tr; simpl.
  - rewrite app_nil_r. reflexivity.
  - step. unfold clientWrite at 1.
    destruct (clientWriteErr env (length (filter isClientWrite tr))) as [err|] eqn:He.
    + reflexivity.
    + rewrite IH, count_snoc. simpl. rewrite Nat.add_1_r, <- app_assoc. reflexivity.
Qed.

Lemma serverWriteAll_run (parts : list bytes) : forall (written : Z) (tr : Trace),
  serverWriteAll env parts written tr =
  (Ok (serverWriteResult env (length (filter isServerWrite tr)) parts written),
   tr ++ serverWriteEvents env (length (filter isServerWrite tr)) parts).
Proof.
  induction parts as [|b rest IH]; intros written tr; simpl.
  - rewrite app_nil_r. reflexivity.
  - step. unfold serverWrite at 1.
    destruct (serverWriteErr env (length (filter isServerWrite tr))) as [err|] eqn:He.
    + reflexivity.
    + rewrite IH, count_snoc. simpl. rewrite Nat.add_1_r, <- app_assoc. reflexivity.
Qed.

Lemma killAll_run (ops : list Value) : forall tr : Trace,
  killAll ops tr = (Ok tt, tr ++ (KillOp <$> ops)).
Proof.
  induction ops as [|op rest IH]; intros tr; simpl.
  - rewrite app_nil_r. reflexivity.
  - step. rewrite IH, <- app_assoc. reflexivity.
Qed.

Lemma clientWrites_app (a b : Trace) : clientWrites (a ++ b) = clientWrites a ++ clientWrites b.
Proof.
  induction a as [|e a IH]; simpl; [reflexivity|].
  destruct e; simpl; rewrite IH; reflexivity.
Qed.

Lemma serverWrites_app (a b : Trace) : serverWrites (a ++ b) = serverWrites a ++ serverWrites b.
Proof.
  induction a as [|e a IH]; simpl; [reflexivity|].
  destruct e; simpl; rewrite IH; reflexivity.
Qed.

(** The client gets the parts in order, up to the first failed write. *)
Lemma clientWriteEvents_prefix (parts : list bytes) : forall k : nat,
  clientWrites (clientWriteEvents env k parts) `prefix_of` parts.
Proof.
  induction parts as [|b rest IH]; intros k; simpl.
  - reflexivity.
  - destruct (clientWriteErr env k).
    + simpl. apply prefix_cons, prefix_nil.
    + apply prefix_cons, IH.
Qed.

Lemma clientWriteEvents_all (parts : list bytes) : forall k : nat,
  (forall i : nat, clientWriteErr env i = None) ->
  clientWrites (clientWriteEvents env k parts) = parts
  /\ clientWriteResult env k parts = None.
Proof.
  induction parts as [|b rest IH]; intros k Hok; simpl.
  - split; reflexivity.
  - rewrite Hok. destruct (IH (S k) Hok) as [-> ->]. split; reflexivity.
Qed.

Lemma clientWriteEvents_only (k : nat) (parts : list bytes) (P : Event -> bool) :
  (forall b r, P (ClientWrite b r) = false) ->
  filter P (clientWriteEvents env k parts) = [].
Proof.
  intros HP. revert k. induction parts as [|b rest IH]; intros k; [reflexivity|].
  cbn [clientWriteEvents]. rewrite filter_cons. destruct (decide _) as [H|H].
  - rewrite HP in H. contradiction.
  - destruct (clientWriteErr env k); [reflexivity | apply IH].
Qed.

Lemma clientWriteEvents_elem (parts : list bytes) : forall (k : nat) (e : Event),
  e ∈ clientWriteEvents env k parts -> exists b r, e = ClientWrite b r.
Proof.
  induction parts as [|b rest IH]; intros k e Hin; [inversion Hin|].
  cbn [clientWriteEvents] in Hin.
  apply elem_of_cons in Hin as [-> | Hin]; [eauto|].
  destruct (clientWriteErr env k); [inversion Hin | eapply IH; exact Hin].
Qed.

Lemma serverWriteEvents_only (k : nat) (parts : list bytes) (P : Event -> bool) :
  (forall b r, P (ServerWrite b r) = false) ->
  filter P (serverWriteEvents env k parts) = [].
Proof.
  intros HP. revert k. induction parts as [|b rest IH]; intros k; [reflexivity|].
  cbn [serverWriteEvents]. rewrite filter_cons. destruct (decide _) as [H|H].
  - rewrite HP in H. contradiction.
  - destruct (serverWriteErr env k); [reflexivity | apply IH].
Qed.

Lemma serverWriteEvents_elem (parts : list bytes) : forall (k : nat) (e : Event),
  e ∈ serverWriteEvents env k parts -> exists b r, e = ServerWrite b r.
Proof.
  induction parts as [|b rest IH]; intros k e Hin; [inversion Hin|].
  cbn [serverWriteEvents] in Hin.
  apply elem_of_cons in Hin as [-> | Hin]; [eauto|].
  destruct (serverWriteErr env k); [inversion Hin | eapply IH; exact Hin].
Qed.

Lemma serverWriteEvents_nonempty (k : nat) (parts : list bytes) :
  parts <> [] -> serverWrites (serverWriteEvents env k parts) <> [].
Proof. destruct parts; [contradiction | discriminate]. Qed.

Lemma sendErrorToClient_run (h : messageHeader) (err : error) (code : Z) (tr : Trace) :
  let errorDoc := bsonMarshal lib (errorDocument err code) in
  let parts := [ToWire (errorHeader h errorDoc); errorBytes; errorDoc] in
  sendErrorToClient lib env h err code tr =
  (Ok (clientWriteResult env (length (filter isClientWrite tr)) parts),
   tr ++ clientWriteEvents env (length (filter isClientWrite tr)) parts).
Proof. unfold sendErrorToClient. apply clientWriteAll_run. Qed.

End Sockets.

(** ** The query handler, path by path *)

#[local] Arguments sendErrorToClient : simpl never.
#[local] Arguments mutateQuery : simpl never.
#[local] Arguments checkForIndex : simpl never.
#[local] Arguments transmit : simpl never.
#[local] Arguments splitDatabaseCollection : simpl never.
#[local] Arguments dropLast : simpl never.
#[local] Arguments subjectToAdmission : simpl never.
#[local] Arguments ToWire : simpl never.
#[local] Arguments patchLength : simpl never.
#[local] Arguments bytes_of_string : simpl never.

Ltac enter_forwardQuery Hf Hn Hfull Ht Hd Hu Hs :=
  unfold forwardQuery, mbind, M_bind, mret, M_ret, lift;
  rewrite Hf, Hn, Hfull, Ht, Hd, Hu, Hs.

Section Handler.

Context (lib : Library) (env : Env) (p : Proxy) (h : messageHeader).

Lemma forwardQuery_rejected (rq : Request) (full coll addr : string) (tr : Trace) :
  Reads lib env rq -> Inspected lib env rq full coll false ->
  forwardQuery lib env p h addr tr =
  (r ← sendErrorToClient lib env h (rejection coll) 17357; mret (Returned r)) tr.
Proof.
  intros (Hf & Hn & Ht & Hd & Hu) (Hs & db & (Hfull & Hsplit) & Hc).
  enter_forwardQuery Hf Hn Hfull Ht Hd Hu Hs. rewrite Hsplit, Hc. simpl.
  destruct (sendErrorToClient lib env h (rejection coll) 17357 tr) as [[r|msg] tr'];
    reflexivity.
Qed.

Lemma forwardQuery_admitted (rq : Request) (full coll addr : string) (q' : D) (tr : Trace) :
  Reads lib env rq -> Inspected lib env rq full coll true ->
  mutateQuery lib p (query rq) addr (uuidNew env) = Ok q' ->
  forwardQuery lib env p h addr tr =
  transmit env (admittedHeader lib h rq q') full q' (admittedParts lib h rq q') tr.
Proof.
  intros (Hf & Hn & Ht & Hd & Hu) (Hs & db & (Hfull & Hsplit) & Hc) Hm.
  enter_forwardQuery Hf Hn Hfull Ht Hd Hu Hs. rewrite Hsplit, Hc, Hm. reflexivity.
Qed.

Lemma forwardQuery_crash (rq : Request) (full coll addr msg : string) (tr : Trace) :
  Reads lib env rq -> Inspected lib env rq full coll true ->
  mutateQuery lib p (query rq) addr (uuidNew env) = Panic msg ->
  forwardQuery lib env p h addr tr = (Panic msg, tr).
Proof.
  intros (Hf & Hn & Ht & Hd & Hu) (Hs & db & (Hfull & Hsplit) & Hc) Hm.
  enter_forwardQuery Hf Hn Hfull Ht Hd Hu Hs. rewrite Hsplit, Hc, Hm. reflexivity.
Qed.

Lemma forwardQuery_bypass (rq : Request) (full addr : string) (tr : Trace) :
  Reads lib env rq ->
  subjectToAdmission (fullCollectionName rq) (query rq) = false ->
  dropLast (fullCollectionName rq) = Ok full ->
  forwardQuery lib env p h addr tr = transmit env h full (query rq) (bypassParts h rq) tr.
Proof.
  intros (Hf & Hn & Ht & Hd & Hu) Hs Hfull.
  enter_forwardQuery Hf Hn Hfull Ht Hd Hu Hs. reflexivity.
Qed.

(** [transmit] writes to the server first. *)
Lemma transmit_run (h' : messageHeader) (full : string) (q : D) (parts : list bytes) (tr : Trace) :
  exists (r : Forwarded) (tr' : Trace),
    transmit env h' full q parts tr
    = (Ok r, tr ++ serverWriteEvents env (length (filter isServerWrite tr)) parts ++ tr')
    /\ (forall h'' full'' q'', r = Sent h'' full'' q'' -> h'' = h' /\ full'' = full /\ q'' = q)
    /\ filter isClientWrite tr' = []
    /\ (forall e, e ∈ tr' -> exists n r, e = CopyN n r).
Proof.
  unfold transmit. step. rewrite serverWriteAll_run.
  destruct (serverWriteResult env _ parts 0) as [err|written].
  - exists (Returned (Some err)), []. rewrite app_nil_r.
    repeat split; try reflexivity; try discriminate. intros e He. inversion He.
  - step. unfold copyN.
    destruct (int64 (int64 (MessageLength h') - int64 written) <=? 0).
    + step. exists (Sent h' full q), []. rewrite app_nil_r.
      repeat split; try congruence. intros e He. inversion He.
    + step. destruct (copyNErr env) as [err|].
      * exists (Returned (Some err)), [CopyN (int64 (int64 (MessageLength h') - int64 written)) (Some err)].
        rewrite <- app_assoc.
        repeat split; try reflexivity; try discriminate.
        intros e He. apply list_elem_of_singleton in He. eauto.
      * exists (Sent h' full q), [CopyN (int64 (int64 (MessageLength h') - int64 written)) None].
        rewrite <- app_assoc.
        repeat split; try congruence.
        intros e He. apply list_elem_of_singleton in He. eauto.
Qed.

End Handler.

(** ** The dialer *)

Section Dialer.

Context (env : Env) (p : Proxy).

Lemma backoff_double (k : nat) : (k < 7)%nat -> int64 (backoff k * 2) = backoff (S k).
Proof.
  intros Hk. do 7 (destruct k as [|k]; [reflexivity|]). lia.
Qed.

Lemma chosen_single (s : string) (k : nat) : servers p = [s] -> chosen env p k = s.
Proof. unfold chosen. intros ->. reflexivity. Qed.

(** With more than one endpoint the index drawn is below [N - 1]: the
    last endpoint is never the one picked. *)
Lemma chosen_among_first (k : nat) :
  (1 < length (servers p))%nat ->
  exists i : nat,
    Z.of_nat i = Intn env k (Z.of_nat (length (servers p)) - 1)
    /\ (i < length (servers p) - 1)%nat
    /\ servers p !! i = Some (chosen env p k).
Proof.
  intros Hl. unfold chosen. destruct (servers p) as [|s0 ss] eqn:Hs; [simpl in Hl; lia|].
  set (l := Z.of_nat (length (s0 :: ss))).
  assert (Hl' : 1 < l) by (unfold l; lia).
  replace (1 <? l) with true by (symmetry; apply Z.ltb_lt; exact Hl').
  assert (Hr : 0 <= Intn env k (l - 1) < l - 1) by (unfold Intn; apply Z.mod_pos_bound; lia).
  exists (Z.to_nat (Intn env k (l - 1))).
  generalize dependent (Intn env k (l - 1)). intros r Hr.
  split; [apply Z2Nat.id; lia|]. split; [unfold l in Hr; lia|].
  destruct (nth_lookup_or_length (s0 :: ss) (Z.to_nat r) s0) as [H|H]; [exact H|].
  unfold l in Hr. lia.
Qed.

Lemma dialLoop_run (n : nat) : forall (k : nat) (last : string) (tr : Trace),
  servers p <> [] ->
  (n + k = 7)%nat ->
  (0 < k -> last = chosen env p (k - 1))%nat ->
  exists f : nat,
    (k <= f <= 7)%nat
    /\ (forall j : nat, (k <= j < f)%nat -> dialErr env j (chosen env p j) <> None)
    /\ (f < 7 -> dialErr env f (chosen env p f) = None)%nat
    /\ dialLoop env p n k (backoff k) last tr =
       (Ok (if (f <? 7)%nat then None
            else Some (Errorf ("Couldn't connect to " ++ (if (0 <? f)%nat then chosen env p (f - 1) else last)))),
        tr ++ concat (failedAttempt env p <$> seq k (f - k))
           ++ (if (f <? 7)%nat then [Dial (chosen env p f) None] else [])).
Proof.
  induction n as [|n IH]; intros k last tr Hs Hk Hlast.
  - exists 7%nat. assert (k = 7%nat) by lia. subst k.
    split; [lia|]. split; [intros j Hj; lia|]. split; [lia|].
    simpl. rewrite app_nil_r. rewrite (Hlast ltac:(lia)). reflexivity.
  - cbn [dialLoop]. destruct (servers p) as [|s0 ss] eqn:Hsv; [contradiction|].
    assert (Hch : (if 1 <? Z.of_nat (length (s0 :: ss))
                   then nth (Z.to_nat (Intn env k (Z.of_nat (length (s0 :: ss)) - 1))) (s0 :: ss) s0
                   else s0) = chosen env p k).
    { unfold chosen. rewrite Hsv. reflexivity. }
    rewrite Hch. step.
    destruct (dialErr env k (chosen env p k)) as [err|] eqn:Hd.
    + step. rewrite (backoff_double k) by lia.
      destruct (IH (S k) (chosen env p k) ((tr ++ [Dial (chosen env p k) (Some err)]) ++ [Sleep (backoff k)]))
        as (f & Hf & Hfail & Hok & Hrun).
      * discriminate.
      * lia.
      * intros _. replace (S k - 1)%nat with k by lia. reflexivity.
      * exists f. split; [lia|]. split; [|split; [exact Hok|]].
        -- intros j Hj. destruct (Nat.eq_dec j k) as [->|Hne]; [rewrite Hd; discriminate|].
           apply Hfail. lia.
        -- rewrite Hrun. f_equal.
           ++ destruct (f <? 7)%nat; [reflexivity|].
              replace (0 <? f)%nat with true by (symmetry; apply Nat.ltb_lt; lia). reflexivity.
           ++ replace (f - k)%nat with (S (f - S k)) by lia.
              cbn [seq fmap list_fmap concat]. unfold failedAttempt at 2. rewrite Hd.
              rewrite <- !app_assoc. reflexivity.
    + exists k. split; [lia|]. split; [intros j Hj; lia|]. split; [intros _; exact Hd|].
      replace (k <? 7)%nat with true by (symmetry; apply Nat.ltb_lt; lia).
      rewrite Nat.sub_diag. reflexivity.
Qed.

Lemma failedAttempts_dials (n : nat) : forall k : nat,
  length (filter isDial (concat (failedAttempt env p <$> seq k n))) = n.
Proof.
  induction n as [|n IH]; intros k; [reflexivity|].
  cbn [seq fmap list_fmap concat]. unfold failedAttempt at 1.
  cbn [app]. rewrite filter_cons_True by exact I. rewrite filter_cons_False by (intros H; exact H).
  cbn [length]. rewrite (IH (S k)). reflexivity.
Qed.

Lemma failedAttempts_dialing (n : nat) : forall k : nat,
  Forall (fun e => isDialing e = true) (concat (failedAttempt env p <$> seq k n)).
Proof.
  induction n as [|n IH]; intros k; [constructor|].
  cbn [seq fmap list_fmap concat]. unfold failedAttempt at 1. cbn [app].
  constructor; [reflexivity|]. constructor; [reflexivity|]. apply IH.
Qed.

(** Reconnecting only dials and sleeps, and returns. *)
Lemma newServerConn_run (tr : Trace) :
  servers p <> [] ->
  exists (r : option error) (tr' : Trace),
    newServerConn env p tr = (Ok r, tr ++ tr')
    /\ Forall (fun e => isDialing e = true) tr'.
Proof.
  intros Hs. unfold newServerConn.
  destruct (dialLoop_run 7 0 "" tr Hs eq_refl ltac:(lia)) as (f & Hf & _ & _ & Hrun).
  change (50 * Millisecond) with (backoff 0). rewrite Hrun.
  eexists. eexists. split; [reflexivity|].
  apply Forall_app. split; [apply failedAttempts_dialing|].
  destruct (f <? 7)%nat; repeat constructor.
Qed.

(** The first thing [newServerConn] does is dial the endpoint of
    attempt 0. *)
Lemma first_dial :
  servers p <> [] ->
  head (snd (run (newServerConn env p)))
  = Some (Dial (chosen env p 0) (dialErr env 0 (chosen env p 0))).
Proof.
  intros Hs. unfold run, newServerConn.
  destruct (dialLoop_run 7 0 "" [] Hs eq_refl ltac:(lia)) as (f & Hf & Hfail & Hok & Hrun).
  change (50 * Millisecond) with (backoff 0). rewrite Hrun.
  rewrite Nat.sub_0_r. cbn [app snd].
  destruct f as [|f].
  - cbn. rewrite (Hok ltac:(lia)). reflexivity.
  - reflexivity.
Qed.

(** The endpoint a draw picks: the one at the index the draw leaves
    modulo [N - 1]. *)
Lemma chosen_draw (k i : nat) (s : string) :
  (1 < length (servers p))%nat ->
  (i < length (servers p) - 1)%nat ->
  servers p !! i = Some s ->
  randSource env k mod (Z.of_nat (length (servers p)) - 1) = Z.of_nat i ->
  chosen env p k = s.
Proof.
  intros Hl Hi Hs Hr.
  destruct (chosen_among_first k Hl) as (i' & Hi' & _ & Hc).
  unfold Intn in Hi'. rewrite Hr in Hi'. apply Nat2Z.inj in Hi'. subst i'.
  rewrite Hs in Hc. injection Hc as <-. reflexivity.
Qed.

End Dialer.

(** Counting the draws that pick one endpoint. *)
Lemma filter_length_ext {A} (P Q : A -> Prop) `{!forall x, Decision (P x)}
    `{!forall x, Decision (Q x)} (l : list A) :
  (forall x : A, x ∈ l -> P x <-> Q x) -> length (filter P l) = length (filter Q l).
Proof.
  induction l as [|x l IH]; intros Hext; [reflexivity|].
  assert (Hl : forall y : A, y ∈ l -> P y <-> Q y) by (intros y Hy; apply Hext; right; exact Hy).
  specialize (IH Hl). pose proof (Hext x ltac:(left)) as Hx.
  rewrite !filter_cons.
  destruct (decide (P x)) as [HP|HP], (decide (Q x)) as [HQ|HQ]; simpl; tauto || lia.
Qed.

Lemma seq_one_hit (c : nat) (len : nat) : forall a : nat,
  length (filter (fun r : nat => r = c) (seq a len))
  = if decide (a <= c < a + len)%nat then 1%nat else 0%nat.
Proof.
  induction len as [|len IH]; intros a.
  - cbn. destruct (decide (a <= c < a + 0)%nat); [lia | reflexivity].
  - cbn [seq]. rewrite filter_cons.
    destruct (decide (a = c)) as [Heq|Hne]; cbn [length]; rewrite (IH (S a));
      repeat match goal with |- context [decide ?P] => destruct (decide P) end;
      lia.
Qed.

Lemma residue_count (n i : nat) (m : nat) :
  (i < n)%nat ->
  length (filter (fun r : nat => (r mod n = i)%nat) (seq 0 (m * n))) = m.
Proof.
  intros Hi. induction m as [|m IH]; [reflexivity|].
  replace (S m * n)%nat with (m * n + n)%nat by lia.
  rewrite seq_app, filter_app, length_app, IH. cbn [Nat.add].
  rewrite (filter_length_ext _ (fun r : nat => r = (m * n + i)%nat)).
  - rewrite seq_one_hit. destruct (decide (m * n <= m * n + i < m * n + n)%nat); lia.
  - intros r Hr. apply elem_of_seq in Hr.
    assert (Hrn : r = (i + m * n)%nat <-> (r mod n = i)%nat).
    { split.
      - intros ->. rewrite Nat.Div0.mod_add. apply Nat.mod_small, Hi.
      - intros Hm. pose proof (Nat.div_mod_eq r n) as Hd.
        assert (Hq : (r / n = m)%nat).
        { assert (Hlt : (r mod n < n)%nat) by (apply Nat.mod_upper_bound; lia). nia. }
        rewrite Hq, Hm in Hd. lia. }
    rewrite <- Hrn. lia.
Qed.

(** With distinct endpoints, out of [m * (N - 1)] consecutive draws
    exactly [m] pick any given one of the first [N - 1]. *)
Lemma draws_evenly (env : Env) (p : Proxy) (k m i : nat) (s : string) :
  NoDup (servers p) ->
  (1 < length (servers p))%nat ->
  (i < length (servers p) - 1)%nat ->
  servers p !! i = Some s ->
  length (filter (fun r : nat => String.eqb (chosen (withDraws env (fun _ => Z.of_nat r)) p k) s)
                 (seq 0 (m * (length (servers p) - 1))))
  = m.
Proof.
  intros Hnd Hl Hi Hs.
  rewrite (filter_length_ext _ (fun r : nat => (r mod (length (servers p) - 1) = i)%nat)).
  - apply residue_count, Hi.
  - intros r _.
    assert (Hmod : randSource (withDraws env (fun _ => Z.of_nat r)) k
                   mod (Z.of_nat (length (servers p)) - 1)
                   = Z.of_nat (r mod (length (servers p) - 1))).
    { cbn [randSource withDraws]. rewrite Nat2Z.inj_mod, Nat2Z.inj_sub by lia. reflexivity. }
    split.
    + intros H. apply Is_true_true, String.eqb_eq in H.
      destruct (chosen_among_first (withDraws env (fun _ => Z.of_nat r)) p k Hl)
        as (i' & Hi' & Hlt & Hc).
      unfold Intn in Hi'. rewrite Hmod in Hi'. apply Nat2Z.inj in Hi'.
      rewrite H in Hc. rewrite <- Hi'. exact (NoDup_lookup _ _ _ _ Hnd Hc Hs).
    + intros H. apply Is_true_true, String.eqb_eq.
      apply (chosen_draw _ p k i s Hl Hi Hs). rewrite Hmod, H. reflexivity.
Qed.

(** C8: the dialer makes at most 7 attempts.  The k-th attempt dials
    [chosen k]: the only endpoint when one is configured, and with
    [N > 1] endpoints the one at the index [rand.Intn(N - 1)] draws,
    the k-th random value modulo [N - 1], which is below [N - 1], so
    among the first [N - 1] and never the last.  Each of the first
    [N - 1] endpoints is picked by the draws that leave its index, and
    is then the first one dialled; with distinct endpoints, out of any
    [m * (N - 1)] consecutive draws exactly [m] pick each of them, so
    that evenly spread draws give an evenly spread choice.  Every
    failed attempt is followed by a sleep, of 50 ms after the first and
    twice the previous one after each later attempt.  After 7 failures
    the result is the error naming the endpoint tried last; the first
    successful dial ends the loop without error. *)
Theorem newServerConn_attempts (env : Env) (p : Proxy) :
  servers p <> [] ->
  exists failed : nat,
    (failed <= 7)%nat
    /\ run (newServerConn env p) =
       (Ok (if (failed <? 7)%nat then None
            else Some (Errorf ("Couldn't connect to " ++ chosen env p 6))),
        concat (failedAttempt env p <$> seq 0 failed)
        ++ (if (failed <? 7)%nat then [Dial (chosen env p failed) None] else []))
    /\ (forall j : nat, (j < failed)%nat -> dialErr env j (chosen env p j) <> None)
    /\ (failed < 7 -> dialErr env failed (chosen env p failed) = None)%nat
    /\ (length (filter isDial (snd (run (newServerConn env p)))) <= 7)%nat
    /\ (forall (k : nat) (s : string), servers p = [s] -> chosen env p k = s)
    /\ (forall k : nat,
          (1 < length (servers p))%nat ->
          exists i : nat,
            Z.of_nat i = Intn env k (Z.of_nat (length (servers p)) - 1)
            /\ Z.of_nat i = randSource env k mod (Z.of_nat (length (servers p)) - 1)
            /\ (i < length (servers p) - 1)%nat
            /\ servers p !! i = Some (chosen env p k))
    /\ (forall (draws : nat -> Z) (k i : nat) (s : string),
          (1 < length (servers p))%nat ->
          (i < length (servers p) - 1)%nat ->
          servers p !! i = Some s ->
          draws k mod (Z.of_nat (length (servers p)) - 1) = Z.of_nat i ->
          chosen (withDraws env draws) p k = s
          /\ (k = 0%nat ->
              head (snd (run (newServerConn (withDraws env draws) p)))
              = Some (Dial s (dialErr env 0 s))))
    /\ (forall (k m i : nat) (s : string),
          NoDup (servers p) ->
          (1 < length (servers p))%nat ->
          (i < length (servers p) - 1)%nat ->
          servers p !! i = Some s ->
          length (filter (fun r : nat =>
                            String.eqb (chosen (withDraws env (fun _ => Z.of_nat r)) p k) s)
                         (seq 0 (m * (length (servers p) - 1))))
          = m)
    /\ backoff 0 = 50 * Millisecond
    /\ (forall k : nat, backoff (S k) = 2 * backoff k).
Proof.
  intros Hs.
  destruct (dialLoop_run env p 7 0 "" [] Hs eq_refl ltac:(lia)) as (f & Hf & Hfail & Hok & Hrun).
  assert (Hrun' : run (newServerConn env p)
                  = (Ok (if (f <? 7)%nat then None
                         else Some (Errorf ("Couldn't connect to " ++ chosen env p 6))),
                     concat (failedAttempt env p <$> seq 0 f)
                     ++ (if (f <? 7)%nat then [Dial (chosen env p f) None] else []))).
  { unfold run, newServerConn. change (50 * Millisecond) with (backoff 0). rewrite Hrun.
    rewrite Nat.sub_0_r. cbn [app]. f_equal. destruct (f <? 7)%nat eqn:H7; [reflexivity|].
    apply Nat.ltb_ge in H7. assert (f = 7%nat) by lia. subst f. reflexivity. }
  exists f. rewrite Hrun'. cbn [snd].
  split; [lia|].
  split; [|split; [|split; [|split; [|split; [|split; [|split; [|split; [|split]]]]]]]].
  - reflexivity.
  - intros j Hj. apply Hfail. lia.
  - exact Hok.
  - rewrite filter_app, length_app, failedAttempts_dials.
    destruct (f <? 7)%nat eqn:H7.
    + apply Nat.ltb_lt in H7. rewrite filter_cons_True by exact I. cbn. lia.
    + cbn. lia.
  - intros k s Hone. apply chosen_single, Hone.
  - intros k Hl. destruct (chosen_among_first env p k Hl) as (i & Hi & Hlt & Hc).
    exists i. split; [exact Hi|]. split; [exact Hi|]. split; [exact Hlt | exact Hc].
  - intros draws k i s Hl Hi Hsi Hd.
    assert (Hc : chosen (withDraws env draws) p k = s)
      by (apply (chosen_draw _ p k i s Hl Hi Hsi); exact Hd).
    split; [exact Hc|]. intros ->.
    rewrite (first_dial (withDraws env draws) p Hs), Hc. reflexivity.
  - intros k m i s Hnd Hl Hi Hsi. apply (draws_evenly env p k m i s); assumption.
  - reflexivity.
  - intros k. unfold backoff. rewrite Nat2Z.inj_succ, Z.pow_succ_r by lia. lia.
Qed.

(** ** One turn of the pump on a query *)

#[local] Arguments newServerConn : simpl never.
#[local] Arguments forwardQuery : simpl never.
#[local] Arguments reactor : simpl never.
#[local] Arguments errorHeader : simpl never.
#[local] Arguments errorDocument : simpl never.
#[local] Arguments rejection : simpl never.
#[local] Arguments clientWriteEvents : simpl never.
#[local] Arguments clientWriteResult : simpl never.

Section Pump.

Context (lib : Library) (env : Env) (p : Proxy) (h : messageHeader).

Lemma dialing_filter (P : Event -> bool) (tr : Trace) :
  (forall e, isDialing e = true -> P e = false) ->
  Forall (fun e => isDialing e = true) tr -> filter P tr = [].
Proof.
  intros HP. induction 1 as [|e tr He _ IH]; [reflexivity|].
  rewrite filter_cons_False; [exact IH|]. rewrite (HP e He). intros H. exact H.
Qed.

Lemma dialing_clientWrites (tr : Trace) :
  Forall (fun e => isDialing e = true) tr -> clientWrites tr = [].
Proof.
  induction 1 as [|e tr He _ IH]; [reflexivity|].
  destruct e; try discriminate; exact IH.
Qed.

Lemma handleQuery_rejected (rq : Request) (full coll : string) (tr : Trace) :
  Reads lib env rq -> Inspected lib env rq full coll false ->
  handleQueryRequest lib env p h tr =
  (Ok (clientWriteResult env (length (filter isClientWrite tr))
         (errorReply lib h (rejection coll) 17357)),
   tr ++ clientWriteEvents env (length (filter isClientWrite tr))
           (errorReply lib h (rejection coll) 17357)).
Proof.
  intros Hr Hi. unfold handleQueryRequest. step.
  rewrite (forwardQuery_rejected lib env p h rq full coll _ tr Hr Hi).
  step. rewrite sendErrorToClient_run. reflexivity.
Qed.

(** The turn of the pump that rejects a query (with a non-empty
    endpoint list, on a [Query] header) sends nothing upstream itself:
    no write to the server, no copy from the client.  What it writes to
    the client is the one synthetic reply, part by part up to a failing
    write and all of it when no write fails: a [Reply] header whose
    [responseTo] is the request id, the prelude, and the document
    [{ $err: "...db.<collection>.getIndexes()", code: 17357 }].  The
    client connection is not closed and the loop goes back to reading
    the next header. *)
Lemma rejected_turn_reply (rq : Request) (full coll : string) :
  servers p <> [] ->
  readHeader env = inr h ->
  OpCode h = OpQuery ->
  Reads lib env rq ->
  Inspected lib env rq full coll false ->
  let reply := errorReply lib h (rejection coll) 17357 in
  let tr := snd (run (pumpIteration lib env p)) in
  filter isUpstream tr = []
  /\ (clientWrites tr `prefix_of` reply)
  /\ ((forall i : nat, clientWriteErr env i = None) -> clientWrites tr = reply)
  /\ reply = [ToWire {| MessageLength :=
                          int32 (headerLen + 20
                                 + Z.of_nat (length (bsonMarshal lib (errorDocument (rejection coll) 17357))));
                        RequestID := RequestID h;
                        ResponseTo := RequestID h;
                        OpCode := OpReply |};
              errorBytes;
              bsonMarshal lib
                [("$err", VString ("No index was found that could be used for your query try db."
                                   ++ coll ++ ".getIndexes()"));
                 ("code", VInt 17357)]]
  /\ (ClientClose ∉ tr)
  /\ fst (run (pumpIteration lib env p)) = Ok Next.
Proof.
  intros Hs Hh Hop Hr Hi reply tr.
  assert (Hrun : exists tail : Trace,
             run (pumpIteration lib env p) =
             (Ok Next,
              [ClientSetReadDeadline (clientIdleTimeout p);
               ServerSetDeadline (messageTimeout p);
               ClientSetDeadline (messageTimeout p)]
              ++ clientWriteEvents env 0 reply ++ tail)
             /\ Forall (fun e => isDialing e = true \/ e = ServerClose) tail
             /\ ((forall i : nat, clientWriteErr env i = None) -> tail = [])).
  { unfold run, pumpIteration, clientReadHeader. step. rewrite Hh. step.
    unfold handleMessage. step. rewrite Hop, Z.eqb_refl.
    rewrite (handleQuery_rejected rq full coll _ Hr Hi).
    change (length (filter isClientWrite _)) with 0%nat. fold reply.
    destruct (clientWriteResult env 0 reply) as [err|] eqn:Hres.
    - step.
      destruct (newServerConn_run env p
                  (([ClientSetReadDeadline (clientIdleTimeout p);
                     ServerSetDeadline (messageTimeout p);
                     ClientSetDeadline (messageTimeout p)]
                    ++ clientWriteEvents env 0 reply) ++ [ServerClose]) Hs)
        as (r & tr' & Hn & Hd).
      cbn [app] in Hn |- *. rewrite Hn. step.
      exists (ServerClose :: tr'). split; [|split].
      + rewrite <- !app_assoc. reflexivity.
      + constructor; [right; reflexivity|].
        eapply Forall_impl; [exact Hd|]. intros e He. left. exact He.
      + intros Hok. destruct (clientWriteEvents_all env reply 0 Hok) as [_ Hnone].
        rewrite Hnone in Hres. discriminate.
    - step. exists []. split; [|split]; [rewrite app_nil_r; reflexivity | constructor | reflexivity]. }
  destruct Hrun as (tail & Hrun & Htail & Hnone).
  unfold tr. rewrite Hrun. cbn [fst snd].
  assert (Htw : clientWrites tail = []).
  { clear -Htail. induction Htail as [|e t [He| ->] _ IH]; [reflexivity| |exact IH].
    destruct e; try discriminate; exact IH. }
  split; [|split; [|split; [|split; [|split]]]].
  - rewrite !filter_app. cbn [app].
    rewrite !filter_cons_False by (intros H; exact H). rewrite filter_nil.
    rewrite (clientWriteEvents_only env 0 reply isUpstream) by reflexivity.
    cbn [app]. clear -Htail. induction Htail as [|e t [He| ->] _ IH]; [reflexivity| |].
    + rewrite filter_cons_False; [exact IH|]. destruct e; try discriminate; intros H; exact H.
    + rewrite filter_cons_False; [exact IH|]. intros H; exact H.
  - cbn [app clientWrites]. rewrite clientWrites_app, Htw, app_nil_r.
    apply clientWriteEvents_prefix.
  - intros Hok. cbn [app clientWrites]. rewrite clientWrites_app, Htw, app_nil_r.
    apply (clientWriteEvents_all env reply 0 Hok).
  - reflexivity.
  - intros Hin. cbn [app] in Hin.
    do 3 (apply elem_of_cons in Hin as [Hin|Hin]; [discriminate|]).
    apply elem_of_app in Hin as [Hin|Hin].
    + destruct (clientWriteEvents_elem env reply 0 _ Hin) as (b & r & Heq). discriminate.
    + rewrite Forall_forall in Htail. destruct (Htail _ Hin) as [H|H]; discriminate.
  - reflexivity.
Qed.

End Pump.

(** ** The response phase *)

Section Response.

Context (lib : Library) (env : Env) (p : Proxy).

Lemma reactor_run (h' : messageHeader) (full queryID : string) (q : D) (err : error) (tr : Trace) :
  reactor lib env p h' full queryID q err tr =
  (Ok (Some err),
   tr ++ InprogFind (inprogFilter env full queryID q)
      :: match ctlInprog env (inprogFilter env full queryID q) with
         | inl _ => []
         | inr ops =>
             (KillOp <$> ops) ++ deadlineRefresh env p
             ++ clientWriteEvents env (length (filter isClientWrite tr))
                  (errorReply lib h' (failureError lib p err) (failureCode err))
         end).
Proof.
  unfold reactor. step.
  destruct (ctlInprog env (inprogFilter env full queryID q)) as [e|ops]; [reflexivity|].
  step. rewrite killAll_run.
  assert (Hcount : forall d : Trace,
             (forall e, e ∈ d -> isClientWrite e = false) ->
             length (filter isClientWrite (tr ++ d)) = length (filter isClientWrite tr)).
  { intros d Hd. rewrite filter_app, length_app.
    replace (filter isClientWrite d) with (@nil Event); [simpl; lia|].
    symmetry. induction d as [|e d IH]; [reflexivity|].
    rewrite filter_cons_False.
    - apply IH. intros e' He'. apply Hd. right. exact He'.
    - rewrite (Hd e); [intros H; exact H | left]. }
  unfold deadlineRefresh, failureError, failureCode.
  destruct (clientConn env) as [a|]; step;
    destruct (isNetTimeout err); rewrite sendErrorToClient_run; step;
    rewrite <- !app_assoc; cbn [app];
    rewrite ?app_assoc;
    (rewrite Hcount;
     [rewrite <- ?app_assoc; cbn [app]; rewrite ?app_nil_r; reflexivity|]);
    intros e He; rewrite <- ?app_assoc in He; cbn [app] in He;
    repeat (apply elem_of_cons in He as [-> | He]; [reflexivity|]);
    try (apply elem_of_app in He as [He|He]);
    try (apply list_elem_of_fmap in He as (o & -> & _); reflexivity);
    try (apply list_elem_of_singleton in He as ->; reflexivity);
    inversion He.
Qed.

Lemma handleQuery_after (h : messageHeader) :
  run (handleQueryRequest lib env p h) =
  match run (forwardQuery lib env p h (remoteAddrOf env)) with
  | (Panic msg, tr0) => (Panic msg, tr0)
  | (Ok (Returned r), tr0) => (Ok r, tr0)
  | (Ok (Sent h' full q'), tr0) =>
      match copyMessageErr env with
      | None => (Ok None, tr0 ++ [CopyMessage None])
      | Some err => reactor lib env p h' full "" q' err (tr0 ++ [CopyMessage (Some err)])
      end
  end.
Proof.
  unfold run, handleQueryRequest. fold (remoteAddrOf env). step.
  destruct (forwardQuery lib env p h (remoteAddrOf env) []) as [[[r|h' full q']|msg] tr0];
    try reflexivity.
  unfold copyMessage. step. destruct (copyMessageErr env); reflexivity.
Qed.

(** Whatever [forwardQuery] did stays in the trace. *)
Lemma handleQuery_extends (h : messageHeader) :
  exists tr' : Trace,
    snd (run (handleQueryRequest lib env p h))
    = snd (run (forwardQuery lib env p h (remoteAddrOf env))) ++ tr'
    /\ (is_panic (fst (run (forwardQuery lib env p h (remoteAddrOf env)))) = true ->
        is_panic (fst (run (handleQueryRequest lib env p h))) = true).
Proof.
  rewrite handleQuery_after.
  destruct (run (forwardQuery lib env p h (remoteAddrOf env))) as [[[r|h' full q']|msg] tr0].
  - exists []. rewrite app_nil_r. split; [reflexivity | discriminate].
  - destruct (copyMessageErr env) as [err|].
    + rewrite reactor_run. eexists. rewrite <- app_assoc. split; [reflexivity | discriminate].
    + eexists. split; [reflexivity | discriminate].
  - exists []. rewrite app_nil_r. split; reflexivity.
Qed.

End Response.

(** ** Admission, seen from the wire *)

Section Admission.

Context (lib : Library) (env : Env) (p : Proxy) (h : messageHeader).

Lemma serverWrites_clientWriteEvents (k : nat) (parts : list bytes) :
  serverWrites (clientWriteEvents env k parts) = [].
Proof.
  revert k. induction parts as [|b rest IH]; intros k; [reflexivity|].
  change (clientWriteEvents env k (b :: rest))
    with (ClientWrite b (clientWriteErr env k)
          :: match clientWriteErr env k with
             | None => clientWriteEvents env (S k) rest
             | Some _ => []
             end).
  cbn [serverWrites]. destruct (clientWriteErr env k); [reflexivity | apply IH].
Qed.

(** A query subject to admission either makes the handler panic, or is
    rejected and answered, or is admitted, mutated and handed to the
    server. *)
Lemma admission_outcome (rq : Request) :
  Reads lib env rq ->
  subjectToAdmission (fullCollectionName rq) (query rq) = true ->
  is_panic (fst (run (handleQueryRequest lib env p h))) = true
  \/ (exists full coll : string,
        Inspected lib env rq full coll false
        /\ serverWrites (snd (run (handleQueryRequest lib env p h))) = [])
  \/ (exists (full coll : string) (q' : D),
        Inspected lib env rq full coll true
        /\ mutateQuery lib p (query rq) (remoteAddrOf env) (uuidNew env) = Ok q'
        /\ serverWrites (snd (run (handleQueryRequest lib env p h))) <> []).
Proof.
  intros Hr Hs.
  destruct (handleQuery_extends lib env p h) as (tr' & Htr & Hpanic).
  pose proof Hr as (Hf & Hn & Ht & Hd & Hu).
  destruct (dropLast (fullCollectionName rq)) as [full|msg] eqn:Hfull.
  2:{ left. apply Hpanic. unfold run, forwardQuery, mbind, M_bind, mret, M_ret, lift.
      rewrite Hf, Hn, Hfull. reflexivity. }
  destruct (splitDatabaseCollection full) as [[db coll]|msg] eqn:Hsplit.
  2:{ left. apply Hpanic. unfold run.
      enter_forwardQuery Hf Hn Hfull Ht Hd Hu Hs. rewrite Hsplit. reflexivity. }
  destruct (checkForIndex lib env db coll (query rq)) as [[|]|msg] eqn:Hc.
  - assert (Hi : Inspected lib env rq full coll true).
    { split; [exact Hs|]. exists db. repeat split; assumption. }
    destruct (mutateQuery lib p (query rq) (remoteAddrOf env) (uuidNew env)) as [q'|msg] eqn:Hm.
    + right. right. exists full, coll, q'. split; [exact Hi|]. split; [reflexivity|].
      rewrite Htr. unfold run.
      rewrite (forwardQuery_admitted lib env p h rq full coll _ q' [] Hr Hi Hm).
      destruct (transmit_run env (admittedHeader lib h rq q') full q'
                  (admittedParts lib h rq q') []) as (r & t & Hrun & _).
      rewrite Hrun. cbn [snd app]. rewrite !serverWrites_app.
      intros Heq. apply app_eq_nil in Heq as [Heq _]. apply app_eq_nil in Heq as [Heq _].
      revert Heq. apply serverWriteEvents_nonempty. discriminate.
    + left. apply Hpanic. unfold run.
      rewrite (forwardQuery_crash lib env p h rq full coll _ msg [] Hr Hi Hm). reflexivity.
  - assert (Hi : Inspected lib env rq full coll false).
    { split; [exact Hs|]. exists db. repeat split; assumption. }
    right. left. exists full, coll. split; [exact Hi|].
    unfold run. rewrite (handleQuery_rejected lib env p h rq full coll [] Hr Hi).
    cbn [snd app]. apply serverWrites_clientWriteEvents.
  - left. apply Hpanic. unfold run.
    enter_forwardQuery Hf Hn Hfull Ht Hd Hu Hs. rewrite Hsplit, Hc. reflexivity.
Qed.

(** C3 (amended): for a query subject to admission on which the
    handler does not crash, bytes go to the server iff the collection's
    document count is 0, or some index on the collection has a first
    key that, with every leading and trailing [-] removed, equals the
    query's first indexable field under [EqualFold] (by [EqualFold_ascii]
    the ASCII case-insensitive comparison on ASCII names);
    [FirstIndexable] says what that field is. *)
Theorem forwards_iff_indexed (rq : Request) :
  Reads lib env rq ->
  subjectToAdmission (fullCollectionName rq) (query rq) = true ->
  is_panic (fst (run (handleQueryRequest lib env p h))) = false ->
  exists full db coll : string,
    Namespace rq full db coll
    /\ (serverWrites (snd (run (handleQueryRequest lib env p h))) <> []
        <-> fst (Count env db coll) = 0
            \/ exists (f : string) (index : Index) (k0 : string),
                 FirstIndexable lib (query rq) f
                 /\ index ∈ fst (Indexes env db coll)
                 /\ head (Key index) = Some k0
                 /\ EqualFold lib (Trim k0 "-") f = true).
Proof.
  intros Hr Hs Hnp.
  destruct (admission_outcome rq Hr Hs)
    as [Hp | [(full & coll & Hi & Hw) | (full & coll & q' & Hi & Hm & Hw)]].
  - rewrite Hp in Hnp. discriminate.
  - destruct Hi as (_ & db & Hns & Hc). exists full, db, coll. split; [exact Hns|].
    pose proof (checkForIndex_admits lib env db coll (query rq) false Hc) as Hiff.
    split.
    + intros H. contradiction.
    + intros H. apply Hiff in H. discriminate.
  - destruct Hi as (_ & db & Hns & Hc). exists full, db, coll. split; [exact Hns|].
    pose proof (checkForIndex_admits lib env db coll (query rq) true Hc) as Hiff.
    split.
    + intros _. apply Hiff. reflexivity.
    + intros _. exact Hw.
Qed.

(** C9: the clamp is total exactly as far as the [maxTimeMS] elements
    are [float64].  When every top-level element of the query that
    matches [maxTimeMS] holds a [float64], [mutateQuery] returns.  Some
    wrapped query whose [maxTimeMS] holds an [int] makes the type
    assertion panic; and whenever an admitted query is already wrapped
    and its first element matching [maxTimeMS] holds a value of another
    type, that panic takes the connection handler down, before anything
    is sent. *)
Theorem clamp_total_only_on_float (q : D) (addr id : string) :
  (Forall (fun e => foldsTo lib "maxTimeMS" e = true -> isFloat (Val e) = true) q ->
   exists q' : D, mutateQuery lib p q addr id = Ok q')
  /\ (exists (q0 : D) (n : Z),
        alreadyWrapped q0 = true
        /\ q0 !! 1%nat = Some ("maxTimeMS", VInt n)
        /\ mutateQuery lib p q0 addr id
           = Panic "interface conversion: interface {} is not float64")
  /\ (forall (rq : Request) (full coll : string) (j : nat) (n : string) (v : Value),
        Reads lib env rq ->
        Inspected lib env rq full coll true ->
        alreadyWrapped (query rq) = true ->
        keyIndex lib (query rq) "maxTimeMS" = Z.of_nat j ->
        query rq !! j = Some (n, v) ->
        isFloat v = false ->
        run (handleQueryRequest lib env p h)
        = (Panic "interface conversion: interface {} is not float64", [])).
Proof.
  split; [|split].
  - apply (mutateQuery_total_iff_float lib p q addr id).
  - exists [("$query", VDoc [("email", VString "x")]); ("maxTimeMS", VInt 5000)], 5000.
    repeat split.
  - intros rq full coll j n v Hr Hi Hw Hj He Hv.
    pose proof (proj2 (mutateQuery_total_iff_float lib p (query rq) (remoteAddrOf env) (uuidNew env))
                  j n v Hw Hj He Hv) as Hm.
    rewrite handleQuery_after. unfold run.
    rewrite (forwardQuery_crash lib env p h rq full coll _ _ [] Hr Hi Hm). reflexivity.
Qed.

End Admission.

(** ** Control-channel failures during admission *)

Section ControlChannel.

Context (lib : Library) (env : Env).

Lemma Count_failed (db coll : string) (err : error) :
  ctlCount env db coll = inl err -> Count env db coll = (0, Some err).
Proof. unfold Count. intros ->. reflexivity. Qed.

Lemma Indexes_failed (db coll : string) (err : error) :
  ctlIndexes env db coll = inl err -> Indexes env db coll = ([], Some err).
Proof. unfold Indexes. intros ->. reflexivity. Qed.

(** Failures of the control channel during admission: a failing count
    reads as 0 and admits the query; a failing index listing on a
    non-empty collection reads as the empty list, so that no query is
    admitted, and every query whose first indexable field the inspector
    can compute is rejected; the inspector panics on such a collection
    exactly when [firstIndexableField] does. *)
Lemma controlChannel_failures (db coll : string) (q : D) (err : error) :
  (ctlCount env db coll = inl err ->
   Count env db coll = (0, Some err) /\ checkForIndex lib env db coll q = Ok true)
  /\ (fst (Count env db coll) <> 0 -> ctlIndexes env db coll = inl err ->
      Indexes env db coll = ([], Some err)
      /\ checkForIndex lib env db coll q <> Ok true
      /\ (forall f : string, firstIndexableField lib q = Ok f ->
          checkForIndex lib env db coll q = Ok false)
      /\ (forall msg : string, firstIndexableField lib q = Panic msg ->
          checkForIndex lib env db coll q = Panic msg)).
Proof.
  split.
  - intros Hc. split; [apply Count_failed, Hc|].
    apply checkForIndex_empty. rewrite (Count_failed db coll err Hc). reflexivity.
  - intros Hn Hi. rewrite (checkForIndex_nonempty lib env db coll q Hn).
    rewrite (Indexes_failed db coll err Hi). cbn [fst].
    split; [reflexivity|].
    destruct (firstIndexableField lib q) as [f|msg]; cbn [indexLoop].
    + split; [discriminate|]. split; [reflexivity | discriminate].
    + split; [discriminate|]. split; [discriminate|]. intros m [= ->]. reflexivity.
Qed.

End ControlChannel.

(** ** The filter of the reactor *)

Lemma Value_doc_ind (P : Value -> Prop) :
  (forall d : D, Forall (fun e => P (snd e)) d -> P (VDoc d)) ->
  (forall v : Value, (forall d : D, v <> VDoc d) -> P v) ->
  forall v : Value, P v.
Proof.
  intros Hdoc Hother. fix IH 1.
  intros [ | |d| | | | | | | ]; try (apply Hother; intros ?; discriminate).
  apply Hdoc. revert d. fix IHd 1. intros [|e d]; constructor; [apply IH | apply IHd].
Qed.

Lemma flattenQuery_leaf (v : Value) (name : list string) (f : gmap string Value) :
  (forall d : D, v <> VDoc d) -> flattenQuery v name f = <[Join name := v]> f.
Proof. destruct v; try reflexivity. intros H. exfalso. eapply H. reflexivity. Qed.

Lemma flattenQuery_nil (name : list string) (f : gmap string Value) :
  flattenQuery (VDoc []) name f = f.
Proof. reflexivity. Qed.

Lemma flattenQuery_cons (e : DocElem) (d : D) (name : list string) (f : gmap string Value) :
  flattenQuery (VDoc (e :: d)) name f
  = flattenQuery (VDoc d) name (flattenQuery (snd e) (name ++ [fst e]) f).
Proof. reflexivity. Qed.

Lemma flattenQuery_app (a b : D) (name : list string) : forall f : gmap string Value,
  flattenQuery (VDoc (a ++ b)) name f
  = flattenQuery (VDoc b) name (flattenQuery (VDoc a) name f).
Proof.
  induction a as [|e a IH]; intros f; [reflexivity|].
  rewrite <- app_comm_cons, !flattenQuery_cons. apply IH.
Qed.

(** Flattening only writes keys that are paths below [name]. *)
Lemma flattenQuery_frame (k : string) (v : Value) :
  forall (name : list string) (f : gmap string Value),
    (forall path : list string, Join (name ++ path) <> k) ->
    flattenQuery v name f !! k = f !! k.
Proof.
  induction v as [d IH | v Hv] using Value_doc_ind; intros name f Hk.
  - revert f. induction IH as [|e d He _ IHd]; intros f; [reflexivity|].
    rewrite flattenQuery_cons, IHd. apply He.
    intros path. rewrite <- app_assoc. apply Hk.
  - rewrite (flattenQuery_leaf v name f Hv). apply lookup_insert_ne.
    specialize (Hk []). rewrite app_nil_r in Hk. exact Hk.
Qed.

Lemma flattenQuery_queryGuard (addr id : string) (f : gmap string Value) :
  flattenQuery (VDoc [queryGuard addr id]) ["query"] f
  = <["query.$queryGuard.track" := VString id]>
      (<["query.$queryGuard.remoteaddr" := VString addr]> f).
Proof. reflexivity. Qed.

Lemma below_query_not_secs_running (path : list string) :
  Join (["query"] ++ path) <> "secs_running".
Proof. destruct path; discriminate. Qed.

Section Reactor.

Context (lib : Library) (env : Env) (p : Proxy) (h : messageHeader).

(** When [forwardQuery] has sent the query, nothing was written to the
    client and the header still carries the request's id. *)
Lemma forwardQuery_sent (addr : string) (h' : messageHeader) (full : string) (q' : D)
    (tr0 : Trace) :
  run (forwardQuery lib env p h addr) = (Ok (Sent h' full q'), tr0) ->
  filter isClientWrite tr0 = [] /\ RequestID h' = RequestID h.
Proof.
  unfold run, forwardQuery, mbind, M_bind, mret, M_ret, lift.
  destruct (readFlags env) as [?|fl]; [discriminate|].
  destruct (readCString env) as [?|ns]; [discriminate|].
  destruct (dropLast ns) as [fullns|?]; [|discriminate].
  destruct (readTwoInt32 env) as [?|two]; [discriminate|].
  destruct (readDocument env) as [?|doc]; [discriminate|].
  destruct (bsonUnmarshal lib doc) as [?|q]; [discriminate|].
  assert (Ht : forall hh parts,
             transmit env hh fullns q' parts [] = (Ok (Sent h' full q'), tr0) ->
             filter isClientWrite tr0 = [] /\ h' = hh).
  { intros hh parts Hrun.
    destruct (transmit_run env hh fullns q' parts []) as (r & t & Heq & Hsent & Hcw & Hcopy).
    rewrite Heq in Hrun. injection Hrun as -> <-.
    destruct (Hsent _ _ _ eq_refl) as (-> & _ & _). split; [|reflexivity].
    cbn [app]. rewrite filter_app, Hcw, app_nil_r.
    apply serverWriteEvents_only. reflexivity. }
  destruct (subjectToAdmission ns q).
  - destruct (splitDatabaseCollection fullns) as [[db coll]|?]; [|discriminate].
    destruct (checkForIndex lib env db coll q) as [[|]|?]; [| |discriminate].
    + cbn [negb]. destruct (mutateQuery lib p q addr (uuidNew env)) as [q1|?]; [|discriminate].
      intros Hrun.
      assert (Hq : q1 = q').
      { destruct (transmit_run env (patchLength h doc (bsonMarshal lib q1)) fullns q1
                    (<[0%nat:=ToWire (patchLength h doc (bsonMarshal lib q1))]>
                       ((([ToWire h] ++ [fl]) ++ [bytes_of_string ns]) ++ [two])
                     ++ [bsonMarshal lib q1]) [])
          as (r & t & Heq & Hsent & _).
        rewrite Heq in Hrun. injection Hrun as -> _.
        destruct (Hsent _ _ _ eq_refl) as (_ & _ & ->). reflexivity. }
      subst q1. destruct (Ht _ _ Hrun) as [Hcw ->]. split; [exact Hcw | reflexivity].
    + cbn [negb].
      destruct (sendErrorToClient lib env h (rejection coll) 17357 []) as [[r|?] t];
        discriminate.
  - intros Hrun.
    assert (Hq : q = q').
    { destruct (transmit_run env h fullns q
                  (((([ToWire h] ++ [fl]) ++ [bytes_of_string ns]) ++ [two]) ++ [doc]) [])
        as (r & t & Heq & Hsent & _).
      rewrite Heq in Hrun. injection Hrun as -> _.
      destruct (Hsent _ _ _ eq_refl) as (_ & _ & ->). reflexivity. }
    subst q. destruct (Ht _ _ Hrun) as [Hcw ->]. split; [exact Hcw | reflexivity].
Qed.

Lemma errorReply_request_id (h1 h2 : messageHeader) (err : error) (code : Z) :
  RequestID h1 = RequestID h2 -> errorReply lib h1 err code = errorReply lib h2 err code.
Proof. unfold errorReply, errorHeader. intros ->. reflexivity. Qed.

Lemma below_query_not (k : string) (path : list string) :
  String.prefix "query" k = false -> Join (["query"] ++ path) <> k.
Proof.
  intros Hk Heq. subst k. destruct path as [|x path]; [discriminate|].
  cbn [app Join] in Hk. destruct path; discriminate.
Qed.

(** C6 (amended): after a forwarded query whose response copy fails with
    [err], the proxy looks the operation up on the control channel.
    When that lookup succeeds it kills what was found, refreshes the
    deadline of the client (a [net.Conn]) and then writes one synthetic
    error reply to the client: code 50 and a message naming the message
    timeout when [err] is a network timeout, code 14044 and a message
    carrying the text of [err] otherwise.  When the lookup fails nothing
    is written to the client.  Either way the handler returns [err]. *)
Theorem response_failure_reply (addr : string) (h' : messageHeader) (full : string) (q' : D)
    (tr0 : Trace) (err : error) :
  clientConn env = Some addr ->
  run (forwardQuery lib env p h (remoteAddrOf env)) = (Ok (Sent h' full q'), tr0) ->
  copyMessageErr env = Some err ->
  let f := inprogFilter env full "" q' in
  let reply :=
    [ToWire {| MessageLength :=
                 int32 (headerLen + 20
                        + Z.of_nat (length (bsonMarshal lib (errorDocument (failureError lib p err)
                                                                (failureCode err)))));
               RequestID := RequestID h;
               ResponseTo := RequestID h;
               OpCode := OpReply |};
     errorBytes;
     bsonMarshal lib
       [("$err", VString (if isNetTimeout err
                          then "Your query exceeded the time limit of "
                               ++ durationString lib (messageTimeout p)
                               ++ " and has been killed"
                          else "Error: " ++ Error err ++ ". Your query has been killed"));
        ("code", VInt (if isNetTimeout err then 50 else 14044))]] in
  clientWrites tr0 = []
  /\ match ctlInprog env f with
     | inr ops =>
         run (handleQueryRequest lib env p h) =
         (Ok (Some err),
          tr0 ++ [CopyMessage (Some err); InprogFind f] ++ (KillOp <$> ops)
              ++ [ClientSetDeadline (messageTimeout p)]
              ++ clientWriteEvents env 0 reply)
         /\ (clientWrites (snd (run (handleQueryRequest lib env p h))) `prefix_of` reply)
         /\ ((forall i : nat, clientWriteErr env i = None) ->
             clientWrites (snd (run (handleQueryRequest lib env p h))) = reply)
     | inl _ =>
         run (handleQueryRequest lib env p h) =
         (Ok (Some err), tr0 ++ [CopyMessage (Some err); InprogFind f])
         /\ clientWrites (snd (run (handleQueryRequest lib env p h))) = []
     end.
Proof.
  intros Hconn Hsent Hcopy f reply.
  destruct (forwardQuery_sent (remoteAddrOf env) h' full q' tr0 Hsent) as [Hcw Hid].
  assert (Hw0 : clientWrites tr0 = []).
  { clear -Hcw. induction tr0 as [|e t IH]; [reflexivity|].
    rewrite filter_cons in Hcw. destruct e; cbn in Hcw; try discriminate; apply IH, Hcw. }
  split; [exact Hw0|].
  assert (Hreply : errorReply lib h' (failureError lib p err) (failureCode err) = reply).
  { rewrite (errorReply_request_id h' h _ _ Hid). unfold reply, errorReply, errorHeader, errorDocument,
      failureError, failureCode. destruct (isNetTimeout err); reflexivity. }
  rewrite handleQuery_after, Hsent, Hcopy, reactor_run. fold f.
  rewrite count_snoc, Hcw. cbn [isClientWrite length Nat.add].
  unfold deadlineRefresh. rewrite Hconn, Hreply.
  destruct (ctlInprog env f) as [e|ops].
  - split; [rewrite <- app_assoc; reflexivity|].
    cbn [snd]. rewrite !clientWrites_app, Hw0. reflexivity.
  - split; [rewrite <- !app_assoc; reflexivity|].
    cbn [snd]. rewrite !clientWrites_app, Hw0. cbn [app clientWrites].
    assert (Hk : clientWrites (KillOp <$> ops) = []) by (clear; induction ops; [reflexivity | assumption]).
    rewrite clientWrites_app, Hk. cbn [app clientWrites].
    split; [apply clientWriteEvents_prefix|].
    intros Hok. apply (clientWriteEvents_all env reply 0 Hok).
Qed.

(** C1, as the code has it: for an admitted, forwarded query whose
    response copy fails, the filter of the in-progress find is the
    brute-force one.  The function-scope [queryID] is still empty (the
    id was bound to a second variable inside the admission block), so
    the filter carries [secs_running] and every flattened leaf of the
    mutated query; the tracking id is in it, under
    [query.$queryGuard.track], only as one of those leaves. *)
Theorem tagged_query_filter (rq : Request) (full coll : string) (h' : messageHeader)
    (full' : string) (q' : D) (tr0 : Trace) (err : error) :
  Reads lib env rq ->
  Inspected lib env rq full coll true ->
  run (forwardQuery lib env p h (remoteAddrOf env)) = (Ok (Sent h' full' q'), tr0) ->
  copyMessageErr env = Some err ->
  let f := inprogFilter env full "" q' in
  mutateQuery lib p (query rq) (remoteAddrOf env) (uuidNew env) = Ok q'
  /\ (InprogFind f ∈ snd (run (handleQueryRequest lib env p h)))
  /\ (forall f' : gmap string Value,
        InprogFind f' ∈ snd (run (handleQueryRequest lib env p h)) -> f' = f)
  /\ f !! "op" = Some (VString "query")
  /\ f !! "ns" = Some (VString full)
  /\ f !! "query.$queryGuard.track" = Some (VString (uuidNew env))
  /\ f !! "query.$queryGuard.remoteaddr" = Some (VString (remoteAddrOf env))
  /\ f !! "secs_running"
     = Some (VMap [("$gte", VFloat (SFsub 53 1024 (Floor (Seconds (elapsed env)))
                                      (float64_of_int 1)))])
  /\ f <> <["query.$queryGuard.track" := VString (uuidNew env)]>
            (<["ns" := VString full]> (<["op" := VString "query"]> ∅)).
Proof.
  intros Hr Hi Hsent Hcopy f.
  assert (Hm : mutateQuery lib p (query rq) (remoteAddrOf env) (uuidNew env) = Ok q'
               /\ full' = full).
  { destruct (mutateQuery lib p (query rq) (remoteAddrOf env) (uuidNew env)) as [q1|msg] eqn:Hm.
    - unfold run in Hsent.
      rewrite (forwardQuery_admitted lib env p h rq full coll _ q1 [] Hr Hi Hm) in Hsent.
      destruct (transmit_run env (admittedHeader lib h rq q1) full q1 (admittedParts lib h rq q1) [])
        as (r & t & Heq & Hs & _).
      rewrite Heq in Hsent. injection Hsent as -> _.
      destruct (Hs _ _ _ eq_refl) as (_ & -> & ->). split; reflexivity.
    - unfold run in Hsent.
      rewrite (forwardQuery_crash lib env p h rq full coll _ msg [] Hr Hi Hm) in Hsent.
      discriminate. }
  destruct Hm as [Hm ->].
  destruct (forwardQuery_sent (remoteAddrOf env) h' full q' tr0 Hsent) as [Hcw Hid].
  assert (Htr : snd (run (handleQueryRequest lib env p h))
                = tr0 ++ CopyMessage (Some err) :: InprogFind f
                      :: match ctlInprog env f with
                         | inl _ => []
                         | inr ops =>
                             (KillOp <$> ops) ++ deadlineRefresh env p
                             ++ clientWriteEvents env 0
                                  (errorReply lib h' (failureError lib p err) (failureCode err))
                         end).
  { rewrite handleQuery_after, Hsent, Hcopy, reactor_run. fold f.
    rewrite count_snoc, Hcw. cbn [snd isClientWrite length Nat.add].
    rewrite <- app_assoc. reflexivity. }
  destruct (mutateQuery_tag_last lib p (query rq) _ _ q' Hm) as [front Hq'].
  assert (Hf : f = <["query.$queryGuard.track" := VString (uuidNew env)]>
                     (<["query.$queryGuard.remoteaddr" := VString (remoteAddrOf env)]>
                        (flattenQuery (VDoc front) ["query"]
                           (<["secs_running" :=
                                VMap [("$gte", VFloat (SFsub 53 1024 (Floor (Seconds (elapsed env)))
                                                         (float64_of_int 1)))]]>
                              (<["ns" := VString full]> (<["op" := VString "query"]> (∅ : gmap string Value))))))).
  { unfold f, inprogFilter. cbn [String.eqb]. rewrite Hq', flattenQuery_app.
    apply (flattenQuery_queryGuard (remoteAddrOf env) (uuidNew env)). }
  assert (Hframe : forall k : string,
             String.prefix "query" k = false ->
             f !! k = (<["secs_running" :=
                           VMap [("$gte", VFloat (SFsub 53 1024 (Floor (Seconds (elapsed env)))
                                                    (float64_of_int 1)))]]>
                         (<["ns" := VString full]> (<["op" := VString "query"]> (∅ : gmap string Value)))) !! k).
  { intros k Hk. unfold f, inprogFilter. cbn [String.eqb].
    apply flattenQuery_frame. intros path. apply below_query_not, Hk. }
  split; [exact Hm|]. split; [|split; [|split; [|split; [|split; [|split; [|split]]]]]].
  - rewrite Htr. apply elem_of_app. right. right. left.
  - intros f' Hin. rewrite Htr in Hin.
    apply elem_of_app in Hin as [Hin|Hin].
    + exfalso. unfold run in Hsent.
      rewrite (forwardQuery_admitted lib env p h rq full coll _ q' [] Hr Hi Hm) in Hsent.
      destruct (transmit_run env (admittedHeader lib h rq q') full q' (admittedParts lib h rq q') [])
        as (r & t & Heq & _ & _ & Hcopyn).
      rewrite Heq in Hsent. apply (f_equal snd) in Hsent. cbn [snd] in Hsent.
      rewrite <- Hsent, app_nil_l in Hin.
      apply elem_of_app in Hin as [Hin|Hin].
      * destruct (serverWriteEvents_elem env _ _ _ Hin) as (b0 & r0 & Hev). discriminate.
      * destruct (Hcopyn _ Hin) as (n & r0 & Hev). discriminate.
    + apply elem_of_cons in Hin as [Hin|Hin]; [discriminate|].
      apply elem_of_cons in Hin as [Hin|Hin]; [injection Hin as ->; reflexivity|].
      exfalso. destruct (ctlInprog env f) as [e|ops]; [inversion Hin|].
      apply elem_of_app in Hin as [Hin|Hin].
      * apply list_elem_of_fmap in Hin as (o & Ho & _). discriminate.
      * apply elem_of_app in Hin as [Hin|Hin].
        -- unfold deadlineRefresh in Hin. destruct (clientConn env); [|inversion Hin].
           apply list_elem_of_singleton in Hin. discriminate.
        -- destruct (clientWriteEvents_elem env _ 0 _ Hin) as (b & r & Heq). discriminate.
  - rewrite (Hframe "op" eq_refl). reflexivity.
  - rewrite (Hframe "ns" eq_refl). reflexivity.
  - rewrite Hf. apply lookup_insert_eq.
  - rewrite Hf, lookup_insert_ne by discriminate. apply lookup_insert_eq.
  - rewrite (Hframe "secs_running" eq_refl). reflexivity.
  - intros Heq. apply (f_equal (fun m : gmap string Value => m !! "secs_running")) in Heq.
    rewrite (Hframe "secs_running" eq_refl) in Heq. discriminate.
Qed.

End Reactor.

(** ** The synthetic error reply *)

(** C2, as the code has it: [sendErrorToClient] writes one message, part
    by part up to a failing write: a [Reply] header whose [responseTo]
    is the request's id, the 20 bytes of [errorBytes], and the one
    document [{ $err: <message>, code: <int> }].  Read as little-endian
    integers the prelude has [cursorID = 0] and [startingFrom = 0], but
    [responseFlags = 16777216] and [numberReturned = 16777216]: the two
    1s of [errorBytes] sit in the most significant byte, so the prelude
    is not the encoding of (0, 0, 0, 1). *)
Theorem synthetic_reply_prelude (lib : Library) (env : Env) (h : messageHeader)
    (err : error) (code : Z) :
  let errorDoc := bsonMarshal lib [("$err", VString (Error err)); ("code", VInt code)] in
  let header :=
    {| MessageLength := int32 (headerLen + 20 + Z.of_nat (length errorDoc));
       RequestID := RequestID h;
       ResponseTo := RequestID h;
       OpCode := OpReply |} in
  let tr := snd (run (sendErrorToClient lib env h err code)) in
  tr = clientWriteEvents env 0 [ToWire header; errorBytes; errorDoc]
  /\ (clientWrites tr `prefix_of` [ToWire header; errorBytes; errorDoc])
  /\ ((forall i : nat, clientWriteErr env i = None) ->
      clientWrites tr = [ToWire header; errorBytes; errorDoc])
  /\ length errorBytes = 20%nat
  /\ cursorIDOf errorBytes = 0
  /\ startingFromOf errorBytes = 0
  /\ responseFlagsOf errorBytes = 16777216
  /\ numberReturnedOf errorBytes = 16777216
  /\ errorBytes <> replyPrelude 0 0 0 1
  /\ responseFlagsOf (replyPrelude 0 0 0 1) = 0
  /\ numberReturnedOf (replyPrelude 0 0 0 1) = 1.
Proof.
  intros errorDoc header tr.
  assert (Htr : tr = clientWriteEvents env 0 [ToWire header; errorBytes; errorDoc]).
  { unfold tr, run. rewrite sendErrorToClient_run. reflexivity. }
  split; [exact Htr|]. rewrite Htr.
  split; [apply clientWriteEvents_prefix|].
  split; [intros Hok; apply (clientWriteEvents_all env _ 0 Hok)|].
  repeat split; try reflexivity. discriminate.
Qed.

(** * Beyond admission: the rest of the proxy *)

(** ** Looking up keys, splitting namespaces *)

Section Keys.

Context (lib : Library).

(** X1: [hasKey] holds exactly when some element's name, without its
    leading [$]s, folds to the key.  Then [keyIndex] is the position of
    the first such element and [getKey] returns that element's value;
    when no element matches, [keyIndex] is [-1] and [getKey] returns
    [nil]. *)
Theorem getKey_first_match (d : D) (k : string) :
  (hasKey lib d k = true <-> exists e : DocElem, e ∈ d /\ foldsTo lib k e = true)
  /\ (hasKey lib d k = false -> keyIndex lib d k = -1 /\ getKey lib d k = None)
  /\ (hasKey lib d k = true ->
      exists (j : nat) (e : DocElem),
        keyIndex lib d k = Z.of_nat j
        /\ d !! j = Some e
        /\ foldsTo lib k e = true
        /\ (forall (i : nat) (e' : DocElem),
              (i < j)%nat -> d !! i = Some e' -> foldsTo lib k e' = false)
        /\ getKey lib d k = Some (Val e)).
Proof.
  unfold hasKey, getKey.
  destruct (keyIndex_cases lib d k) as [[Hn Hall] | (j & e & Hj & He & Hf & Hall)].
  - rewrite Hn. split; [|split].
    + split; [discriminate|]. intros (e & Hin & Hf).
      rewrite Forall_forall in Hall. rewrite (Hall e Hin) in Hf. discriminate.
    + intros _. split; reflexivity.
    + discriminate.
  - rewrite Hj. replace (0 <=? Z.of_nat j) with true by (symmetry; apply Z.leb_le; lia).
    split; [|split].
    + split; [|reflexivity]. intros _. exists e. split; [|exact Hf].
      eapply list_elem_of_lookup_2. exact He.
    + discriminate.
    + intros _. exists j, e. repeat split; try assumption.
      * intros i e' Hi He'. rewrite Forall_forall in Hall. apply Hall.
        eapply list_elem_of_lookup_2. rewrite lookup_take_lt by exact Hi. exact He'.
      * rewrite Nat2Z.id, He. reflexivity.
Qed.

End Keys.

Lemma append_nil_dot (a b : string) : "" <> (a ++ "." ++ b)%string.
Proof. destruct a; discriminate. Qed.

Lemma undotted_nil : undotted "".
Proof. intros a b. apply append_nil_dot. Qed.

Lemma cutAtDot_Some (s : string) : forall a b : string,
  cutAtDot s = Some (a, b) <-> s = (a ++ "." ++ b)%string /\ undotted a.
Proof.
  induction s as [|c s IH]; intros a b.
  - simpl. split; [discriminate|]. intros [H _]. exfalso. exact (append_nil_dot a b H).
  - cbn [cutAtDot]. destruct (Ascii.eqb c ".") eqn:Hc.
    + apply Ascii.eqb_eq in Hc. subst c. split.
      * intros [= <- <-]. split; [reflexivity | apply undotted_nil].
      * intros [Heq Hun]. destruct a as [|x a].
        -- simpl in Heq. injection Heq as ->. reflexivity.
        -- simpl in Heq. injection Heq as <- _. exfalso. apply (Hun "" a). reflexivity.
    + apply Ascii.eqb_neq in Hc.
      destruct (cutAtDot s) as [[a' b']|] eqn:Hs.
      * destruct (proj1 (IH a' b') eq_refl) as [Heq Hun]. split.
        -- intros [= <- <-]. split; [simpl; rewrite Heq; reflexivity|].
           intros x y Hxy. destruct x as [|x0 x]; simpl in Hxy.
           ++ injection Hxy as Hc' _. contradiction.
           ++ injection Hxy as _ Hxy. exact (Hun x y Hxy).
        -- intros [Heq' Hun']. destruct a as [|x a]; simpl in Heq'.
           ++ injection Heq' as Hc' _. contradiction.
           ++ injection Heq' as <- Heq'.
              assert (Ha : undotted a).
              { intros u v Huv. apply (Hun' (String c u) v). simpl. rewrite Huv. reflexivity. }
              pose proof (proj2 (IH a b) (conj Heq' Ha)) as H. injection H as -> ->. reflexivity.
      * split; [discriminate|]. intros [Heq' Hun']. destruct a as [|x a]; simpl in Heq'.
        -- injection Heq' as Hc' _. contradiction.
        -- injection Heq' as <- Heq'.
           assert (Ha : undotted a).
           { intros u v Huv. apply (Hun' (String c u) v). simpl. rewrite Huv. reflexivity. }
           pose proof (proj2 (IH a b) (conj Heq' Ha)) as H. discriminate.
Qed.

Lemma cutAtDot_None (s : string) : cutAtDot s = None <-> undotted s.
Proof.
  induction s as [|c s IH].
  - split; [intros _; apply undotted_nil | reflexivity].
  - cbn [cutAtDot]. destruct (Ascii.eqb c ".") eqn:Hc.
    + apply Ascii.eqb_eq in Hc. subst c. split; [discriminate|].
      intros H. exfalso. apply (H "" s). reflexivity.
    + apply Ascii.eqb_neq in Hc. destruct (cutAtDot s) as [[a b]|] eqn:Hs.
      * split; [discriminate|]. intros H. exfalso.
        destruct (proj1 (cutAtDot_Some s a b) Hs) as [Heq _].
        apply (H (String c a) b). simpl. rewrite Heq. reflexivity.
      * split; [|reflexivity]. intros _ x y Hxy.
        destruct x as [|x0 x]; simpl in Hxy.
        -- injection Hxy as Hc' _. contradiction.
        -- injection Hxy as _ Hxy. exact (proj1 IH eq_refl x y Hxy).
Qed.

(** X2: [splitDatabaseCollection] cuts the name at its first dot: it
    returns [(db, coll)] exactly when the name is [db.coll] and [db] has
    no dot (the collection may have more), and it panics exactly on a
    name without a dot. *)
Theorem splitDatabaseCollection_first_dot (fullName : string) :
  (forall db coll : string,
     splitDatabaseCollection fullName = Ok (db, coll)
     <-> fullName = (db ++ "." ++ coll)%string /\ undotted db)
  /\ (is_panic (splitDatabaseCollection fullName) = true <-> undotted fullName).
Proof.
  unfold splitDatabaseCollection, SplitN2. split.
  - intros db coll. rewrite <- cutAtDot_Some.
    destruct (cutAtDot fullName) as [[a b]|]; [|split; discriminate].
    split; [intros [= <- <-]; reflexivity | intros [= <- <-]; reflexivity].
  - rewrite <- cutAtDot_None.
    destruct (cutAtDot fullName) as [[a b]|]; split; try discriminate; reflexivity.
Qed.

(** ** The leaves [flattenQuery] collects *)

Lemma Leaf_cons (e e' : DocElem) (d : D) (path : list string) (v : Value) :
  Leaf (VDoc d) path v -> Leaf (VDoc (e :: d)) path v.
Proof.
  intros H. inversion H as [v0 Hv | d0 e0 path0 v0 Hin Hl]; subst.
  - exfalso. eapply Hv. reflexivity.
  - apply Leaf_below; [right; exact Hin | exact Hl].
Qed.

Lemma flattenQuery_sound (v : Value) :
  forall (name : list string) (f : gmap string Value) (k : string) (x : Value),
    flattenQuery v name f !! k = Some x ->
    f !! k = Some x \/ exists path : list string, Leaf v path x /\ Join (name ++ path) = k.
Proof.
  induction v as [d IH | v Hv] using Value_doc_ind; intros name f k x.
  - revert f. induction IH as [|e d He _ IHd]; intros f Hx.
    + left. exact Hx.
    + rewrite flattenQuery_cons in Hx.
      destruct (IHd _ Hx) as [Hin | (path & Hl & Hk)].
      * destruct (He _ _ _ _ Hin) as [Hf | (path & Hl & Hk)]; [left; exact Hf|].
        right. exists (Name e :: path). split.
        -- apply Leaf_below; [left | exact Hl].
        -- rewrite <- Hk, <- app_assoc. reflexivity.
      * right. exists path. split; [apply (Leaf_cons e e), Hl | exact Hk].
  - rewrite (flattenQuery_leaf v name f Hv). intros Hx.
    destruct (decide (Join name = k)) as [Heq|Hne].
    + subst k. rewrite lookup_insert_eq in Hx. injection Hx as <-.
      right. exists []. rewrite app_nil_r. split; [apply Leaf_here, Hv | reflexivity].
    + rewrite lookup_insert_ne in Hx by exact Hne. left. exact Hx.
Qed.

Lemma flattenQuery_keeps (v : Value) :
  forall (name : list string) (f : gmap string Value) (k : string),
    is_Some (f !! k) -> is_Some (flattenQuery v name f !! k).
Proof.
  induction v as [d IH | v Hv] using Value_doc_ind; intros name f k.
  - revert f. induction IH as [|e d He _ IHd]; intros f Hk; [exact Hk|].
    rewrite flattenQuery_cons. apply IHd, He, Hk.
  - rewrite (flattenQuery_leaf v name f Hv). intros Hk.
    destruct (decide (Join name = k)) as [Heq|Hne].
    + subst k. rewrite lookup_insert_eq. eauto.
    + rewrite lookup_insert_ne by exact Hne. exact Hk.
Qed.

Lemma flattenQuery_complete (v : Value) (path : list string) (x : Value) :
  Leaf v path x ->
  forall (name : list string) (f : gmap string Value),
    is_Some (flattenQuery v name f !! Join (name ++ path)).
Proof.
  induction 1 as [v Hv | d e path x Hin Hl IH]; intros name f.
  - rewrite (flattenQuery_leaf v name f Hv), app_nil_r, lookup_insert_eq. eauto.
  - revert f. induction d as [|e' d IHd]; intros f; [inversion Hin|].
    rewrite flattenQuery_cons.
    apply elem_of_cons in Hin as [<- | Hin].
    + apply flattenQuery_keeps.
      replace (name ++ Name e :: path) with ((name ++ [Name e]) ++ path)
        by (rewrite <- app_assoc; reflexivity).
      apply IH.
    + apply IHd, Hin.
Qed.

(** X3: what [flattenQuery] leaves in [result]: every entry is an entry
    that was there or a leaf of the document under the dotted path of
    the names leading to it, below [name]; every key that was there is
    still there, and every leaf's path is a key. *)
Theorem flattenQuery_leaves (d : Value) (name : list string) (result : gmap string Value)
    (k : string) :
  (forall v : Value,
     flattenQuery d name result !! k = Some v ->
     result !! k = Some v
     \/ exists path : list string, Leaf d path v /\ Join (name ++ path) = k)
  /\ (is_Some (flattenQuery d name result !! k)
      <-> is_Some (result !! k)
          \/ exists (path : list string) (v : Value), Leaf d path v /\ Join (name ++ path) = k).
Proof.
  split; [intros v; apply flattenQuery_sound|]. split.
  - intros [v Hv]. destruct (flattenQuery_sound d name result k v Hv) as [H | (path & Hl & Hk)].
    + left. eauto.
    + right. eauto.
  - intros [H | (path & v & Hl & <-)].
    + apply flattenQuery_keeps, H.
    + eapply flattenQuery_complete. exact Hl.
Qed.

(** ** Where the inspector panics; sort specifications *)

Section InspectorPanics.

Context (lib : Library).

(** X4: [firstIndexableField] panics on exactly two kinds of query: the
    empty document, and a document of more than one element whose first
    key, without leading [$]s, is [query], whose first value is not a
    non-empty document, and whose [orderby] is an empty document. *)
Theorem firstIndexableField_panics (q : D) :
  is_panic (firstIndexableField lib q) = true
  <-> q = []
      \/ exists (e0 e1 : DocElem) (rest : D),
           q = e0 :: e1 :: rest
           /\ TrimLeft (Name e0) "$" = "query"
           /\ noInnerDocument (Val e0)
           /\ getKey lib q "orderby" = Some (VDoc []).
Proof.
  destruct q as [|e0 [|e1 rest]].
  - split; [intros _; left; reflexivity | reflexivity].
  - rewrite firstIndexableField_single. split; [discriminate|].
    intros [H | (a & b & r & H & _)]; discriminate.
  - rewrite firstIndexableField_long. split.
    + intros Hp. right. exists e0, e1, rest.
      destruct (String.eqb (TrimLeft (Name e0) "$") "query") eqn:Hq; [|discriminate].
      apply String.eqb_eq in Hq.
      destruct (Val e0) as [ | |[|v0 vrest]| | | | | | | ] eqn:Hv; try discriminate;
        (destruct (getKey lib (e0 :: e1 :: rest) "orderby")
           as [[ | |[|t0 trest]| | | | | | | ]|] eqn:Ho; try discriminate);
        (repeat split; [exact Hq | intros ? ? ?; discriminate]).
    + intros [H | (a & b & r & Heq & Hq & Hno & Ho)]; [discriminate|].
      injection Heq as <- <- <-. rewrite Hq, Ho. cbn [String.eqb].
      replace (String.eqb "query" "query") with true by reflexivity.
      destruct (Val e0) as [ | |[|v0 vrest]| | | | | | | ]; try reflexivity.
      exfalso. eapply Hno. reflexivity.
Qed.

End InspectorPanics.

Lemma orderbytosortFrom_floats (d : D) : forall res : list string,
  Forall (fun e => isFloat (Val e) = true) d ->
  orderbytosortFrom d res = Ok (JoinWith "," (res ++ (sortField <$> d))).
Proof.
  induction d as [|[n v] d IH]; intros res Hall.
  - simpl. rewrite app_nil_r. reflexivity.
  - apply Forall_cons in Hall as [Hv Hall]. cbn [Val snd] in Hv.
    destruct v as [f| | | | | | | | | ]; try discriminate.
    cbn [orderbytosortFrom Val snd Name fst fmap list_fmap]. unfold sortField at 1.
    cbn [Val snd Name fst].
    destruct (float64_gt f (float64_of_int 0));
      rewrite (IH _ Hall), <- app_assoc; reflexivity.
Qed.

Lemma orderbytosortFrom_panics (d : D) : forall res : list string,
  is_panic (orderbytosortFrom d res) = true
  <-> exists e : DocElem, e ∈ d /\ isFloat (Val e) = false.
Proof.
  induction d as [|[n v] d IH]; intros res.
  - split; [discriminate|]. intros (e & Hin & _). inversion Hin.
  - cbn [orderbytosortFrom Val snd Name fst].
    destruct v as [f| | | | | | | | | ];
      try (split; [intros _; eexists; split; [left | reflexivity] | reflexivity]).
    assert (Hiff : (exists e : DocElem, e ∈ (n, VFloat f) :: d /\ isFloat (Val e) = false)
                   <-> exists e : DocElem, e ∈ d /\ isFloat (Val e) = false).
    { split; intros (e & Hin & He).
      - apply elem_of_cons in Hin as [-> | Hin]; [discriminate|]. eauto.
      - exists e. split; [right; exact Hin | exact He]. }
    rewrite Hiff. destruct (float64_gt f (float64_of_int 0)); apply IH.
Qed.

(** X5: [orderbytosort] panics exactly when some direction is not a
    [float64]; on a document of [float64] directions it returns the
    comma-separated fields in order, each name bare when its direction
    is above zero and behind a [-] otherwise. *)
Theorem orderbytosort_floats_only (d : D) :
  (is_panic (orderbytosort d) = true <-> exists e : DocElem, e ∈ d /\ isFloat (Val e) = false)
  /\ (Forall (fun e => isFloat (Val e) = true) d ->
      orderbytosort d = Ok (JoinWith "," (sortField <$> d))).
Proof.
  split; [apply orderbytosortFrom_panics|].
  intros Hall. unfold orderbytosort. rewrite (orderbytosortFrom_floats d [] Hall). reflexivity.
Qed.

(** ** Which queries are inspected *)

Lemma length_append (a b : string) :
  String.length (a ++ b) = (String.length a + String.length b)%nat.
Proof. induction a as [|c a IH]; simpl; [reflexivity | rewrite IH; reflexivity]. Qed.

Lemma append_cons (c : ascii) (a b : string) : (String c a ++ b = String c (a ++ b))%string.
Proof. reflexivity. Qed.

Lemma substring_whole (s : string) : substring 0 (String.length s) s = s.
Proof. induction s as [|c s IH]; simpl; [reflexivity | rewrite IH; reflexivity]. Qed.

Lemma substring_suffix (pre suf : string) :
  substring (String.length pre) (String.length suf) (pre ++ suf) = suf.
Proof. induction pre as [|c pre IH]; simpl; [apply substring_whole | exact IH]. Qed.

Lemma substring_split (s : string) : forall n m : nat,
  (n + m = String.length s)%nat -> s = (substring 0 n s ++ substring n m s)%string.
Proof.
  induction s as [|c s IH]; intros n m Hlen.
  - simpl in Hlen. assert (n = 0%nat) by lia. assert (m = 0%nat) by lia. subst. reflexivity.
  - destruct n as [|n].
    + simpl in Hlen. subst m. cbn [substring String.append]. rewrite substring_whole. reflexivity.
    + cbn [substring]. rewrite append_cons. f_equal. apply IH. simpl in Hlen. lia.
Qed.

(** [bytes.HasSuffix] holds of the strings that end in the suffix. *)
Lemma HasSuffix_iff (s suffix : string) :
  HasSuffix s suffix = true <-> exists pre : string, s = (pre ++ suffix)%string.
Proof.
  unfold HasSuffix. rewrite andb_true_iff, Nat.leb_le, String.eqb_eq. split.
  - intros [Hlen Hsub]. exists (substring 0 (String.length s - String.length suffix) s).
    rewrite <- Hsub at 2. apply substring_split. lia.
  - intros [pre ->]. rewrite length_append. split; [lia|].
    replace (String.length pre + String.length suffix - String.length suffix)%nat
      with (String.length pre) by lia.
    apply substring_suffix.
Qed.

Lemma prefix_iff (sub s : string) :
  String.prefix sub s = true <-> exists rest : string, s = (sub ++ rest)%string.
Proof.
  revert s. induction sub as [|c sub IH]; intros s.
  - split; [intros _; exists s; reflexivity | intros _; destruct s; reflexivity].
  - destruct s as [|x s]; simpl.
    + split; [discriminate | intros [rest H]; discriminate].
    + destruct (ascii_dec c x) as [->|Hne].
      * rewrite IH. split; intros [rest H]; exists rest; [rewrite H; reflexivity|].
        injection H as ->. reflexivity.
      * split; [discriminate|]. intros [rest H]. injection H as -> _. contradiction.
Qed.

(** [bytes.Contains] holds of the strings with the substring somewhere. *)
Lemma Contains_iff (s sub : string) :
  Contains s sub = true <-> exists a b : string, s = (a ++ sub ++ b)%string.
Proof.
  induction s as [|c s IH].
  - cbn [Contains]. rewrite orb_false_r, prefix_iff. split.
    + intros [rest H]. exists "", rest. exact H.
    + intros (a & b & H). destruct a; [exists b; exact H | discriminate].
  - cbn [Contains]. rewrite orb_true_iff, prefix_iff, IH. split.
    + intros [[rest H] | (a & b & H)].
      * exists "", rest. exact H.
      * exists (String c a), b. simpl. rewrite H. reflexivity.
    + intros (a & b & H). destruct a as [|x a].
      * left. exists b. exact H.
      * right. simpl in H. injection H as _ H. exists a, b. exact H.
Qed.

(** X6: the queries that skip admission (line 212) are exactly those
    whose namespace, terminator included, ends in [.$cmd] or [.indexes]
    or has [.system.] anywhere, and those whose query document is
    empty. *)
Theorem admission_bypassed_iff (fullCollectionName : string) (q : D) :
  subjectToAdmission fullCollectionName q = false
  <-> (exists pre : string, fullCollectionName = (pre ++ ".$cmd" ++ String "000" "")%string)
      \/ (exists pre : string, fullCollectionName = (pre ++ ".indexes" ++ String "000" "")%string)
      \/ (exists a b : string, fullCollectionName = (a ++ ".system." ++ b)%string)
      \/ q = [].
Proof.
  unfold subjectToAdmission.
  rewrite andb_false_iff, negb_false_iff, !orb_true_iff, !HasSuffix_iff, Contains_iff, Z.ltb_ge.
  unfold cmdCollectionSuffix, indexCollectionSuffix, systemCollection.
  split.
  - intros [[[H|H]|H]|H]; auto.
    right. right. right. destruct q; [reflexivity | simpl in H; lia].
  - intros [H|[H|[H|H]]]; auto. right. subst q. simpl. lia.
Qed.

(** ** Bytes on their way to the server *)

Lemma upstreamBytes_app (a b : Trace) : upstreamBytes (a ++ b) = upstreamBytes a + upstreamBytes b.
Proof.
  induction a as [|e a IH]; [reflexivity|].
  destruct e as [ |c [err|]|n [err|]| | | | | | | | | | ]; cbn [app upstreamBytes]; rewrite ?IH; lia.
Qed.

Lemma upstreamBytes_quiet (tr : Trace) :
  Forall (fun e => isUpstream e = false) tr -> upstreamBytes tr = 0 /\ serverWrites tr = [].
Proof.
  induction 1 as [|e tr He _ [IH1 IH2]]; [split; reflexivity|].
  destruct e; try discriminate; cbn [upstreamBytes serverWrites]; split; assumption.
Qed.

Lemma totalLength_cons (b : bytes) (parts : list bytes) :
  totalLength (b :: parts) = Z.of_nat (length b) + totalLength parts.
Proof. unfold totalLength. cbn [concat]. rewrite length_app. lia. Qed.

Section Relay.

Context (lib : Library) (env : Env).

Lemma serverWriteEvents_ok (parts : list bytes) : forall (k : nat) (w : Z),
  (forall i : nat, serverWriteErr env i = None) ->
  serverWriteEvents env k parts = (fun b => ServerWrite b None) <$> parts
  /\ serverWriteResult env k parts w = inr (w + totalLength parts).
Proof.
  induction parts as [|b rest IH]; intros k w Hok.
  - split; [reflexivity|]. cbn. f_equal. unfold totalLength. simpl. lia.
  - cbn [serverWriteEvents serverWriteResult fmap list_fmap]. rewrite Hok.
    destruct (IH (S k) (w + Z.of_nat (length b)) Hok) as [-> ->].
    split; [reflexivity|]. rewrite totalLength_cons. f_equal. lia.
Qed.

(** The server gets the parts in order, up to the first failed write. *)
Lemma serverWriteEvents_prefix (parts : list bytes) : forall k : nat,
  serverWrites (serverWriteEvents env k parts) `prefix_of` parts.
Proof.
  induction parts as [|b rest IH]; intros k; [reflexivity|].
  cbn [serverWriteEvents serverWrites]. destruct (serverWriteErr env k).
  - apply prefix_cons, prefix_nil.
  - apply prefix_cons, IH.
Qed.

Lemma copies_serverWrites (t : Trace) :
  (forall e, e ∈ t -> exists n r, e = CopyN n r) -> serverWrites t = [].
Proof.
  induction t as [|e t IH]; intros Ht; [reflexivity|].
  destruct (Ht e ltac:(left)) as (n & r & ->). cbn [serverWrites].
  apply IH. intros e' He'. apply Ht. right. exact He'.
Qed.

Lemma written_events (parts : list bytes) :
  serverWrites ((fun b => ServerWrite b None) <$> parts) = parts
  /\ upstreamBytes ((fun b => ServerWrite b None) <$> parts) = totalLength parts
  /\ clientWrites ((fun b => ServerWrite b None) <$> parts) = [].
Proof.
  induction parts as [|b rest (IH1 & IH2 & IH3)]; [repeat split|].
  cbn [fmap list_fmap serverWrites upstreamBytes clientWrites].
  rewrite IH1, IH2, IH3, totalLength_cons. repeat split.
Qed.

(** What [transmit] does when no write to the server fails. *)
Lemma transmit_ok (h' : messageHeader) (full : string) (q : D) (parts : list bytes) (tr : Trace) :
  (forall i : nat, serverWriteErr env i = None) ->
  let pending := int64 (int64 (MessageLength h') - int64 (totalLength parts)) in
  transmit env h' full q parts tr =
  (Ok (if pending <=? 0 then Sent h' full q
       else match copyNErr env with
            | Some err => Returned (Some err)
            | None => Sent h' full q
            end),
   tr ++ ((fun b => ServerWrite b None) <$> parts)
      ++ (if pending <=? 0 then [] else [CopyN pending (copyNErr env)])).
Proof.
  intros Hok pending. unfold transmit. step. rewrite serverWriteAll_run.
  destruct (serverWriteEvents_ok parts (length (filter isServerWrite tr)) 0 Hok) as [-> ->].
  cbv beta iota. rewrite Z.add_0_l. fold pending. unfold copyN.
  destruct (pending <=? 0).
  - step. rewrite app_nil_r. reflexivity.
  - step. rewrite <- app_assoc. destruct (copyNErr env); reflexivity.
Qed.

End Relay.

(** ** Fixed-width integers on the wire *)

Lemma wrap_id (w z : Z) : 0 < w -> - 2 ^ (w - 1) <= z < 2 ^ (w - 1) -> wrap w z = z.
Proof.
  intros Hw Hz. unfold wrap.
  assert (H2 : 2 ^ w = 2 * 2 ^ (w - 1)).
  { replace w with (Z.succ (w - 1)) at 1 by lia. apply Z.pow_succ_r. lia. }
  assert (Hp : 0 < 2 ^ (w - 1)) by (apply Z.pow_pos_nonneg; lia).
  destruct (Z_lt_dec z 0) as [Hneg|Hpos].
  - replace (z mod 2 ^ w) with (z + 2 ^ w).
    + replace (z + 2 ^ w <? 2 ^ (w - 1)) with false by (symmetry; apply Z.ltb_ge; lia). lia.
    + apply Z.mod_unique with (q := -1); lia.
  - rewrite Z.mod_small by lia.
    replace (z <? 2 ^ (w - 1)) with true by (symmetry; apply Z.ltb_lt; lia). reflexivity.
Qed.

Lemma int32_id (z : Z) : - 2 ^ 31 <= z < 2 ^ 31 -> int32 z = z.
Proof. intros H. apply wrap_id; [lia | exact H]. Qed.

Lemma int64_id (z : Z) : - 2 ^ 63 <= z < 2 ^ 63 -> int64 z = z.
Proof. intros H. apply wrap_id; [lia | exact H]. Qed.

Lemma length_le_bytes (n : nat) : forall z : Z, length (le_bytes n z) = n.
Proof. induction n as [|n IH]; intros z; simpl; [reflexivity | rewrite IH; reflexivity]. Qed.

Lemma length_ToWire (h : messageHeader) : length (ToWire h) = 16%nat.
Proof. unfold ToWire. rewrite !length_app, !length_le_bytes. reflexivity. Qed.

Lemma Z_of_byte_of_Z (z : Z) : Z_of_byte (byte_of_Z z) = z mod 256.
Proof.
  unfold Z_of_byte, byte_of_Z.
  assert (Hr : 0 <= z mod 256 < 256) by (apply Z.mod_pos_bound; lia).
  destruct (Byte.of_N (Z.to_N (z mod 256))) as [b|] eqn:Hb.
  - rewrite (Byte.to_of_N _ Hb). apply Z2N.id. lia.
  - exfalso. pose proof (Byte.to_of_N_option_map (Z.to_N (z mod 256))) as H.
    rewrite Hb in H. cbn [option_map] in H.
    destruct (Z.to_N (z mod 256) <=? 255)%N eqn:Hle; [discriminate|].
    apply N.leb_gt in Hle. lia.
Qed.

Lemma le_unsigned_le_bytes (n : nat) : forall z : Z,
  le_unsigned (le_bytes n z) = z mod 256 ^ Z.of_nat n.
Proof.
  induction n as [|n IH]; intros z.
  - simpl. rewrite Z.mod_1_r. reflexivity.
  - cbn [le_bytes le_unsigned]. rewrite Z_of_byte_of_Z, IH.
    rewrite Nat2Z.inj_succ, Z.pow_succ_r by lia.
    rewrite Z.rem_mul_r by (try lia; apply Z.pow_nonzero; lia).
    reflexivity.
Qed.

(** Decoding what [le_bytes] encoded gives the 32-bit value back. *)
Lemma le_int32_le_bytes (z : Z) (rest : bytes) : le_int32 (le_bytes 4 z ++ rest) = int32 z.
Proof.
  unfold le_int32, int32.
  rewrite take_app_length' by (symmetry; apply length_le_bytes).
  rewrite le_unsigned_le_bytes. unfold wrap.
  change (256 ^ Z.of_nat 4) with (2 ^ 32). rewrite Z.mod_mod by lia. reflexivity.
Qed.

(** Encoding what was decoded gives the bytes back. *)
Lemma Z_of_byte_range (x : Byte.byte) : 0 <= Z_of_byte x < 256.
Proof. destruct x; vm_compute; split; congruence. Qed.

Lemma byte_of_Z_of_byte (x : Byte.byte) (r : Z) : byte_of_Z (Z_of_byte x + 256 * r) = x.
Proof.
  pose proof (Z_of_byte_range x) as Hx. unfold byte_of_Z.
  replace (Z_of_byte x + 256 * r) with (Z_of_byte x + r * 256) by lia.
  rewrite Z.mod_add, Z.mod_small by lia.
  unfold Z_of_byte. rewrite N2Z.id, Byte.of_to_N. reflexivity.
Qed.

Lemma le_unsigned_range (b : bytes) : 0 <= le_unsigned b < 256 ^ Z.of_nat (length b).
Proof.
  induction b as [|x b IH]; [cbn; lia|].
  cbn [le_unsigned length]. rewrite Nat2Z.inj_succ, Z.pow_succ_r by lia.
  pose proof (Z_of_byte_range x). lia.
Qed.

Lemma le_bytes_le_unsigned (b : bytes) : le_bytes (length b) (le_unsigned b) = b.
Proof.
  induction b as [|x b IH]; [reflexivity|].
  cbn [length le_bytes le_unsigned]. rewrite byte_of_Z_of_byte. f_equal.
  pose proof (Z_of_byte_range x) as Hx.
  replace ((Z_of_byte x + 256 * le_unsigned b) / 256) with (le_unsigned b); [exact IH|].
  replace (Z_of_byte x + 256 * le_unsigned b) with (Z_of_byte x + le_unsigned b * 256) by lia.
  rewrite Z.div_add, (Z.div_small (Z_of_byte x)) by lia. lia.
Qed.

Lemma le_bytes_shift (n : nat) : forall z k : Z,
  le_bytes n (z + k * 256 ^ Z.of_nat n) = le_bytes n z.
Proof.
  induction n as [|n IH]; intros z k; [reflexivity|].
  cbn [le_bytes]. rewrite Nat2Z.inj_succ, Z.pow_succ_r by lia.
  replace (z + k * (256 * 256 ^ Z.of_nat n)) with (z + (k * 256 ^ Z.of_nat n) * 256) by lia.
  f_equal.
  - unfold byte_of_Z. rewrite Z.mod_add by lia. reflexivity.
  - rewrite Z.div_add by lia. apply IH.
Qed.

Lemma le_bytes_le_int32 (b : bytes) : (4 <= length b)%nat -> le_bytes 4 (le_int32 b) = take 4 b.
Proof.
  intros Hb. unfold le_int32, wrap.
  assert (Hl : length (take 4 b) = 4%nat) by (rewrite length_take; lia).
  pose proof (le_unsigned_range (take 4 b)) as Hr. rewrite Hl in Hr.
  change (256 ^ Z.of_nat 4) with (2 ^ 32) in Hr.
  rewrite Z.mod_small by exact Hr.
  pose proof (le_bytes_le_unsigned (take 4 b)) as Hc. rewrite Hl in Hc.
  destruct (le_unsigned (take 4 b) <? 2 ^ (32 - 1)); [exact Hc|].
  transitivity (le_bytes 4 (le_unsigned (take 4 b))); [|exact Hc].
  apply (le_bytes_shift 4 _ (-1)).
Qed.

Lemma ToWire_fromWire (b : bytes) : length b = 16%nat -> ToWire (fromWire b) = b.
Proof.
  intros Hb. unfold ToWire, fromWire. cbn [MessageLength RequestID ResponseTo OpCode].
  rewrite !le_bytes_le_int32 by (rewrite ?length_drop; lia).
  do 16 (destruct b as [|? b]; [simpl in Hb; lia|]).
  destruct b; [reflexivity | simpl in Hb; lia].
Qed.

(** ** Reading from the client's stream *)

Lemma readFullOn_Some (n : nat) (s a r : bytes) :
  readFullOn n s = Some (a, r) -> s = a ++ r /\ length a = n.
Proof.
  unfold readFullOn. destruct (n <=? length s)%nat eqn:Hn; [|discriminate].
  apply Nat.leb_le in Hn. intros [= <- <-].
  split; [symmetry; apply take_drop | rewrite length_take; lia].
Qed.

Lemma readCStringOn_Some (s : bytes) : forall a r : bytes,
  readCStringOn s = Some (a, r) -> s = a ++ r.
Proof.
  induction s as [|b s IH]; intros a r; [discriminate|].
  cbn [readCStringOn]. destruct (Byte.eqb b Byte.x00); [intros [= <- <-]; reflexivity|].
  destruct (readCStringOn s) as [[name rest]|]; [|discriminate].
  intros [= <- <-]. rewrite (IH name rest eq_refl). reflexivity.
Qed.

Lemma readDocumentOn_Some (s a r : bytes) :
  readDocumentOn s = Some (a, r) -> s = a ++ r.
Proof.
  unfold readDocumentOn. destruct (4 <=? le_int32 s); [|discriminate].
  intros H. apply readFullOn_Some in H. apply H.
Qed.

(** What the reads of a query exchange leave: the stream past the
    bytes of the header, the flags, the namespace, the two integers and
    the query document. *)
Lemma readQueryOn_rest (lib : Library) (s : bytes) (h : messageHeader) (rq : Request)
    (rest : bytes) :
  readQueryOn lib s = Some (h, rq, rest) ->
  rest = drop (Z.to_nat (readLength rq)) s.
Proof.
  unfold readQueryOn.
  destruct (readFullOn 16 s) as [[head s1]|] eqn:H1; [|discriminate].
  destruct (readFullOn 4 s1) as [[fl s2]|] eqn:H2; [|discriminate].
  destruct (readCStringOn s2) as [[name s3]|] eqn:H3; [|discriminate].
  destruct (readFullOn 8 s3) as [[two s4]|] eqn:H4; [|discriminate].
  destruct (readDocumentOn s4) as [[doc s5]|] eqn:H5; [|discriminate].
  destruct (bsonUnmarshal lib doc) as [err|q]; [discriminate|].
  intros [= <- <- <-].
  apply readFullOn_Some in H1 as [-> Hhead]. apply readFullOn_Some in H2 as [-> _].
  apply readCStringOn_Some in H3 as ->. apply readFullOn_Some in H4 as [-> _].
  apply readDocumentOn_Some in H5 as ->.
  unfold readLength, bytes_of_string, headerLen.
  cbn [flags fullCollectionName twoInt32 queryDoc].
  rewrite list_byte_of_string_of_list_byte.
  rewrite !(app_assoc _ _ s5). symmetry. apply drop_app_length'.
  rewrite !length_app, Hhead. lia.
Qed.

(** ** What goes upstream *)

Section Forwarding.

Context (lib : Library) (env : Env) (p : Proxy) (h : messageHeader).

(** After [forwardQuery] nothing more goes to the server. *)
Lemma handleQuery_response :
  exists tr' : Trace,
    snd (run (handleQueryRequest lib env p h))
    = snd (run (forwardQuery lib env p h (remoteAddrOf env))) ++ tr'
    /\ Forall (fun e => isUpstream e = false) tr'.
Proof.
  rewrite handleQuery_after.
  destruct (run (forwardQuery lib env p h (remoteAddrOf env))) as [[[r|h' full q']|msg] tr0].
  - exists []. rewrite app_nil_r. split; [reflexivity | constructor].
  - destruct (copyMessageErr env) as [err|].
    + rewrite reactor_run. eexists. rewrite <- app_assoc. split; [reflexivity|].
      cbn [app]. constructor; [reflexivity|]. constructor; [reflexivity|].
      destruct (ctlInprog env _) as [e|ops]; [constructor|].
      apply Forall_app. split; [apply Forall_fmap, Forall_true; reflexivity|].
      apply Forall_app. split.
      * unfold deadlineRefresh. destruct (clientConn env); repeat constructor.
      * apply Forall_forall. intros e He.
        destruct (clientWriteEvents_elem env _ _ _ He) as (b & r & ->). reflexivity.
    + eexists. split; [reflexivity|]. repeat constructor.
  - exists []. rewrite app_nil_r. split; [reflexivity | constructor].
Qed.

(** X7: a query that is subject to admission on a namespace without a
    dot makes [handleQueryRequest] panic in [splitDatabaseCollection],
    before anything is written to either socket. *)
Theorem undotted_namespace_panics (rq : Request) (full : string) :
  Reads lib env rq ->
  subjectToAdmission (fullCollectionName rq) (query rq) = true ->
  dropLast (fullCollectionName rq) = Ok full ->
  undotted full ->
  run (handleQueryRequest lib env p h) = (Panic "index out of range", []).
Proof.
  intros (Hf & Hn & Ht & Hd & Hu) Hs Hfull Hun.
  assert (Hsplit : splitDatabaseCollection full = Panic "index out of range").
  { unfold splitDatabaseCollection, SplitN2.
    rewrite (proj2 (cutAtDot_None full) Hun). reflexivity. }
  rewrite handleQuery_after. unfold run.
  enter_forwardQuery Hf Hn Hfull Ht Hd Hu Hs. rewrite Hsplit. reflexivity.
Qed.

(** X8: when one of the reads of [handleQueryRequest] fails, or the
    query document does not decode, the handler returns that error and
    nothing is written to either socket. *)
Theorem unreadable_query_not_forwarded (err : error) :
  ReadFailure lib env err ->
  run (handleQueryRequest lib env p h) = (Ok (Some err), []).
Proof.
  intros Hfail. rewrite handleQuery_after.
  assert (Hrun : run (forwardQuery lib env p h (remoteAddrOf env)) = (Ok (Returned (Some err)), [])).
  { unfold run, forwardQuery, mbind, M_bind, mret, M_ret, lift.
    assert (Hdrop : forall name : string, name <> "" -> exists full, dropLast name = Ok full).
    { intros [|c s] Hne; [contradiction|]. eexists. reflexivity. }
    destruct Hfail as [e Hf | fl e Hf Hn | fl name e Hf Hn Hne Ht | fl name two e Hf Hn Hne Ht Hd
                       | fl name two doc e Hf Hn Hne Ht Hd Hu].
    - rewrite Hf. reflexivity.
    - rewrite Hf, Hn. reflexivity.
    - destruct (Hdrop name Hne) as [full Hfull]. rewrite Hf, Hn, Hfull, Ht. reflexivity.
    - destruct (Hdrop name Hne) as [full Hfull]. rewrite Hf, Hn, Hfull, Ht, Hd. reflexivity.
    - destruct (Hdrop name Hne) as [full Hfull]. rewrite Hf, Hn, Hfull, Ht, Hd, Hu. reflexivity. }
  rewrite Hrun. reflexivity.
Qed.

Lemma totalLength_bypassParts (rq : Request) : totalLength (bypassParts h rq) = readLength rq.
Proof.
  unfold bypassParts, readLength, headerLen. rewrite !totalLength_cons, length_ToWire.
  unfold totalLength. simpl. lia.
Qed.

(** X9: a query that skips admission goes to the server as it came: the
    header, the flags, the namespace, the two integers and the query
    document, in this order and up to the first failing write.  When no
    write or copy fails, the server is handed [MessageLength] bytes in
    all, or what the proxy had read when the header announced less. *)
Theorem bypass_forwarded_unchanged (rq : Request) (full : string) :
  Reads lib env rq ->
  dropLast (fullCollectionName rq) = Ok full ->
  subjectToAdmission (fullCollectionName rq) (query rq) = false ->
  let tr := snd (run (handleQueryRequest lib env p h)) in
  (serverWrites tr `prefix_of` bypassParts h rq)
  /\ ((forall i : nat, serverWriteErr env i = None) ->
      serverWrites tr = [ToWire h; flags rq; bytes_of_string (fullCollectionName rq);
                         twoInt32 rq; queryDoc rq]
      /\ (copyNErr env = None ->
          - 2 ^ 31 <= MessageLength h < 2 ^ 31 ->
          readLength rq < 2 ^ 62 ->
          upstreamBytes tr = Z.max (MessageLength h) (readLength rq))).
Proof.
  intros Hr Hfull Hs tr.
  destruct handleQuery_response as (tr' & Htr & Hq).
  destruct (upstreamBytes_quiet tr' Hq) as [Hu0 Hw0].
  unfold tr. rewrite Htr. unfold run.
  rewrite (forwardQuery_bypass lib env p h rq full _ [] Hr Hs Hfull).
  split.
  - destruct (transmit_run env h full (query rq) (bypassParts h rq) []) as (r & t & Hrun & _ & _ & Hcopy).
    rewrite Hrun. cbn [snd app]. rewrite !serverWrites_app, Hw0, app_nil_r.
    rewrite (copies_serverWrites t Hcopy), app_nil_r. apply serverWriteEvents_prefix.
  - intros Hok. rewrite (transmit_ok env h full (query rq) (bypassParts h rq) [] Hok).
    cbn [snd app]. rewrite !serverWrites_app, !upstreamBytes_app, Hw0, Hu0.
    destruct (written_events (bypassParts h rq)) as (-> & -> & _).
    rewrite totalLength_bypassParts.
    split.
    + destruct (_ <=? 0); cbn [serverWrites]; rewrite !app_nil_r; reflexivity.
    + intros Hc Hl Hread.
      assert (Hpos : 0 <= readLength rq) by (unfold readLength, headerLen; lia).
      rewrite (int64_id (MessageLength h)) by lia.
      rewrite (int64_id (readLength rq)) by lia.
      rewrite int64_id by lia. rewrite Hc.
      destruct (MessageLength h - readLength rq <=? 0) eqn:Hp.
      * apply Z.leb_le in Hp. cbn [upstreamBytes]. lia.
      * apply Z.leb_gt in Hp. cbn [upstreamBytes]. lia.
Qed.

(** X10: an admitted query leaves well framed.  When no write or copy to
    the server fails, the message is at least as long as what was read
    of it and the lengths fit 32 bits, the server gets a
    header that differs from the client's only in its length, then the
    flags, the namespace and the two integers as read, then the
    marshalled mutated document.  The length announced is the old one
    less the old document plus the new one; it is the number of bytes
    the server is handed; and what is copied behind the document is as
    long as what the client's message had left. *)
Theorem admitted_query_framing (rq : Request) (full coll : string) (q' : D) :
  Reads lib env rq ->
  Inspected lib env rq full coll true ->
  mutateQuery lib p (query rq) (remoteAddrOf env) (uuidNew env) = Ok q' ->
  (forall i : nat, serverWriteErr env i = None) ->
  copyNErr env = None ->
  readLength rq <= MessageLength h < 2 ^ 31 ->
  MessageLength h - Z.of_nat (length (queryDoc rq)) + Z.of_nat (length (bsonMarshal lib q')) < 2 ^ 31 ->
  let newdoc := bsonMarshal lib q' in
  let h' := {| MessageLength := MessageLength h - Z.of_nat (length (queryDoc rq))
                                + Z.of_nat (length newdoc);
               RequestID := RequestID h;
               ResponseTo := ResponseTo h;
               OpCode := OpCode h |} in
  let tr := snd (run (handleQueryRequest lib env p h)) in
  serverWrites tr = [ToWire h'; flags rq; bytes_of_string (fullCollectionName rq);
                     twoInt32 rq; newdoc]
  /\ upstreamBytes tr = MessageLength h'
  /\ upstreamBytes tr - totalLength (serverWrites tr) = MessageLength h - readLength rq.
Proof.
  intros Hr Hi Hm Hok Hc Hl Hl' newdoc h' tr. subst newdoc.
  destruct handleQuery_response as (tr' & Htr & Hq).
  destruct (upstreamBytes_quiet tr' Hq) as [Hu0 Hw0].
  assert (Hread : readLength rq
                  = 16 + Z.of_nat (length (flags rq))
                    + Z.of_nat (length (bytes_of_string (fullCollectionName rq)))
                    + Z.of_nat (length (twoInt32 rq)) + Z.of_nat (length (queryDoc rq)))
    by reflexivity.
  assert (Hh : admittedHeader lib h rq q' = h').
  { unfold admittedHeader, patchLength, h'. f_equal.
    rewrite (int32_id (Z.of_nat (length (queryDoc rq)))) by lia.
    rewrite (int32_id (Z.of_nat (length (bsonMarshal lib q')))) by lia.
    rewrite (int32_id (MessageLength h - _)) by lia.
    apply int32_id. lia. }
  assert (Hparts : totalLength (admittedParts lib h rq q')
                   = readLength rq - Z.of_nat (length (queryDoc rq))
                     + Z.of_nat (length (bsonMarshal lib q'))).
  { unfold admittedParts. rewrite !totalLength_cons, length_ToWire, Hread.
    unfold totalLength. simpl. lia. }
  assert (Hpending : int64 (int64 (MessageLength (admittedHeader lib h rq q'))
                            - int64 (totalLength (admittedParts lib h rq q')))
                     = MessageLength h - readLength rq).
  { rewrite Hparts, Hh. cbn [MessageLength h'].
    rewrite (int64_id (MessageLength h - _ + _)) by lia.
    rewrite (int64_id (readLength rq - _ + _)) by lia.
    rewrite int64_id by lia. lia. }
  unfold tr. rewrite Htr. unfold run.
  rewrite (forwardQuery_admitted lib env p h rq full coll _ q' [] Hr Hi Hm).
  rewrite (transmit_ok env _ full q' (admittedParts lib h rq q') [] Hok).
  cbv zeta. rewrite Hpending, Hc.
  cbn [snd app]. rewrite !serverWrites_app, !upstreamBytes_app, Hw0, Hu0, !app_nil_r.
  destruct (written_events (admittedParts lib h rq q')) as (-> & -> & _).
  assert (Hsw : admittedParts lib h rq q'
                = [ToWire h'; flags rq; bytes_of_string (fullCollectionName rq); twoInt32 rq;
                   bsonMarshal lib q']).
  { unfold admittedParts. rewrite Hh. reflexivity. }
  destruct (MessageLength h - readLength rq <=? 0) eqn:Hp.
  - apply Z.leb_le in Hp. cbn [serverWrites upstreamBytes]. rewrite app_nil_r, Hparts.
    split; [exact Hsw|]. cbn [MessageLength h']. split; lia.
  - apply Z.leb_gt in Hp. cbn [serverWrites upstreamBytes]. rewrite app_nil_r, Hparts.
    split; [exact Hsw|]. cbn [MessageLength h']. split; lia.
Qed.

(** [handleMessage] on a message that is not a query, outcome by outcome. *)
Lemma handleMessage_other :
  OpCode h <> OpQuery ->
  run (handleMessage lib env p h) =
  let deadlines := [ServerSetDeadline (messageTimeout p); ClientSetDeadline (messageTimeout p)] in
  let n := int64 (int32 (MessageLength h - headerLen)) in
  let copy := if n <=? 0 then [] else [CopyN n (copyNErr env)] in
  match serverWriteErr env 0 with
  | Some err => (Ok (Some err), deadlines ++ [ServerWrite (ToWire h) (Some err)])
  | None =>
      match (if n <=? 0 then None else copyNErr env) with
      | Some err => (Ok (Some err), deadlines ++ [ServerWrite (ToWire h) None] ++ copy)
      | None =>
          if HasResponse (OpCode h)
          then (Ok (copyMessageErr env),
                deadlines ++ [ServerWrite (ToWire h) None] ++ copy
                ++ [CopyMessage (copyMessageErr env)])
          else (Ok None, deadlines ++ [ServerWrite (ToWire h) None] ++ copy)
      end
  end.
Proof.
  intros Hop. apply Z.eqb_neq in Hop.
  unfold run, handleMessage. step. rewrite Hop. step.
  unfold serverWrite at 1. cbn [app filter length].
  assert (H0 : length (filter isServerWrite
                         [ServerSetDeadline (messageTimeout p); ClientSetDeadline (messageTimeout p)])
               = 0%nat) by reflexivity.
  rewrite H0. cbv zeta.
  destruct (serverWriteErr env 0) as [e0|]; [reflexivity|].
  unfold copyN. destruct (int64 (int32 (MessageLength h - headerLen)) <=? 0).
  - step. destruct (HasResponse (OpCode h)); [|reflexivity].
    unfold copyMessage. step. destruct (copyMessageErr env); reflexivity.
  - step. destruct (copyNErr env) as [e1|]; [reflexivity|].
    destruct (HasResponse (OpCode h)); [|reflexivity].
    unfold copyMessage. step. destruct (copyMessageErr env); reflexivity.
Qed.

(** X11: [handleMessage] on a message that is not a query sets the
    deadline on the server and then on the client, writes the header to
    the server unchanged, and never writes to the client or uses the
    control channel; an error it returns is the one of the header write,
    of the body copy or of the response copy.  When header and body go
    through (and the announced length is at least 16) the server is
    handed [MessageLength] bytes, a response is copied exactly for the
    opcodes with [HasResponse], and the result is that copy's. *)
Theorem other_messages_relayed :
  OpCode h <> OpQuery ->
  let r := run (handleMessage lib env p h) in
  take 2 (snd r) = [ServerSetDeadline (messageTimeout p); ClientSetDeadline (messageTimeout p)]
  /\ serverWrites (snd r) = [ToWire h]
  /\ clientWrites (snd r) = []
  /\ filter isControl (snd r) = []
  /\ (forall err : error, fst r = Ok (Some err) ->
        serverWriteErr env 0 = Some err \/ copyNErr env = Some err \/ copyMessageErr env = Some err)
  /\ (serverWriteErr env 0 = None -> copyNErr env = None ->
      headerLen <= MessageLength h < 2 ^ 31 ->
      upstreamBytes (snd r) = MessageLength h
      /\ fst r = Ok (if HasResponse (OpCode h) then copyMessageErr env else None)
      /\ (CopyMessage (copyMessageErr env) ∈ snd r <-> HasResponse (OpCode h) = true)).
Proof.
  intros Hop r. subst r. rewrite (handleMessage_other Hop). cbv zeta.
  set (n := int64 (int32 (MessageLength h - headerLen))).
  assert (Hn : headerLen <= MessageLength h < 2 ^ 31 -> n = MessageLength h - headerLen).
  { intros Hl. unfold n, headerLen in *. rewrite int32_id, int64_id by lia. reflexivity. }
  assert (Hcopy : forall a b c : Event,
             CopyMessage (copyMessageErr env) ∈ [a; b; c] ->
             a <> CopyMessage (copyMessageErr env) -> b <> CopyMessage (copyMessageErr env) ->
             c <> CopyMessage (copyMessageErr env) -> False).
  { intros a b c Hin Ha Hb Hc.
    repeat (apply elem_of_cons in Hin as [Hin|Hin]; [congruence|]). inversion Hin. }
  destruct (serverWriteErr env 0) as [e0|] eqn:Hw;
    [|destruct (n <=? 0) eqn:Hp;
      [|destruct (copyNErr env) as [e1|] eqn:Hc];
      destruct (HasResponse (OpCode h)) eqn:Hh];
    cbn [fst snd app];
    (split; [reflexivity|]); (split; [reflexivity|]); (split; [reflexivity|]);
    (split; [reflexivity|]);
    (split;
     [intros err Herr;
      first [discriminate Herr
            | injection Herr as Herr;
              first [left; exact Herr
                    | right; left; rewrite <- Herr; reflexivity
                    | right; right; exact Herr
                    | left; rewrite <- Herr; reflexivity]]
     |intros Hw' Hc' Hl; try discriminate Hw'; try discriminate Hc';
      specialize (Hn Hl); cbn [upstreamBytes]; rewrite length_ToWire;
      try (apply Z.leb_le in Hp); unfold headerLen in *;
      (split; [lia|]); (split; [reflexivity|])]).
  - split; [reflexivity|]. intros _. do 3 right. left.
  - split; [|discriminate]. intros Hin. exfalso. eapply Hcopy; [exact Hin | discriminate..].
  - split; [reflexivity|]. intros _. do 4 right. left.
  - split; [|discriminate]. intros Hin. exfalso.
    repeat (apply elem_of_cons in Hin as [Hin|Hin]; [discriminate|]). inversion Hin.
Qed.

(** X12: when no write to the client fails and the reply is shorter
    than 2^31 bytes, [sendErrorToClient] returns [nil] and the reply it
    wrote is well framed: a 16-byte header whose
    first field, read as a little-endian [int32], is the length of the
    whole reply, 36 bytes plus the error document. *)
Theorem reply_length_field (err : error) (code : Z) :
  (forall i : nat, clientWriteErr env i = None) ->
  headerLen + 20 + Z.of_nat (length (bsonMarshal lib (errorDocument err code))) < 2 ^ 31 ->
  let r := run (sendErrorToClient lib env h err code) in
  exists (header : bytes) (body : list bytes),
    fst r = Ok None
    /\ clientWrites (snd r) = header :: body
    /\ length header = 16%nat
    /\ le_int32 header = totalLength (header :: body)
    /\ totalLength (header :: body)
       = headerLen + 20 + Z.of_nat (length (bsonMarshal lib (errorDocument err code))).
Proof.
  intros Hok Hlen r. subst r. unfold run. rewrite sendErrorToClient_run.
  cbv zeta. cbn [app fst snd]. change (length (filter isClientWrite [])) with 0%nat.
  destruct (clientWriteEvents_all env
              [ToWire (errorHeader h (bsonMarshal lib (errorDocument err code)));
               errorBytes; bsonMarshal lib (errorDocument err code)] 0 Hok) as [-> ->].
  eexists. eexists. split; [reflexivity|]. split; [reflexivity|].
  split; [apply length_ToWire|].
  assert (Htot : totalLength [ToWire (errorHeader h (bsonMarshal lib (errorDocument err code)));
                              errorBytes; bsonMarshal lib (errorDocument err code)]
                 = headerLen + 20 + Z.of_nat (length (bsonMarshal lib (errorDocument err code)))).
  { rewrite !totalLength_cons, length_ToWire. unfold totalLength, headerLen. simpl. lia. }
  split; [|exact Htot].
  rewrite Htot. unfold ToWire, errorHeader. cbn [MessageLength].
  rewrite le_int32_le_bytes.
  change (Z.of_nat (length errorBytes)) with 20.
  rewrite (int32_id (headerLen + 20 + _)) by (unfold headerLen in *; lia).
  apply int32_id. unfold headerLen in *. lia.
Qed.

End Forwarding.

(** ** What a handler adds to the trace *)

Section Emits.

Context {P : Event -> Prop}.

Lemma emits_ret {A} (a : A) : emits P (mret a : M A).
Proof. intros tr. exists []. rewrite app_nil_r. split; [reflexivity | constructor]. Qed.

Lemma emits_lift {A} (r : Result A) : emits P (lift r).
Proof. intros tr. exists []. rewrite app_nil_r. split; [reflexivity | constructor]. Qed.

Lemma emits_emit (e : Event) : P e -> emits P (emit e).
Proof. intros He tr. exists [e]. split; [reflexivity | repeat constructor; exact He]. Qed.

Lemma emits_bind {A B} (m : M A) (f : A -> M B) :
  emits P m -> (forall a : A, emits P (f a)) -> emits P (m ≫= f).
Proof.
  intros Hm Hf tr. rewrite bind_run.
  destruct (Hm tr) as (t1 & H1 & HP1). destruct (m tr) as [[a|msg] tr1]; cbn [snd] in H1; subst tr1.
  - destruct (Hf a (tr ++ t1)) as (t2 & H2 & HP2). exists (t1 ++ t2).
    rewrite H2, app_assoc. split; [reflexivity | apply Forall_app; split; assumption].
  - exists t1. split; [reflexivity | exact HP1].
Qed.

Lemma emits_unwind {A} (s : Conn) (m : M A) :
  P ServerClose -> emits P m -> emits P (unwind s m).
Proof.
  intros Hc Hm tr. unfold unwind.
  destruct (Hm tr) as (t1 & H1 & HP1). destruct (m tr) as [[a|msg] tr1]; cbn [snd] in H1; subst tr1.
  - exists t1. split; [reflexivity | exact HP1].
  - destruct s; cbn [closeServer].
    + exists (t1 ++ [ServerClose]). rewrite emit_run, app_assoc.
      split; [reflexivity|]. apply Forall_app. split; [exact HP1 | repeat constructor; exact Hc].
    + exists t1. rewrite lift_run. split; [reflexivity | exact HP1].
Qed.

End Emits.

Ltac emits_step :=
  first
    [ apply emits_ret
    | apply emits_lift
    | apply emits_emit; discriminate
    | apply emits_bind; [|intros ?]
    | match goal with
      | |- emits _ (match ?x with _ => _ end) => destruct x
      | |- emits _ (let (_, _) := ?x in _) => destruct x
      end ].

Section ClientLeftOpen.

Context (lib : Library) (env : Env) (p : Proxy).

Lemma clientWriteAll_leaves (parts : list bytes) : emits leavesClient (clientWriteAll env parts).
Proof.
  induction parts as [|b rest IH]; cbn [clientWriteAll]; [apply emits_ret|].
  apply emits_bind.
  - intros tr. eexists [_]. split; [reflexivity|]. repeat constructor. discriminate.
  - intros [err|]; [apply emits_ret | exact IH].
Qed.

Lemma serverWriteAll_leaves (parts : list bytes) : forall written : Z,
  emits leavesClient (serverWriteAll env parts written).
Proof.
  induction parts as [|b rest IH]; intros written; cbn [serverWriteAll]; [apply emits_ret|].
  apply emits_bind.
  - intros tr. eexists [_]. split; [reflexivity|]. repeat constructor. discriminate.
  - intros [err|]; [apply emits_ret | apply IH].
Qed.

Lemma killAll_leaves (ops : list Value) : emits leavesClient (killAll ops).
Proof.
  induction ops as [|op rest IH]; cbn [killAll]; [apply emits_ret|].
  apply emits_bind; [apply emits_emit; discriminate | intros _; exact IH].
Qed.

Lemma copyN_leaves (n : Z) : emits leavesClient (copyN env n).
Proof. unfold copyN. destruct (n <=? 0); repeat emits_step. Qed.

Lemma copyMessage_leaves : emits leavesClient (copyMessage env).
Proof. unfold copyMessage. repeat emits_step. Qed.

Lemma sendErrorToClient_leaves (h : messageHeader) (err : error) (code : Z) :
  emits leavesClient (sendErrorToClient lib env h err code).
Proof. unfold sendErrorToClient. apply clientWriteAll_leaves. Qed.

Lemma transmit_leaves (h : messageHeader) (full : string) (q : D) (parts : list bytes) :
  emits leavesClient (transmit env h full q parts).
Proof.
  unfold transmit. apply emits_bind; [apply serverWriteAll_leaves|].
  intros [err|written]; [apply emits_ret|].
  apply emits_bind; [apply copyN_leaves|]. intros [err|]; apply emits_ret.
Qed.

Lemma forwardQuery_leaves (h : messageHeader) (addr : string) :
  emits leavesClient (forwardQuery lib env p h addr).
Proof.
  unfold forwardQuery.
  repeat first [ apply sendErrorToClient_leaves | apply transmit_leaves | emits_step ].
Qed.

Lemma reactor_leaves (h : messageHeader) (full queryID : string) (q : D) (err : error) :
  emits leavesClient (reactor lib env p h full queryID q err).
Proof.
  unfold reactor.
  repeat first [ apply sendErrorToClient_leaves | apply killAll_leaves | emits_step ].
Qed.

Lemma handleQueryRequest_leaves (h : messageHeader) :
  emits leavesClient (handleQueryRequest lib env p h).
Proof.
  unfold handleQueryRequest.
  repeat first [ apply forwardQuery_leaves | apply reactor_leaves | apply copyMessage_leaves
               | emits_step ].
Qed.

Lemma handleMessage_leaves (h : messageHeader) : emits leavesClient (handleMessage lib env p h).
Proof.
  unfold handleMessage.
  repeat first [ apply handleQueryRequest_leaves | apply copyMessage_leaves | apply copyN_leaves
               | emits_step ].
  intros tr. eexists [_]. split; [reflexivity|]. repeat constructor. discriminate.
Qed.

Lemma clientReadHeader_leaves : emits leavesClient (clientReadHeader env p).
Proof. unfold clientReadHeader. repeat emits_step. Qed.

Lemma dialLoop_leaves (n : nat) : forall (k : nat) (d : Z) (last : string),
  emits leavesClient (dialLoop env p n k d last).
Proof.
  induction n as [|n IH]; intros k d last; cbn [dialLoop]; [apply emits_ret|].
  destruct (servers p) as [|s0 ss]; [apply emits_lift|].
  cbv zeta. repeat first [ apply IH | emits_step ].
Qed.

Lemma newServerConn_leaves : emits leavesClient (newServerConn env p).
Proof. unfold newServerConn. apply dialLoop_leaves. Qed.

Lemma closeServer_leaves (s : Conn) : emits leavesClient (closeServer s).
Proof. destruct s; cbn [closeServer]; repeat emits_step. Qed.

Lemma turn_leaves (s : Conn) : emits leavesClient (turn lib env p s).
Proof.
  unfold turn.
  repeat first [ apply clientReadHeader_leaves | apply handleMessage_leaves
               | apply closeServer_leaves | apply newServerConn_leaves | emits_step ].
Qed.

End ClientLeftOpen.

(** ** Handlers after a quiet stretch of trace *)

Lemma framed_ret {A} (a : A) : framed (mret a : M A).
Proof. intros pre tr _. reflexivity. Qed.

Lemma framed_lift {A} (r : Result A) : framed (lift r).
Proof. intros pre tr _. reflexivity. Qed.

Lemma framed_emit (e : Event) : framed (emit e).
Proof. intros pre tr _. unfold emit. cbn [fst snd]. rewrite app_assoc. reflexivity. Qed.

Lemma framed_bind {A B} (m : M A) (f : A -> M B) :
  framed m -> (forall a : A, framed (f a)) -> framed (m ≫= f).
Proof.
  intros Hm Hf pre tr Hq. rewrite !bind_run, (Hm pre tr Hq).
  destruct (m tr) as [[a|msg] tr1]; cbn [fst snd]; [|reflexivity].
  rewrite (Hf a pre tr1 Hq). reflexivity.
Qed.

Lemma quiet_count (pre tr : Trace) :
  quiet pre ->
  length (filter isClientWrite (pre ++ tr)) = length (filter isClientWrite tr)
  /\ length (filter isServerWrite (pre ++ tr)) = length (filter isServerWrite tr).
Proof. intros [Hc Hs]. rewrite !filter_app, Hc, Hs. split; reflexivity. Qed.

Lemma dialing_quiet (tr : Trace) : Forall (fun e => isDialing e = true) tr -> quiet tr.
Proof. intros H. split; apply dialing_filter; try exact H; intros [] He; try discriminate; reflexivity. Qed.

Ltac framed_step :=
  first
    [ apply framed_ret
    | apply framed_lift
    | apply framed_emit
    | apply framed_bind; [|intros ?]
    | match goal with
      | |- framed (match ?x with _ => _ end) => destruct x
      | |- framed (let (_, _) := ?x in _) => destruct x
      end ].

Section Framed.

Context (lib : Library) (env : Env) (p : Proxy).

Lemma clientWrite_framed (b : bytes) : framed (clientWrite env b).
Proof.
  intros pre tr Hq. unfold clientWrite. cbn [fst snd].
  rewrite (proj1 (quiet_count pre tr Hq)), app_assoc. reflexivity.
Qed.

Lemma serverWrite_framed (b : bytes) : framed (serverWrite env b).
Proof.
  intros pre tr Hq. unfold serverWrite. cbn [fst snd].
  rewrite (proj2 (quiet_count pre tr Hq)), app_assoc. reflexivity.
Qed.

Lemma clientWriteAll_framed (parts : list bytes) : framed (clientWriteAll env parts).
Proof.
  induction parts as [|b rest IH]; cbn [clientWriteAll]; [apply framed_ret|].
  apply framed_bind; [apply clientWrite_framed|]. intros [err|]; [apply framed_ret | exact IH].
Qed.

Lemma serverWriteAll_framed (parts : list bytes) : forall written : Z,
  framed (serverWriteAll env parts written).
Proof.
  induction parts as [|b rest IH]; intros written; cbn [serverWriteAll]; [apply framed_ret|].
  apply framed_bind; [apply serverWrite_framed|]. intros [err|]; [apply framed_ret | apply IH].
Qed.

Lemma killAll_framed (ops : list Value) : framed (killAll ops).
Proof.
  induction ops as [|op rest IH]; cbn [killAll]; [apply framed_ret|].
  apply framed_bind; [apply framed_emit | intros _; exact IH].
Qed.

Lemma copyN_framed (n : Z) : framed (copyN env n).
Proof. unfold copyN. destruct (n <=? 0); repeat framed_step. Qed.

Lemma copyMessage_framed : framed (copyMessage env).
Proof. unfold copyMessage. repeat framed_step. Qed.

Lemma sendErrorToClient_framed (h : messageHeader) (err : error) (code : Z) :
  framed (sendErrorToClient lib env h err code).
Proof. unfold sendErrorToClient. apply clientWriteAll_framed. Qed.

Lemma transmit_framed (h : messageHeader) (full : string) (q : D) (parts : list bytes) :
  framed (transmit env h full q parts).
Proof.
  unfold transmit. apply framed_bind; [apply serverWriteAll_framed|].
  intros [err|written]; [apply framed_ret|].
  apply framed_bind; [apply copyN_framed|]. intros [err|]; apply framed_ret.
Qed.

Lemma forwardQuery_framed (h : messageHeader) (addr : string) :
  framed (forwardQuery lib env p h addr).
Proof.
  unfold forwardQuery.
  repeat first [ apply sendErrorToClient_framed | apply transmit_framed | framed_step ].
Qed.

Lemma reactor_framed (h : messageHeader) (full queryID : string) (q : D) (err : error) :
  framed (reactor lib env p h full queryID q err).
Proof.
  unfold reactor.
  repeat first [ apply sendErrorToClient_framed | apply killAll_framed | framed_step ].
Qed.

Lemma handleQueryRequest_framed (h : messageHeader) : framed (handleQueryRequest lib env p h).
Proof.
  unfold handleQueryRequest.
  repeat first [ apply forwardQuery_framed | apply reactor_framed | apply copyMessage_framed
               | framed_step ].
Qed.

Lemma handleMessage_framed (h : messageHeader) : framed (handleMessage lib env p h).
Proof.
  unfold handleMessage.
  repeat first [ apply handleQueryRequest_framed | apply copyMessage_framed | apply copyN_framed
               | apply serverWrite_framed | framed_step ].
Qed.

End Framed.

(** ** The life of a connection *)

Section Connection.

Context (lib : Library) (p : Proxy).

(** On a live server connection a turn is [pumpIteration], which leaves
    the deferred close of a [Stop] to its caller. *)
Lemma turn_pumpIteration (env : Env) (tr : Trace) :
  pumpIteration lib env p tr
  = (r ← turn lib env p Connected;
     match fst r with
     | Stop => emit ServerClose;; mret Stop
     | Next => mret Next
     end) tr.
Proof.
  unfold pumpIteration, turn. step.
  destruct (clientReadHeader env p tr) as [[[e|h]|msg] tr1]; step; try reflexivity.
  destruct (handleMessage lib env p h tr1) as [[[e|]|msg] tr2]; step; try reflexivity.
  cbn [closeServer]. step.
  destruct (newServerConn env p (tr2 ++ [ServerClose])) as [[c|msg] tr3]; step; reflexivity.
Qed.

Lemma all_dials_fail (env : Env) (tr : Trace) :
  servers p <> [] ->
  (forall k : nat, (k < 7)%nat -> dialErr env k (chosen env p k) <> None) ->
  newServerConn env p tr
  = (Ok (Some (Errorf ("Couldn't connect to " ++ chosen env p 6))),
     tr ++ concat (failedAttempt env p <$> seq 0 7)).
Proof.
  intros Hs Hfail. unfold newServerConn.
  destruct (dialLoop_run env p 7 0 "" tr Hs eq_refl ltac:(lia)) as (f & Hf & _ & Hok & Hrun).
  change (50 * Millisecond) with (backoff 0). rewrite Hrun.
  assert (f = 7%nat) as ->.
  { destruct (Nat.eq_dec f 7%nat) as [H7|H7]; [exact H7|].
    exfalso. apply (Hfail f); [lia|]. apply Hok. lia. }
  cbn [Nat.ltb Nat.leb Nat.sub]. rewrite app_nil_r. reflexivity.
Qed.

(** X13: when every dial fails, [newServerConn] dials 7 times and sleeps
    7 times, 50 ms doubling up to 3.2 s, 6.35 s in all; the last sleep
    comes after the last dial, just before the error is returned. *)
Theorem newServerConn_gives_up (env : Env) :
  servers p <> [] ->
  (forall k : nat, (k < 7)%nat -> dialErr env k (chosen env p k) <> None) ->
  let tr := snd (run (newServerConn env p)) in
  length (filter isDial tr) = 7%nat
  /\ sleeps tr = [50 * Millisecond; 100 * Millisecond; 200 * Millisecond; 400 * Millisecond;
                  800 * Millisecond; 1600 * Millisecond; 3200 * Millisecond]
  /\ fold_right Z.add 0 (sleeps tr) = 6350 * Millisecond
  /\ last tr = Some (Sleep (3200 * Millisecond)).
Proof.
  intros Hs Hfail tr. subst tr. unfold run. rewrite (all_dials_fail env [] Hs Hfail).
  cbn [snd app]. repeat split.
Qed.

(** X14: the start of a connection.  With no endpoint configured
    [handleClientConnection] panics in [newServerConn], at
    [p.servers[0]], before it has done anything.  When the first
    [newServerConn] fails, it closes the client connection and returns:
    after the dials and sleeps the close is the only thing it does, no
    header is read. *)
Theorem unreachable_server_refuses_client (dial : Env) (envs : list Env) :
  (servers p = [] ->
   run (handleClientConnection lib p dial envs) = (Panic "index out of range", []))
  /\ (servers p <> [] ->
      (forall k : nat, (k < 7)%nat -> dialErr dial k (chosen dial p k) <> None) ->
      run (handleClientConnection lib p dial envs)
      = (Ok Refused, concat (failedAttempt dial p <$> seq 0 7) ++ [ClientClose])).
Proof.
  split.
  - intros Hs. unfold run, handleClientConnection, newServerConn. step.
    cbn [dialLoop]. rewrite Hs. reflexivity.
  - intros Hs Hfail. unfold run, handleClientConnection. step.
    rewrite (all_dials_fail dial [] Hs Hfail). step. reflexivity.
Qed.

Lemma pump_cons (s : Conn) (env : Env) (rest : list Env) (tr : Trace) :
  pump lib p s (env :: rest) tr
  = (r ← unwind s (turn lib env p s);
     match r with
     | (Stop, s') => closeServer s';; mret Closed
     | (Next, s') => pump lib p s' rest
     end) tr.
Proof. reflexivity. Qed.

Lemma pump_leaves (envs : list Env) : forall s : Conn, emits leavesClient (pump lib p s envs).
Proof.
  induction envs as [|env rest IH]; intros s; cbn [pump]; [apply emits_ret|].
  apply emits_bind.
  - apply emits_unwind; [discriminate | apply turn_leaves].
  - intros [[|] s']; [|apply IH].
    apply emits_bind; [apply closeServer_leaves | intros _; apply emits_ret].
Qed.

Lemma pump_closed (envs : list Env) : forall (s : Conn) (tr tr' : Trace),
  pump lib p s envs tr = (Ok Closed, tr') -> last tr' = Some ServerClose.
Proof.
  induction envs as [|env rest IH]; intros s tr tr'; [discriminate|].
  rewrite pump_cons, bind_run.
  destruct (unwind s (turn lib env p s) tr) as [[[[|] s']|msg] tr1]; [| |discriminate].
  - destruct s'; cbn [closeServer]; step; [|discriminate].
    intros [= <-]. apply last_snoc.
  - apply IH.
Qed.

Lemma pump_not_refused (envs : list Env) : forall (s : Conn) (tr : Trace),
  fst (pump lib p s envs tr) <> Ok Refused.
Proof.
  induction envs as [|env rest IH]; intros s tr; [discriminate|].
  rewrite pump_cons, bind_run.
  destruct (unwind s (turn lib env p s) tr) as [[[[|] s']|msg] tr1]; [| |discriminate].
  - destruct s'; cbn [closeServer]; step; discriminate.
  - apply IH.
Qed.

(** A turn stops only when the header could not be read. *)
Lemma turn_stop (env : Env) (s s' : Conn) (tr tr' : Trace) :
  unwind s (turn lib env p s) tr = (Ok (Stop, s'), tr') ->
  exists err : error, readHeader env = inl err.
Proof.
  unfold unwind, turn, clientReadHeader. step.
  destruct (readHeader env) as [err|h]; [intros _; eauto|]. step.
  destruct (match s with
            | Connected => handleMessage lib env p h
            | Nil => lift (Panic nilDereference)
            end (tr ++ [ClientSetReadDeadline (clientIdleTimeout p)]))
    as [[[e|]|msg] tr1]; step; try discriminate.
  destruct (closeServer s tr1) as [[[]|msg] tr2]; step; try discriminate.
  destruct (newServerConn env p tr2) as [[c|msg] tr3]; step; discriminate.
Qed.

Lemma pump_returns (envs : list Env) : forall (s : Conn) (tr tr' : Trace),
  pump lib p s envs tr = (Ok Closed, tr') ->
  exists (env : Env) (err : error), env ∈ envs /\ readHeader env = inl err.
Proof.
  induction envs as [|env rest IH]; intros s tr tr'; [discriminate|].
  rewrite pump_cons, bind_run.
  destruct (unwind s (turn lib env p s) tr) as [[[[|] s']|msg] tr1] eqn:Ht; [| |discriminate].
  - intros _. destruct (turn_stop env s s' tr tr1 Ht) as [err Herr].
    exists env, err. split; [left | exact Herr].
  - intros Hp. destruct (IH s' tr1 tr' Hp) as (env' & err & Hin & Herr).
    exists env', err. split; [right; exact Hin | exact Herr].
Qed.

(** X15: once the server connection is established,
    [handleClientConnection] never closes the client connection,
    whatever happens in the loop.  When it returns, a header read has
    failed and the deferred close of the server connection is the last
    thing done. *)
Theorem client_left_open (dial : Env) (envs : list Env) :
  fst (run (newServerConn dial p)) = Ok None ->
  let r := run (handleClientConnection lib p dial envs) in
  (ClientClose ∉ snd r)
  /\ fst r <> Ok Refused
  /\ (fst r = Ok Closed ->
      last (snd r) = Some ServerClose
      /\ exists (env : Env) (err : error), env ∈ envs /\ readHeader env = inl err).
Proof.
  intros Hdial r. subst r. unfold run in *. unfold handleClientConnection. rewrite bind_run.
  destruct (newServerConn_leaves dial p []) as (t0 & H0 & HP0).
  destruct (newServerConn dial p []) as [[c|msg] tr0]; cbn [fst snd] in *; [|discriminate].
  injection Hdial as ->. subst tr0. cbn [app].
  destruct (pump_leaves envs Connected t0) as (t1 & H1 & HP1).
  split; [|split].
  - rewrite H1. intros Hin. apply elem_of_app in Hin as [Hin|Hin].
    + rewrite Forall_forall in HP0. exact (HP0 _ Hin eq_refl).
    + rewrite Forall_forall in HP1. exact (HP1 _ Hin eq_refl).
  - apply pump_not_refused.
  - destruct (pump lib p Connected envs t0) as [res tr1] eqn:Hp. cbn [fst snd].
    intros ->. split; [eapply pump_closed | eapply pump_returns]; exact Hp.
Qed.

(** With a [nil] server connection the next turn panics, whatever the
    client does. *)
Lemma pump_nil (env : Env) (rest : list Env) (tr : Trace) :
  pump lib p Nil (env :: rest) tr
  = (Panic nilDereference, tr ++ [ClientSetReadDeadline (clientIdleTimeout p)]).
Proof.
  rewrite pump_cons, bind_run. unfold unwind, turn, clientReadHeader. step.
  destruct (readHeader env) as [[| | |text [|]|text]|h]; step; reflexivity.
Qed.

(** X16: a failed reconnect is fatal.  When [handleMessage] returns an
    error and none of the 7 dials of the reconnect succeeds, [s] is left
    [nil]; the loop goes back to [clientReadHeader] and then panics with
    a nil dereference, whatever the client sends next. *)
Theorem failed_reconnect_panics (dial env1 env2 : Env) (rest : list Env) (h : messageHeader)
    (err : error) :
  servers p <> [] ->
  fst (run (newServerConn dial p)) = Ok None ->
  readHeader env1 = inr h ->
  fst (run (handleMessage lib env1 p h)) = Ok (Some err) ->
  (forall k : nat, (k < 7)%nat -> dialErr env1 k (chosen env1 p k) <> None) ->
  let r := run (handleClientConnection lib p dial (env1 :: env2 :: rest)) in
  fst r = Panic nilDereference
  /\ snd r = snd (run (newServerConn dial p))
             ++ [ClientSetReadDeadline (clientIdleTimeout p)]
             ++ snd (run (handleMessage lib env1 p h))
             ++ [ServerClose] ++ concat (failedAttempt env1 p <$> seq 0 7)
             ++ [ClientSetReadDeadline (clientIdleTimeout p)].
Proof.
  intros Hs Hdial Hh Hm Hfail r. subst r. unfold run in *. unfold handleClientConnection.
  rewrite bind_run.
  destruct (newServerConn_run dial p [] Hs) as (c & tr0 & Hrun & Hd).
  rewrite Hrun in Hdial |- *. cbn [fst snd app] in *. injection Hdial as ->.
  assert (Hq : quiet (tr0 ++ [ClientSetReadDeadline (clientIdleTimeout p)])).
  { destruct (dialing_quiet tr0 Hd) as [Hc Hw]. split; rewrite filter_app.
    - rewrite Hc. reflexivity.
    - rewrite Hw. reflexivity. }
  pose proof (handleMessage_framed lib env1 p h _ [] Hq) as Hframe.
  rewrite app_nil_r, Hm in Hframe.
  assert (Hpump : pump lib p Connected (env1 :: env2 :: rest) tr0
                  = (Panic nilDereference,
                     tr0 ++ [ClientSetReadDeadline (clientIdleTimeout p)]
                     ++ snd (handleMessage lib env1 p h [])
                     ++ [ServerClose] ++ concat (failedAttempt env1 p <$> seq 0 7)
                     ++ [ClientSetReadDeadline (clientIdleTimeout p)])).
  { rewrite pump_cons, bind_run. unfold unwind, turn, clientReadHeader. step.
    rewrite Hh. step. rewrite Hframe. step. cbn [closeServer]. step.
    rewrite (all_dials_fail env1 _ Hs Hfail). step.
    rewrite pump_nil, <- !app_assoc. reflexivity. }
  rewrite Hpump. split; reflexivity.
Qed.

(** X17: a panic in [handleMessage] is not recovered:
    [handleClientConnection] ends with the same panic, after the
    deferred close of the server connection and without closing the
    client connection. *)
Theorem handler_panic_propagates (dial env1 : Env) (rest : list Env) (h : messageHeader)
    (msg : string) :
  servers p <> [] ->
  fst (run (newServerConn dial p)) = Ok None ->
  readHeader env1 = inr h ->
  fst (run (handleMessage lib env1 p h)) = Panic msg ->
  run (handleClientConnection lib p dial (env1 :: rest))
  = (Panic msg,
     snd (run (newServerConn dial p))
     ++ [ClientSetReadDeadline (clientIdleTimeout p)]
     ++ snd (run (handleMessage lib env1 p h))
     ++ [ServerClose]).
Proof.
  intros Hs Hdial Hh Hm. unfold run in *. unfold handleClientConnection.
  rewrite bind_run.
  destruct (newServerConn_run dial p [] Hs) as (c & tr0 & Hrun & Hd).
  rewrite Hrun in Hdial |- *. cbn [fst snd app] in *. injection Hdial as ->.
  assert (Hq : quiet (tr0 ++ [ClientSetReadDeadline (clientIdleTimeout p)])).
  { destruct (dialing_quiet tr0 Hd) as [Hc Hw]. split; rewrite filter_app.
    - rewrite Hc. reflexivity.
    - rewrite Hw. reflexivity. }
  pose proof (handleMessage_framed lib env1 p h _ [] Hq) as Hframe.
  rewrite app_nil_r, Hm in Hframe.
  rewrite pump_cons, bind_run. unfold unwind, turn, clientReadHeader. step.
  rewrite Hh. step. rewrite Hframe. step. cbn [closeServer]. step.
  cbn [snd]. rewrite <- !app_assoc. reflexivity.
Qed.

End Connection.

(** ** Reading the next header *)

(** X18: [clientReadHeader] sets the read deadline and does nothing else
    to the sockets.  It returns the header when the read succeeded;
    [io.EOF] becomes [errNormalClose], a network timeout becomes
    [errClientReadTimeout], any other error is passed on; so it never
    returns [io.EOF] or a timeout itself. *)
Theorem clientReadHeader_errors (env : Env) (p : Proxy) :
  let r := run (clientReadHeader env p) in
  snd r = [ClientSetReadDeadline (clientIdleTimeout p)]
  /\ (forall h : messageHeader, fst r = Ok (inr h) <-> readHeader env = inr h)
  /\ (readHeader env = inl EOF -> fst r = Ok (inl errNormalClose))
  /\ (forall e : error,
        readHeader env = inl e -> isNetTimeout e = true -> fst r = Ok (inl errClientReadTimeout))
  /\ (forall e : error,
        readHeader env = inl e -> e <> EOF -> isNetTimeout e = false -> fst r = Ok (inl e))
  /\ (forall e : error, fst r = Ok (inl e) -> e <> EOF /\ isNetTimeout e = false).
Proof.
  intros r. subst r. unfold run, clientReadHeader. step.
  destruct (readHeader env) as [[| | |text [|]|text]|h]; step; cbn [fst snd app];
    (split; [reflexivity|]);
    (split; [intros h'; split; intros H; try discriminate H; injection H as ->; reflexivity|]);
    (split; [intros H; try discriminate H; reflexivity|]);
    (split; [intros e H Ht; try discriminate H; injection H as <-;
             try discriminate Ht; reflexivity|]);
    (split; [intros e H Hne Ht; try discriminate H; injection H as <-;
             try discriminate Ht; try contradiction; reflexivity|]);
    intros e H; try discriminate H; injection H as <-; split; try discriminate; reflexivity.
Qed.

(** ** The fate of a forwarded query *)

Section Forwarded.

Context (lib : Library) (env : Env) (p : Proxy) (h : messageHeader).

Lemma forwards_transmit (rq : Request) (full : string) (h' : messageHeader) (q' : D)
    (parts : list bytes) (tr : Trace) :
  Reads lib env rq ->
  Forwards lib env p h rq full h' q' parts ->
  forwardQuery lib env p h (remoteAddrOf env) tr = transmit env h' full q' parts tr.
Proof.
  intros Hr [full0 Hs Hfull | full0 coll q0 Hi Hm].
  - apply forwardQuery_bypass; assumption.
  - eapply forwardQuery_admitted; eassumption.
Qed.

Lemma written_quiet (parts : list bytes) :
  filter isControl ((fun b => ServerWrite b None) <$> parts) = []
  /\ forall e : option error, CopyMessage e ∉ (fun b => ServerWrite b None) <$> parts.
Proof.
  induction parts as [|b rest [IH1 IH2]]; [split; [reflexivity | intros e H; inversion H]|].
  cbn [fmap list_fmap]. split.
  - rewrite filter_cons_False by (intros H; exact H). exact IH1.
  - intros e Hin. apply elem_of_cons in Hin as [Hin|Hin]; [discriminate|]. exact (IH2 e Hin).
Qed.

(** X19: a forwarded query, bypassing or admitted, for which no write
    fails and the response is copied: the handler returns [nil], the
    server got exactly the parts, the proxy itself wrote nothing to the
    client and sent no lookup of the operations in progress and no
    kill; the copy of the response is the last thing it did. *)
Theorem answered_query_is_silent (rq : Request) (full : string) (h' : messageHeader) (q' : D)
    (parts : list bytes) :
  Reads lib env rq ->
  Forwards lib env p h rq full h' q' parts ->
  (forall i : nat, serverWriteErr env i = None) ->
  copyNErr env = None ->
  copyMessageErr env = None ->
  let r := run (handleQueryRequest lib env p h) in
  fst r = Ok None
  /\ serverWrites (snd r) = parts
  /\ clientWrites (snd r) = []
  /\ filter isControl (snd r) = []
  /\ last (snd r) = Some (CopyMessage None).
Proof.
  intros Hr Hfw Hok Hc Hm r. subst r. rewrite handleQuery_after. unfold run.
  rewrite (forwards_transmit rq full h' q' parts [] Hr Hfw).
  rewrite (transmit_ok env h' full q' parts [] Hok). cbv zeta. rewrite Hc, Hm.
  destruct (written_events parts) as (Hsw & _ & Hcw). destruct (written_quiet parts) as [Hctl _].
  destruct (_ <=? 0); cbn [fst snd app];
    rewrite ?app_nil_r, !serverWrites_app, !clientWrites_app, !filter_app, Hsw, Hcw, Hctl;
    (split; [reflexivity|]); (split; [cbn; rewrite ?app_nil_r; reflexivity|]);
    (split; [reflexivity|]); (split; [reflexivity|]).
  - apply last_snoc.
  - apply last_snoc.
Qed.

Lemma first_failed_write (parts : list bytes) : forall (j k : nat) (w : Z) (err : error),
  (k < length parts)%nat ->
  (forall i : nat, (i < k)%nat -> serverWriteErr env (j + i) = None) ->
  serverWriteErr env (j + k) = Some err ->
  serverWriteResult env j parts w = inl err
  /\ serverWriteEvents env j parts
     = ((fun b => ServerWrite b None) <$> take k parts)
       ++ match parts !! k with
          | Some b => [ServerWrite b (Some err)]
          | None => []
          end.
Proof.
  induction parts as [|b rest IH]; intros j k w err Hk Hbefore Hat; [simpl in Hk; lia|].
  cbn [serverWriteResult serverWriteEvents]. destruct k as [|k].
  - rewrite Nat.add_0_r in Hat. rewrite Hat. split; reflexivity.
  - pose proof (Hbefore 0%nat ltac:(lia)) as H0. rewrite Nat.add_0_r in H0. rewrite H0.
    destruct (IH (S j) k (w + Z.of_nat (length b)) err) as [-> ->].
    + simpl in Hk. lia.
    + intros i Hi. replace (S j + i)%nat with (j + S i)%nat by lia. apply Hbefore. lia.
    + replace (S j + k)%nat with (j + S k)%nat by lia. exact Hat.
    + split; reflexivity.
Qed.

(** X20: when forwarding fails, at a write to the server or at the copy
    of the rest of the message, the handler returns that error.  The
    server has got the parts up to the failing one at most, no response
    is awaited, nothing is written to the client and neither a lookup of
    the operations in progress nor a kill is sent. *)
Theorem failed_forward_unanswered (rq : Request) (full : string) (h' : messageHeader) (q' : D)
    (parts : list bytes) (err : error) :
  Reads lib env rq ->
  Forwards lib env p h rq full h' q' parts ->
  (exists k : nat,
     (k < length parts)%nat
     /\ (forall i : nat, (i < k)%nat -> serverWriteErr env i = None)
     /\ serverWriteErr env k = Some err)
  \/ ((forall i : nat, serverWriteErr env i = None)
      /\ totalLength parts < MessageLength h' < 2 ^ 31
      /\ copyNErr env = Some err) ->
  let r := run (handleQueryRequest lib env p h) in
  fst r = Ok (Some err)
  /\ (serverWrites (snd r) `prefix_of` parts)
  /\ clientWrites (snd r) = []
  /\ filter isControl (snd r) = []
  /\ (forall e : option error, CopyMessage e ∉ snd r).
Proof.
  intros Hr Hfw Hfail r. subst r. rewrite handleQuery_after. unfold run.
  rewrite (forwards_transmit rq full h' q' parts [] Hr Hfw).
  destruct Hfail as [(k & Hk & Hbefore & Hat) | (Hok & Hpending & Hc)].
  - destruct (first_failed_write parts 0 k 0 err Hk Hbefore Hat) as [Hres Hev].
    unfold transmit. step. rewrite serverWriteAll_run. cbn [app filter length].
    change (length (filter isServerWrite [])) with 0%nat. rewrite Hres. step.
    cbn [fst snd]. split; [reflexivity|].
    split; [apply serverWriteEvents_prefix|].
    split; [|split].
    + assert (H : forall (j : nat) (l : list bytes), clientWrites (serverWriteEvents env j l) = []).
      { intros j l. revert j. induction l as [|b l IH]; intros j; [reflexivity|].
        cbn [serverWriteEvents clientWrites]. destruct (serverWriteErr env j); [reflexivity | apply IH]. }
      apply H.
    + apply serverWriteEvents_only. reflexivity.
    + intros e Hin. destruct (serverWriteEvents_elem env _ _ _ Hin) as (b & r & Heq). discriminate.
  - rewrite (transmit_ok env h' full q' parts [] Hok). cbv zeta.
    assert (H0 : 0 <= totalLength parts) by (unfold totalLength; lia).
    rewrite (int64_id (MessageLength h')), (int64_id (totalLength parts)), int64_id by lia.
    replace (_ <=? 0) with false by (symmetry; apply Z.leb_gt; lia).
    rewrite Hc. cbn [fst snd app].
    destruct (written_events parts) as (Hsw & _ & Hcw). destruct (written_quiet parts) as [Hctl Hno].
    rewrite !serverWrites_app, !clientWrites_app, !filter_app, Hsw, Hcw, Hctl.
    split; [reflexivity|]. split; [cbn; rewrite app_nil_r; reflexivity|].
    split; [reflexivity|]. split; [reflexivity|].
    intros e Hin. apply elem_of_app in Hin as [Hin|Hin]; [exact (Hno e Hin)|].
    apply list_elem_of_singleton in Hin. discriminate.
Qed.

End Forwarded.

(** ** When the server connection is recycled *)

Section Recycling.

Context (lib : Library) (env : Env) (p : Proxy).

(** The dialer does not look at the trace. *)
Lemma dialLoop_anywhere (n : nat) : forall (k : nat) (d : Z) (last : string) (pre tr : Trace),
  dialLoop env p n k d last (pre ++ tr)
  = (fst (dialLoop env p n k d last tr), pre ++ snd (dialLoop env p n k d last tr)).
Proof.
  induction n as [|n IH]; intros k d last pre tr; cbn [dialLoop]; [reflexivity|].
  destruct (servers p) as [|s0 ss]; [reflexivity|]. cbv zeta. step.
  match goal with |- context [dialErr env k ?s] => destruct (dialErr env k s) as [err|] end.
  - step. rewrite <- !app_assoc. apply IH.
  - step. cbn [fst snd]. rewrite app_assoc. reflexivity.
Qed.

Lemma newServerConn_anywhere (tr : Trace) :
  newServerConn env p tr = (fst (newServerConn env p []), tr ++ snd (newServerConn env p [])).
Proof.
  unfold newServerConn.
  pose proof (dialLoop_anywhere 7 0 (50 * Millisecond) "" tr []) as H.
  rewrite app_nil_r in H. exact H.
Qed.

(** X21: one turn of the loop.  A failed header read ends the loop and
    closes the server connection.  After a header the loop goes on:
    when [handleMessage] returned [nil] nothing else happens, and when
    it returned an error the server connection is closed and dialed
    again, whatever the dialer answers. *)
Theorem server_recycled_on_error :
  (forall err : error,
     readHeader env = inl err ->
     run (pumpIteration lib env p)
     = (Ok Stop, [ClientSetReadDeadline (clientIdleTimeout p); ServerClose]))
  /\ (forall (h : messageHeader) (r : option error),
        readHeader env = inr h ->
        fst (run (handleMessage lib env p h)) = Ok r ->
        run (pumpIteration lib env p)
        = match r with
          | None =>
              (Ok Next,
               ClientSetReadDeadline (clientIdleTimeout p)
               :: snd (run (handleMessage lib env p h)))
          | Some _ =>
              (match fst (run (newServerConn env p)) with
               | Ok _ => Ok Next
               | Panic msg => Panic msg
               end,
               ClientSetReadDeadline (clientIdleTimeout p)
               :: snd (run (handleMessage lib env p h))
               ++ [ServerClose] ++ snd (run (newServerConn env p)))
          end).
Proof.
  split.
  - intros err Hh. unfold run, pumpIteration, clientReadHeader. step. rewrite Hh.
    destruct err as [| | |text [|]|text]; step; reflexivity.
  - intros h r Hh Hm.
    unfold run in *. unfold pumpIteration, clientReadHeader. step. rewrite Hh. step.
    assert (Hq : quiet ([] ++ [ClientSetReadDeadline (clientIdleTimeout p)]))
      by (split; reflexivity).
    pose proof (handleMessage_framed lib env p h _ [] Hq) as Hframe.
    rewrite app_nil_r, Hm in Hframe. rewrite Hframe.
    destruct r as [err|]; step; [|reflexivity].
    rewrite newServerConn_anywhere.
    destruct (newServerConn env p []) as [[c|msg] tr1];
      step; cbn [fst snd app]; rewrite <- !app_assoc; reflexivity.
Qed.

End Recycling.

(** ** What the proxy itself says and does *)

Section Invariants.

Context (lib : Library) (env : Env) (p : Proxy) (h : messageHeader).

(** The four ways [forwardQuery] can go. *)
Lemma forwardQuery_outcomes (addr : string) :
  (exists msg : string, run (forwardQuery lib env p h addr) = (Panic msg, []))
  \/ (exists err : error, run (forwardQuery lib env p h addr) = (Ok (Returned (Some err)), []))
  \/ (exists coll : string,
        run (forwardQuery lib env p h addr)
        = (r ← sendErrorToClient lib env h (rejection coll) 17357; mret (Returned r)) [])
  \/ (exists (h' : messageHeader) (full : string) (q' : D) (parts : list bytes),
        RequestID h' = RequestID h
        /\ run (forwardQuery lib env p h addr) = transmit env h' full q' parts []).
Proof.
  unfold run, forwardQuery, mbind, M_bind, mret, M_ret, lift.
  destruct (readFlags env) as [e|fl]; [right; left; eauto|].
  destruct (readCString env) as [e|ns]; [right; left; eauto|].
  destruct (dropLast ns) as [fullns|msg]; [|left; eauto].
  destruct (readTwoInt32 env) as [e|two]; [right; left; eauto|].
  destruct (readDocument env) as [e|doc]; [right; left; eauto|].
  destruct (bsonUnmarshal lib doc) as [e|q]; [right; left; eauto|].
  destruct (subjectToAdmission ns q).
  - destruct (splitDatabaseCollection fullns) as [[db coll]|msg]; [|left; eauto].
    destruct (checkForIndex lib env db coll q) as [[|]|msg]; [| |left; eauto].
    + cbn [negb]. destruct (mutateQuery lib p q addr (uuidNew env)) as [q1|msg]; [|left; eauto].
      right. right. right. eexists _, fullns, q1, _. split; [|reflexivity]. reflexivity.
    + cbn [negb]. right. right. left. exists coll.
      destruct (sendErrorToClient lib env h (rejection coll) 17357 []) as [[r|msg] t]; reflexivity.
  - right. right. right. eexists h, fullns, q, _. split; reflexivity.
Qed.

Lemma transfers_quiet (parts : list bytes) (t : Trace) :
  (forall e, e ∈ t -> exists n r, e = CopyN n r) ->
  clientWrites (serverWriteEvents env 0 parts ++ t) = []
  /\ forall o : Value, KillOp o ∉ serverWriteEvents env 0 parts ++ t.
Proof.
  intros Ht. split.
  - rewrite clientWrites_app.
    assert (H1 : forall (j : nat) (l : list bytes), clientWrites (serverWriteEvents env j l) = []).
    { intros j l. revert j. induction l as [|b l IH]; intros j; [reflexivity|].
      cbn [serverWriteEvents clientWrites]. destruct (serverWriteErr env j); [reflexivity | apply IH]. }
    rewrite H1. clear -Ht. induction t as [|e t IH]; [reflexivity|].
    destruct (Ht e ltac:(left)) as (n & r & ->). cbn [app clientWrites].
    apply IH. intros e' He'. apply Ht. right. exact He'.
  - intros o Hin. apply elem_of_app in Hin as [Hin|Hin].
    + destruct (serverWriteEvents_elem env _ _ _ Hin) as (b & r & Heq). discriminate.
    + destruct (Ht _ Hin) as (n & r & Heq). discriminate.
Qed.

(** What [handleQueryRequest] leaves in the trace, by outcome of
    [forwardQuery]. *)
Lemma handleQuery_traces :
  let tr := snd (run (handleQueryRequest lib env p h)) in
  (clientWrites tr = [] /\ forall o : Value, KillOp o ∉ tr)
  \/ (exists coll : string,
        tr = clientWriteEvents env 0 (errorReply lib h (rejection coll) 17357))
  \/ (exists (tr0 : Trace) (full : string) (q' : D) (err : error),
        clientWrites tr0 = [] /\ (forall o : Value, KillOp o ∉ tr0)
        /\ copyMessageErr env = Some err
        /\ tr = tr0 ++ CopyMessage (Some err)
                    :: InprogFind (inprogFilter env full "" q')
                    :: match ctlInprog env (inprogFilter env full "" q') with
                       | inl _ => []
                       | inr ops =>
                           (KillOp <$> ops) ++ deadlineRefresh env p
                           ++ clientWriteEvents env 0
                                (errorReply lib h (failureError lib p err) (failureCode err))
                       end).
Proof.
  intros tr. subst tr. rewrite handleQuery_after.
  destruct (forwardQuery_outcomes (remoteAddrOf env))
    as [[msg Hrun] | [[err Hrun] | [[coll Hrun] | (h' & full & q' & parts & Hid & Hrun)]]];
    rewrite Hrun.
  - left. split; [reflexivity|]. intros o Hin. inversion Hin.
  - left. split; [reflexivity|]. intros o Hin. inversion Hin.
  - right. left. exists coll. step. rewrite sendErrorToClient_run. reflexivity.
  - destruct (transmit_run env h' full q' parts []) as (r & t & Heq & Hsent & _ & Hcopy).
    rewrite Heq. cbn [app]. change (length (filter isServerWrite [])) with 0%nat.
    destruct (transfers_quiet parts t Hcopy) as [Hcw Hk].
    destruct r as [r|h'' full'' q''].
    + left. split; [exact Hcw | exact Hk].
    + destruct (Hsent _ _ _ eq_refl) as (-> & -> & ->).
      destruct (copyMessageErr env) as [err|] eqn:Hc.
      * right. right. exists (serverWriteEvents env 0 parts ++ t), full, q', err.
        split; [exact Hcw|]. split; [exact Hk|]. split; [reflexivity|].
        rewrite reactor_run, count_snoc.
        assert (Hn : length (filter isClientWrite (serverWriteEvents env 0 parts ++ t)) = 0%nat).
        { clear -Hcw. induction (serverWriteEvents env 0 parts ++ t) as [|e l IH]; [reflexivity|].
          rewrite filter_cons. destruct e; cbn in Hcw |- *; try discriminate; apply IH, Hcw. }
        rewrite Hn. cbn [isClientWrite Nat.add snd].
        rewrite (errorReply_request_id lib h' h _ _ Hid), <- app_assoc. reflexivity.
      * left. cbn [snd]. split.
        -- rewrite clientWrites_app, Hcw. reflexivity.
        -- intros o Hin. apply elem_of_app in Hin as [Hin|Hin]; [exact (Hk o Hin)|].
           apply list_elem_of_singleton in Hin. discriminate.
Qed.

Lemma other_messages_relayed_run :
  OpCode h <> OpQuery ->
  filter isControl (snd (run (handleMessage lib env p h))) = []
  /\ clientWrites (snd (run (handleMessage lib env p h))) = [].
Proof.
  intros Hop. rewrite (handleMessage_other lib env p h Hop). cbv zeta.
  destruct (serverWriteErr env 0); [split; reflexivity|].
  destruct (_ <=? 0); [|destruct (copyNErr env)];
    try (split; reflexivity); destruct (HasResponse (OpCode h)); split; reflexivity.
Qed.

Lemma handleMessage_query :
  OpCode h = OpQuery ->
  run (handleMessage lib env p h)
  = (fst (run (handleQueryRequest lib env p h)),
     [ServerSetDeadline (messageTimeout p); ClientSetDeadline (messageTimeout p)]
     ++ snd (run (handleQueryRequest lib env p h))).
Proof.
  intros Hop. unfold run, handleMessage. step. rewrite Hop, Z.eqb_refl.
  assert (Hq : quiet (([] ++ [ServerSetDeadline (messageTimeout p)])
                      ++ [ClientSetDeadline (messageTimeout p)])) by (split; reflexivity).
  pose proof (handleQueryRequest_framed lib env p h _ [] Hq) as Hframe.
  rewrite app_nil_r in Hframe. exact Hframe.
Qed.

(** X22: whatever [handleMessage] does, what the proxy itself writes to
    the client during one message is at most one synthetic reply to
    that message, or the beginning of one: the rejection with code
    17357, or, after a failed response copy, the error with code 50 or
    14044. *)
Theorem only_synthetic_replies :
  let written := clientWrites (snd (run (handleMessage lib env p h))) in
  written = []
  \/ (exists coll : string, written `prefix_of` errorReply lib h (rejection coll) 17357)
  \/ (exists err : error,
        copyMessageErr env = Some err
        /\ (written `prefix_of` errorReply lib h (failureError lib p err) (failureCode err))
        /\ (failureCode err = 50 \/ failureCode err = 14044)).
Proof.
  intros written. subst written.
  destruct (Z.eq_dec (OpCode h) OpQuery) as [Hop|Hop].
  - rewrite (handleMessage_query Hop). cbn [snd app clientWrites].
    destruct handleQuery_traces
      as [[Hcw _] | [[coll Htr] | (tr0 & full & q' & err & Hcw & _ & Hc & Htr)]].
    + left. exact Hcw.
    + right. left. exists coll. rewrite Htr. apply clientWriteEvents_prefix.
    + right. right. exists err. split; [exact Hc|]. split.
      * rewrite Htr, clientWrites_app, Hcw. cbn [app clientWrites].
        destruct (ctlInprog env _) as [e|ops]; [apply prefix_nil|].
        rewrite !clientWrites_app.
        assert (Hk : clientWrites (KillOp <$> ops) = [])
          by (clear; induction ops; [reflexivity | assumption]).
        assert (Hd : clientWrites (deadlineRefresh env p) = [])
          by (unfold deadlineRefresh; destruct (clientConn env); reflexivity).
        rewrite Hk, Hd. apply clientWriteEvents_prefix.
      * unfold failureCode. destruct (isNetTimeout err); [left | right]; reflexivity.
  - left. destruct (other_messages_relayed_run Hop) as [_ H]. exact H.
Qed.

(** X23: [handleMessage] kills an operation only when the message is a
    query whose response copy failed, and only an operation that the
    lookup on [$cmd.sys.inprog] of that exchange returned. *)
Theorem kills_only_what_was_found (o : Value) :
  KillOp o ∈ snd (run (handleMessage lib env p h)) ->
  OpCode h = OpQuery
  /\ exists (err : error) (f : gmap string Value) (ops : list Value),
       copyMessageErr env = Some err
       /\ InprogFind f ∈ snd (run (handleMessage lib env p h))
       /\ ctlInprog env f = inr ops
       /\ o ∈ ops.
Proof.
  intros Hin.
  destruct (Z.eq_dec (OpCode h) OpQuery) as [Hop|Hop].
  - split; [exact Hop|]. rewrite (handleMessage_query Hop) in Hin |- *. cbn [snd] in Hin |- *.
    apply elem_of_app in Hin as [Hin|Hin].
    { repeat (apply elem_of_cons in Hin as [Hin|Hin]; [discriminate|]). inversion Hin. }
    destruct handleQuery_traces
      as [[_ Hk] | [[coll Htr] | (tr0 & full & q' & err & _ & Hk & Hc & Htr)]].
    + exfalso. exact (Hk o Hin).
    + exfalso. rewrite Htr in Hin.
      destruct (clientWriteEvents_elem env _ _ _ Hin) as (b & r & Heq). discriminate.
    + rewrite Htr in Hin |- *. exists err, (inprogFilter env full "" q').
      apply elem_of_app in Hin as [Hin|Hin]; [exfalso; exact (Hk o Hin)|].
      apply elem_of_cons in Hin as [Hin|Hin]; [discriminate|].
      apply elem_of_cons in Hin as [Hin|Hin]; [discriminate|].
      destruct (ctlInprog env (inprogFilter env full "" q')) as [e|ops]; [inversion Hin|].
      exists ops. split; [exact Hc|]. split; [|split; [reflexivity|]].
      * apply elem_of_app. right. apply elem_of_app. right. right. left.
      * apply elem_of_app in Hin as [Hin|Hin].
        -- apply list_elem_of_fmap in Hin as (o' & Heq & Ho'). injection Heq as ->. exact Ho'.
        -- exfalso. apply elem_of_app in Hin as [Hin|Hin].
           ++ unfold deadlineRefresh in Hin. destruct (clientConn env); [|inversion Hin].
              apply list_elem_of_singleton in Hin. discriminate.
           ++ destruct (clientWriteEvents_elem env _ _ _ Hin) as (b & r & Heq). discriminate.
  - exfalso. destruct (other_messages_relayed_run Hop) as [H _].
    assert (Hf : KillOp o ∈ filter isControl (snd (run (handleMessage lib env p h))))
      by (apply list_elem_of_filter; split; [exact I | exact Hin]).
    rewrite H in Hf. inversion Hf.
Qed.

End Invariants.

(** ** A rejected query and the rest of its message *)

Section RejectedTail.

Context (lib : Library) (p : Proxy).

(** The turn that rejects a query and delivers the reply. *)
Lemma turn_rejected (env : Env) (h : messageHeader) (rq : Request) (full coll : string) :
  readHeader env = inr h ->
  OpCode h = OpQuery ->
  Reads lib env rq ->
  Inspected lib env rq full coll false ->
  (forall i : nat, clientWriteErr env i = None) ->
  turn lib env p Connected []
  = (Ok (Next, Connected),
     [ClientSetReadDeadline (clientIdleTimeout p);
      ServerSetDeadline (messageTimeout p);
      ClientSetDeadline (messageTimeout p)]
     ++ clientWriteEvents env 0 (errorReply lib h (rejection coll) 17357)).
Proof.
  intros Hh Hop Hr Hi Hok. unfold turn, clientReadHeader. step. rewrite Hh. step.
  unfold handleMessage. step. rewrite Hop, Z.eqb_refl.
  rewrite (handleQuery_rejected lib env p h rq full coll _ Hr Hi).
  change (length (filter isClientWrite _)) with 0%nat.
  destruct (clientWriteEvents_all env (errorReply lib h (rejection coll) 17357) 0 Hok)
    as [_ ->].
  step. reflexivity.
Qed.

(** After the handler: the jump back to the top of the loop, past the
    reconnect when the handler returned an error. *)
Lemma turn_goes_on (env : Env) (err : option error) (tr : Trace) :
  servers p <> [] ->
  exists (c : Conn) (tail : Trace),
    (match err with
     | Some _ =>
         closeServer Connected;;
         c ← newServerConn env p;
         mret (Next, if c is None then Connected else Nil)
     | None => mret (Next, Connected)
     end) tr
    = (Ok (Next, c), tr ++ tail).
Proof.
  intros Hs. destruct err as [e|].
  - cbn [closeServer]. step.
    destruct (newServerConn_run env p (tr ++ [ServerClose]) Hs) as (r & tr' & Hn & _).
    rewrite Hn. step. eexists. exists ([ServerClose] ++ tr').
    rewrite <- app_assoc. reflexivity.
  - step. exists Connected, []. rewrite app_nil_r. reflexivity.
Qed.

(** [handleMessage] on a header that is not a query's, on a connection
    that has not been written to: the header goes to the server first. *)
Lemma handleMessage_other_at (env : Env) (h : messageHeader) (tr : Trace) :
  OpCode h <> OpQuery ->
  filter isServerWrite tr = [] ->
  exists (err : option error) (tail : Trace),
    handleMessage lib env p h tr
    = (Ok err,
       tr ++ [ServerSetDeadline (messageTimeout p);
              ClientSetDeadline (messageTimeout p);
              ServerWrite (ToWire h) (serverWriteErr env 0)] ++ tail).
Proof.
  intros Hop Hq. apply Z.eqb_neq in Hop.
  unfold handleMessage. step. rewrite Hop. step.
  unfold serverWrite at 1.
  assert (Hk : length (filter isServerWrite
                         ((tr ++ [ServerSetDeadline (messageTimeout p)])
                          ++ [ClientSetDeadline (messageTimeout p)])) = 0%nat).
  { rewrite !filter_app, Hq. reflexivity. }
  rewrite Hk. cbv zeta.
  destruct (serverWriteErr env 0) as [e0|].
  - step. eexists. exists []. rewrite <- !app_assoc. reflexivity.
  - step. unfold copyN.
    destruct (int64 (int32 (MessageLength h - headerLen)) <=? 0).
    + step. destruct (HasResponse (OpCode h)).
      * unfold copyMessage. step.
        destruct (copyMessageErr env) as [e2|]; step;
          eexists; eexists; rewrite <- !app_assoc; reflexivity.
      * step. eexists. exists []. rewrite <- !app_assoc. reflexivity.
    + step. destruct (copyNErr env) as [e1|]; step.
      * eexists. eexists. rewrite <- !app_assoc. reflexivity.
      * destruct (HasResponse (OpCode h)).
        -- unfold copyMessage. step.
           destruct (copyMessageErr env) as [e2|]; step;
             eexists; eexists; rewrite <- !app_assoc; reflexivity.
        -- step. eexists. eexists. rewrite <- !app_assoc. reflexivity.
Qed.

Lemma turn_other (env : Env) (h : messageHeader) (tr : Trace) :
  servers p <> [] ->
  readHeader env = inr h ->
  OpCode h <> OpQuery ->
  filter isServerWrite tr = [] ->
  exists (c : Conn) (tail : Trace),
    turn lib env p Connected tr
    = (Ok (Next, c),
       tr ++ [ClientSetReadDeadline (clientIdleTimeout p);
              ServerSetDeadline (messageTimeout p);
              ClientSetDeadline (messageTimeout p);
              ServerWrite (ToWire h) (serverWriteErr env 0)] ++ tail).
Proof.
  intros Hs Hh Hop Hq.
  unfold turn, clientReadHeader. step. rewrite Hh. step.
  destruct (handleMessage_other_at env h (tr ++ [ClientSetReadDeadline (clientIdleTimeout p)]) Hop)
    as (err & tail & Hm).
  { rewrite filter_app, Hq. reflexivity. }
  rewrite Hm. cbv beta iota.
  destruct (turn_goes_on env err
              ((tr ++ [ClientSetReadDeadline (clientIdleTimeout p)])
               ++ [ServerSetDeadline (messageTimeout p);
                   ClientSetDeadline (messageTimeout p);
                   ServerWrite (ToWire h) (serverWriteErr env 0)] ++ tail) Hs)
    as (c & tail' & Hgo).
  exists c, (tail ++ tail'). rewrite Hgo. rewrite <- !app_assoc. reflexivity.
Qed.

(** C5: a rejected query whose message goes on after the query document
    (a [returnFieldsSelector], 16 bytes or more).  The turn that
    rejects it has read the message up to the end of the query document
    and returns at line 218, before the copy of lines 247-248: the rest
    of the message stays on the client's stream.  The reply is written
    in full, nothing goes upstream in that turn, the client connection
    stays open and the loop reads the next header: the 16 bytes that
    follow the query document in the rejected message.  Unless they
    spell the opcode [Query], [handleMessage] writes them to the server
    (line 149). *)
Theorem rejected_query_tail_forwarded (env1 env2 : Env) (s rest head : bytes)
    (h : messageHeader) (rq : Request) (full coll : string) :
  servers p <> [] ->
  QueryFrom lib env1 s h rq rest ->
  OpCode h = OpQuery ->
  Inspected lib env1 rq full coll false ->
  (forall i : nat, clientWriteErr env1 i = None) ->
  readLength rq + 16 <= MessageLength h ->
  HeaderFrom env2 rest head ->
  OpCode (fromWire head) <> OpQuery ->
  let message := take (Z.to_nat (MessageLength h)) s in
  let reply := errorReply lib h (rejection coll) 17357 in
  let rejecting :=
    [ClientSetReadDeadline (clientIdleTimeout p);
     ServerSetDeadline (messageTimeout p);
     ClientSetDeadline (messageTimeout p)]
    ++ clientWriteEvents env1 0 reply in
  head = take 16 (drop (Z.to_nat (readLength rq)) message)
  /\ length head = 16%nat
  /\ filter isUpstream rejecting = []
  /\ clientWrites rejecting = reply
  /\ exists (c : Conn) (tail : Trace),
       run (pump lib p Connected [env1; env2])
       = (Ok (Reading c),
          rejecting
          ++ [ClientSetReadDeadline (clientIdleTimeout p);
              ServerSetDeadline (messageTimeout p);
              ClientSetDeadline (messageTimeout p);
              ServerWrite head (serverWriteErr env2 0)]
          ++ tail).
Proof.
  intros Hs (Hq & Hh & Hr) Hop Hi Hok Hlen ((rest' & Hhead) & Hh2) Hop2 message reply rejecting.
  apply readFullOn_Some in Hhead as [Hrest Hl16].
  pose proof (readQueryOn_rest lib s h rq rest Hq) as Hdrop.
  assert (Hpos : 0 <= readLength rq) by (unfold readLength, headerLen; lia).
  split; [|split; [exact Hl16|split; [|split]]].
  - unfold message. rewrite take_drop_commute, take_take, Nat.min_l by lia.
    rewrite <- take_drop_commute, <- Hdrop, Hrest.
    symmetry. apply take_app_length'. symmetry. exact Hl16.
  - unfold rejecting. rewrite filter_app.
    rewrite (clientWriteEvents_only env1 0 reply isUpstream) by reflexivity. reflexivity.
  - unfold rejecting. rewrite clientWrites_app. cbn [clientWrites app].
    apply (clientWriteEvents_all env1 reply 0 Hok).
  - assert (Hquiet : filter isServerWrite rejecting = []).
    { unfold rejecting. rewrite filter_app.
      rewrite (clientWriteEvents_only env1 0 reply isServerWrite) by reflexivity. reflexivity. }
    destruct (turn_other env2 (fromWire head) rejecting Hs Hh2 Hop2 Hquiet)
      as (c & tail & Hturn).
    rewrite (ToWire_fromWire head Hl16) in Hturn.
    exists c, tail. unfold run. rewrite pump_cons, bind_run. unfold unwind at 1.
    rewrite (turn_rejected env1 h rq full coll Hh Hop Hr Hi Hok). fold reply. fold rejecting.
    rewrite pump_cons, bind_run. unfold unwind at 1. rewrite Hturn. reflexivity.
Qed.

End RejectedTail.

(** * The properties on concrete exchanges *)

Module Scenario.

Import Example.

Lemma reads_users (q : D) (response : option error) (ops : error + list Value) :
  bsonUnmarshal lib (Marshal q) = inr q ->
  Reads lib (users q response ops) (usersRequest q).
Proof. intros H. repeat split. exact H. Defined.

Lemma inspected_users (q : D) (response : option error) (ops : error + list Value) (ok : bool) :
  (0 <? Z.of_nat (length q)) = true ->
  checkForIndex lib (users q response ops) "app" "users" q = Ok ok ->
  Inspected lib (users q response ops) (usersRequest q) "app.users" "users" ok.
Proof.
  intros Hq Hc. split; [exact Hq|]. exists "app". split; [split; reflexivity | exact Hc].
Defined.

(** C7, counterexample: a document with the single element [$query]
    has [query] as its first key once the [$] is stripped, and the
    mutator wraps it a second time. *)
Lemma wrap_envelope_only_counterexample :
  firstKeyIsQuery envelopeOnly = true
  /\ wrapQuery envelopeOnly = [("$query", VDoc envelopeOnly)]
  /\ mutateQuery lib proxy envelopeOnly "10.0.0.1:5000" "Q4f2a9c"
     = Ok [("$query", VDoc [("$query", VDoc [("email", VString "a@b")])]);
           ("$maxTimeMS", VFloat (float64_of_int 4000));
           queryGuard "10.0.0.1:5000" "Q4f2a9c"]
  /\ ~ (wrapQuery envelopeOnly = [("$query", VDoc envelopeOnly)]
        <-> firstKeyIsQuery envelopeOnly = false).
Proof.
  repeat split; try reflexivity.
  intros [H _]. specialize (H eq_refl). discriminate.
Qed.

(** C4, counterexample: an already wrapped query that brings its own
    top-level [$queryGuard] leaves the mutator with two of them. *)
Lemma two_queryGuards_counterexample :
  exists q' : D,
    mutateQuery lib proxy taggedByClient "10.0.0.1:5000" "Q4f2a9c" = Ok q'
    /\ length (filter isQueryGuard q') = 2%nat.
Proof. eexists. split; reflexivity. Qed.

(** C4, witness: a wrapped query asking for 999999 ms under a 5 s
    message timeout. *)
Lemma mutateQuery_shape_witness :
  let q' := [("$query", VDoc [("email", VString "x")]);
             ("maxTimeMS", VFloat (float64_of_int 4000));
             queryGuard "10.0.0.1:5000" "Q4f2a9c"] in
  mutateQuery lib proxy longRunning "10.0.0.1:5000" "Q4f2a9c" = Ok q'
  /\ firstKeyIsQuery q' = true
  /\ last q' = Some (queryGuard "10.0.0.1:5000" "Q4f2a9c")
  /\ length (filter isQueryGuard q') = 1%nat.
Proof.
  intros q'.
  assert (H : mutateQuery lib proxy longRunning "10.0.0.1:5000" "Q4f2a9c" = Ok q') by reflexivity.
  destruct (mutateQuery_shape lib proxy longRunning "10.0.0.1:5000" "Q4f2a9c" q' H)
    as (H1 & H2 & H3 & _).
  split; [exact H|]. split; [exact H1|]. split; [exact H2|]. rewrite H3. reflexivity.
Defined.

(** C9, witness: [longRunning] holds a [float64] and is mutated;
    [intLimit] holds an [int] and brings the handler down. *)
Lemma clamp_total_only_on_float_witness :
  (exists q' : D, mutateQuery lib proxy longRunning "10.0.0.1:5000" "Q4f2a9c" = Ok q')
  /\ run (handleQueryRequest lib (users intLimit None (inr [])) proxy (usersHeader intLimit))
     = (Panic "interface conversion: interface {} is not float64", []).
Proof.
  split.
  - apply (proj1 (clamp_total_only_on_float lib (users intLimit None (inr [])) proxy
                    (usersHeader intLimit) longRunning "10.0.0.1:5000" "Q4f2a9c")).
    repeat constructor; discriminate.
  - apply (proj2 (proj2 (clamp_total_only_on_float lib (users intLimit None (inr [])) proxy
                           (usersHeader intLimit) longRunning "10.0.0.1:5000" "Q4f2a9c"))
             (usersRequest intLimit) "app.users" "users" 1%nat "maxTimeMS" (VInt 5000)).
    + apply reads_users. reflexivity.
    + apply inspected_users; reflexivity.
    + reflexivity.
    + reflexivity.
    + reflexivity.
    + reflexivity.
Defined.

(** C3, counterexample: [{ $query: { email: "a@b" } }] on a collection
    indexed on [email].  By the specification's wording the query is
    wrapped, its first indexable field is [email] and it is admitted;
    the code does not take a single-element document for wrapped,
    compares [$query] with the index keys and rejects. *)
Lemma envelope_only_rejected_counterexample :
  subjectToAdmission (fullCollectionName (usersRequest envelopeOnly)) envelopeOnly = true
  /\ specFirstIndexableField envelopeOnly = Some "email"
  /\ specAdmits 10 emailIndex envelopeOnly = true
  /\ firstIndexableField lib envelopeOnly = Ok "$query"
  /\ checkForIndex lib (users envelopeOnly None (inr [])) "app" "users" envelopeOnly = Ok false
  /\ fst (run (handleQueryRequest lib (users envelopeOnly None (inr [])) proxy
                 (usersHeader envelopeOnly))) = Ok None
  /\ serverWrites (snd (run (handleQueryRequest lib (users envelopeOnly None (inr [])) proxy
                              (usersHeader envelopeOnly)))) = [].
Proof. repeat split; vm_compute; reflexivity. Qed.

(** C3, witness: [{ email: "a@b" }] on the same collection is handed
    to the server. *)
Lemma forwards_iff_indexed_witness :
  exists full db coll : string,
    Namespace (usersRequest byEmail) full db coll
    /\ (serverWrites (snd (run (handleQueryRequest lib (users byEmail None (inr [])) proxy
                                  (usersHeader byEmail)))) <> []
        <-> fst (Count (users byEmail None (inr [])) db coll) = 0
            \/ exists (f : string) (index : Index) (k0 : string),
                 FirstIndexable lib byEmail f
                 /\ index ∈ fst (Indexes (users byEmail None (inr [])) db coll)
                 /\ head (Key index) = Some k0
                 /\ EqualFold lib (Trim k0 "-") f = true).
Proof.
  apply (forwards_iff_indexed lib (users byEmail None (inr [])) proxy (usersHeader byEmail)
           (usersRequest byEmail)).
  - apply reads_users. reflexivity.
  - reflexivity.
  - vm_compute. reflexivity.
Defined.

(** C8, witness: three endpoints, the first two dials fail; a draw of 1
    picks the second endpoint, and of six draws in a row three pick it. *)
Lemma newServerConn_attempts_witness :
  (exists failed : nat,
     (failed <= 7)%nat
     /\ run (newServerConn flaky proxy) =
        (Ok (if (failed <? 7)%nat then None
             else Some (Errorf ("Couldn't connect to " ++ chosen flaky proxy 6))),
         concat (failedAttempt flaky proxy <$> seq 0 failed)
         ++ (if (failed <? 7)%nat then [Dial (chosen flaky proxy failed) None] else [])))
  /\ chosen (withDraws flaky (fun _ => 1)) proxy 0 = "db2:27017"
  /\ length (filter (fun r : nat =>
                       String.eqb (chosen (withDraws flaky (fun _ => Z.of_nat r)) proxy 0)
                                  "db2:27017")
                    (seq 0 6))
     = 3%nat.
Proof.
  destruct (newServerConn_attempts flaky proxy)
    as (failed & H1 & H2 & _ & _ & _ & _ & _ & H8 & H9 & _).
  - discriminate.
  - split; [exists failed; split; [exact H1 | exact H2]|]. split.
    + apply (H8 (fun _ => 1) 0%nat 1%nat "db2:27017"); [simpl; lia | simpl; lia | | ]; reflexivity.
    + apply (H9 0%nat 3%nat 1%nat "db2:27017"); [| simpl; lia | simpl; lia | reflexivity].
      apply (bool_decide_unpack _). vm_compute. exact I.
Defined.

Lemma flaky_dials :
  run (newServerConn flaky proxy)
  = (Ok None,
     [Dial "db1:27017" (Some (NetError "connection refused" false)); Sleep 50000000;
      Dial "db2:27017" (Some (NetError "connection refused" false)); Sleep 100000000;
      Dial "db1:27017" None]).
Proof. reflexivity. Qed.

Lemma sent_timedOut :
  run (forwardQuery lib timedOut proxy (usersHeader byEmail) (remoteAddrOf timedOut))
  = (Ok (Sent sentHeader "app.users" sentQuery), sentTrace).
Proof. vm_compute. reflexivity. Defined.

Lemma sent_timedOutUnseen :
  run (forwardQuery lib timedOutUnseen proxy (usersHeader byEmail) (remoteAddrOf timedOutUnseen))
  = (Ok (Sent sentHeader "app.users" sentQuery), sentTrace).
Proof. vm_compute. reflexivity. Defined.

(** C6, counterexample: the query was forwarded and the response timed
    out, but the lookup on the control channel failed: the handler
    returns the timeout and the client is sent nothing. *)
Lemma no_reply_without_lookup_counterexample :
  run (forwardQuery lib timedOutUnseen proxy (usersHeader byEmail) (remoteAddrOf timedOutUnseen))
  = (Ok (Sent sentHeader "app.users" sentQuery), sentTrace)
  /\ copyMessageErr timedOutUnseen = Some timeout
  /\ fst (run (handleQueryRequest lib timedOutUnseen proxy (usersHeader byEmail)))
     = Ok (Some timeout)
  /\ clientWrites (snd (run (handleQueryRequest lib timedOutUnseen proxy (usersHeader byEmail))))
     = [].
Proof. repeat split; vm_compute; reflexivity. Qed.

(** C6, witness: the same exchange with a successful lookup. *)
Lemma response_failure_reply_witness :
  clientWrites (snd (run (handleQueryRequest lib timedOut proxy (usersHeader byEmail))))
  = errorReply lib (usersHeader byEmail)
      (Errorf "Your query exceeded the time limit of 5s and has been killed") 50
  /\ KillOp (VInt 4711) ∈ snd (run (handleQueryRequest lib timedOut proxy (usersHeader byEmail))).
Proof.
  destruct (response_failure_reply lib timedOut proxy (usersHeader byEmail) "10.0.0.1:5000"
              sentHeader "app.users" sentQuery sentTrace timeout eq_refl sent_timedOut eq_refl)
    as [_ H].
  change (ctlInprog timedOut (inprogFilter timedOut "app.users" "" sentQuery))
    with (@inr error (list Value) [VInt 4711]) in H.
  destruct H as (Hrun & _ & Hall).
  split.
  - rewrite Hall; reflexivity.
  - rewrite Hrun. cbn [snd]. apply elem_of_app. right. right. right. left.
Defined.

(** C1, witness: the filter of the exchange above. *)
Lemma tagged_query_filter_witness :
  let f := inprogFilter timedOut "app.users" "" sentQuery in
  (InprogFind f ∈ snd (run (handleQueryRequest lib timedOut proxy (usersHeader byEmail))))
  /\ f !! "query.$queryGuard.track" = Some (VString "Q4f2a9c")
  /\ is_Some (f !! "secs_running")
  /\ f !! "query.$query.email" = Some (VString "a@b").
Proof.
  intros f.
  destruct (tagged_query_filter lib timedOut proxy (usersHeader byEmail) (usersRequest byEmail)
              "app.users" "users" sentHeader "app.users" sentQuery sentTrace timeout)
    as (_ & Hin & _ & _ & _ & Htrack & _ & Hsecs & _).
  - apply reads_users. reflexivity.
  - apply inspected_users; reflexivity.
  - exact sent_timedOut.
  - reflexivity.
  - split; [exact Hin|]. split; [exact Htrack|]. split; [eexists; exact Hsecs|].
    vm_compute. reflexivity.
Defined.

(** C10, at the failing input: a wrapped query with an empty inner
    document and an empty [orderby] document, on a collection of 10
    documents whose index listing fails.  The query is subject to
    admission, but the inspector does not reject it: [t[0]] on the empty
    [orderby] panics and the pump goes down with it, before any reply.
    [{ name: "x" }] in the same situation is rejected. *)
Theorem empty_orderby_not_rejected :
  ctlIndexes (usersUnlisted emptySort) "app" "users" = inl unreachable
  /\ Count (usersUnlisted emptySort) "app" "users" = (10, None)
  /\ subjectToAdmission (fullCollectionName (usersRequest emptySort)) emptySort = true
  /\ firstIndexableField lib emptySort = Panic "index out of range"
  /\ checkForIndex lib (usersUnlisted emptySort) "app" "users" emptySort
     = Panic "index out of range"
  /\ run (pumpIteration lib (usersUnlisted emptySort) proxy)
     = (Panic "index out of range",
        [ClientSetReadDeadline (clientIdleTimeout proxy);
         ServerSetDeadline (messageTimeout proxy);
         ClientSetDeadline (messageTimeout proxy)])
  /\ checkForIndex lib (usersUnlisted byName) "app" "users" byName = Ok false.
Proof. repeat split; vm_compute; reflexivity. Qed.

Lemma reads_world (ns : string) (q : D) (count : error + Z) (indexes : error + list Index)
    (response : option error) (ops : error + list Value) :
  bsonUnmarshal lib (Marshal q) = inr q ->
  Reads lib (world ns q count indexes response ops) (request ns q).
Proof. intros H. repeat split. exact H. Defined.

(** X7, witness: [{ name: "x" }] sent for the namespace [users]. *)
Lemma undotted_namespace_panics_witness :
  run (handleQueryRequest lib undottedWorld proxy (header "users" byName))
  = (Panic "index out of range", []).
Proof.
  apply (undotted_namespace_panics lib undottedWorld proxy (header "users" byName)
           (request "users" byName) "users").
  - apply reads_world. reflexivity.
  - reflexivity.
  - reflexivity.
  - apply cutAtDot_None. reflexivity.
Defined.

(** X8, witness: the query document ends before its announced length. *)
Lemma unreadable_query_not_forwarded_witness :
  run (handleQueryRequest lib truncated proxy (usersHeader byEmail)) = (Ok (Some unexpectedEOF), []).
Proof.
  apply unreadable_query_not_forwarded.
  eapply (RF_document lib truncated); try reflexivity. discriminate.
Defined.

(** X9, witness: a query on [app.system.indexes]. *)
Lemma bypass_forwarded_unchanged_witness :
  let h := header "app.system.indexes" byName in
  let tr := snd (run (handleQueryRequest lib systemWorld proxy h)) in
  serverWrites tr = bypassParts h (request "app.system.indexes" byName)
  /\ upstreamBytes tr = MessageLength h.
Proof.
  intros h tr.
  destruct (bypass_forwarded_unchanged lib systemWorld proxy h
              (request "app.system.indexes" byName) "app.system.indexes") as [_ H].
  - apply reads_world. reflexivity.
  - reflexivity.
  - reflexivity.
  - destruct H as [Hw Hu]; [reflexivity|]. subst tr. split; [exact Hw|].
    rewrite Hu; [reflexivity | reflexivity | split; [discriminate | reflexivity] | reflexivity].
Defined.

(** X10, witness: [{ email: "a@b" }] on [app.users] leaves as 158 bytes. *)
Lemma admitted_query_framing_witness :
  let tr := snd (run (handleQueryRequest lib answered proxy (usersHeader byEmail))) in
  serverWrites tr = [ToWire sentHeader; le_bytes 4 0; bytes_of_string ("app.users" ++ nul)%string;
                     le_bytes 4 0 ++ le_bytes 4 0; Marshal sentQuery]
  /\ upstreamBytes tr = 158.
Proof.
  intros tr.
  destruct (admitted_query_framing lib answered proxy (usersHeader byEmail) (usersRequest byEmail)
              "app.users" "users" sentQuery) as (H1 & H2 & _).
  - apply reads_users. reflexivity.
  - apply inspected_users; reflexivity.
  - reflexivity.
  - reflexivity.
  - reflexivity.
  - split; [discriminate | reflexivity].
  - reflexivity.
  - split; [exact H1 | exact H2].
Defined.

(** X11, witness: a [GetMore] of 42 bytes. *)
Lemma other_messages_relayed_witness :
  serverWrites (snd (run (handleMessage lib answered proxy getMore))) = [ToWire getMore]
  /\ clientWrites (snd (run (handleMessage lib answered proxy getMore))) = []
  /\ upstreamBytes (snd (run (handleMessage lib answered proxy getMore))) = 42.
Proof.
  destruct (other_messages_relayed lib answered proxy getMore) as (_ & H2 & H3 & _ & _ & H6).
  - discriminate.
  - split; [exact H2|]. split; [exact H3|].
    apply H6; [reflexivity | reflexivity | split; [discriminate | reflexivity]].
Defined.

(** X12, witness: the rejection sent for [{ name: "x" }]. *)
Lemma reply_length_field_witness :
  exists (header : bytes) (body : list bytes),
    clientWrites (snd (run (sendErrorToClient lib answered (usersHeader byName)
                              (rejection "users") 17357))) = header :: body
    /\ le_int32 header = totalLength (header :: body).
Proof.
  destruct (reply_length_field lib answered (usersHeader byName) (rejection "users") 17357)
    as (header & body & _ & H2 & _ & H4 & _).
  - reflexivity.
  - reflexivity.
  - exists header, body. split; [exact H2 | exact H4].
Defined.

(** X13, witness: three endpoints, none of them reachable. *)
Lemma newServerConn_gives_up_witness :
  fold_right Z.add 0 (sleeps (snd (run (newServerConn down proxy)))) = 6350 * Millisecond.
Proof.
  destruct (newServerConn_gives_up proxy down) as (_ & _ & H & _).
  - discriminate.
  - intros k _. discriminate.
  - exact H.
Defined.

(** X14, witness: the same endpoints at the start of a connection. *)
Lemma unreachable_server_refuses_client_witness :
  run (handleClientConnection lib proxy down [answered])
  = (Ok Refused, concat (failedAttempt down proxy <$> seq 0 7) ++ [ClientClose]).
Proof.
  apply (proj2 (unreachable_server_refuses_client lib proxy down [answered])).
  - discriminate.
  - intros k _. discriminate.
Defined.

(** X15, witness: one answered query, then the client hangs up. *)
Lemma client_left_open_witness :
  fst (run (handleClientConnection lib proxy flaky [answered; flaky])) = Ok Closed
  /\ (ClientClose ∉ snd (run (handleClientConnection lib proxy flaky [answered; flaky])))
  /\ last (snd (run (handleClientConnection lib proxy flaky [answered; flaky]))) = Some ServerClose.
Proof.
  destruct (client_left_open lib proxy flaky [answered; flaky]) as (H1 & _ & H3).
  - reflexivity.
  - assert (Hc : fst (run (handleClientConnection lib proxy flaky [answered; flaky])) = Ok Closed)
      by (vm_compute; reflexivity).
    split; [exact Hc|]. split; [exact H1|]. apply (H3 Hc).
Defined.

(** X16, witness: the server goes away under a [GetMore] and stays away. *)
Lemma failed_reconnect_panics_witness :
  fst (run (handleClientConnection lib proxy flaky [lostUpstream; answered]))
  = Panic nilDereference.
Proof.
  destruct (failed_reconnect_panics lib proxy flaky lostUpstream answered [] getMore brokenPipe)
    as [H _].
  - discriminate.
  - reflexivity.
  - reflexivity.
  - reflexivity.
  - intros k _. discriminate.
  - exact H.
Defined.

(** X19, witness: [{ email: "a@b" }] on [app.users], answered. *)
Lemma answered_query_is_silent_witness :
  fst (run (handleQueryRequest lib answered proxy (usersHeader byEmail))) = Ok None
  /\ clientWrites (snd (run (handleQueryRequest lib answered proxy (usersHeader byEmail)))) = []
  /\ filter isControl (snd (run (handleQueryRequest lib answered proxy (usersHeader byEmail)))) = [].
Proof.
  destruct (answered_query_is_silent lib answered proxy (usersHeader byEmail)
              (usersRequest byEmail) "app.users"
              (admittedHeader lib (usersHeader byEmail) (usersRequest byEmail) sentQuery) sentQuery
              (admittedParts lib (usersHeader byEmail) (usersRequest byEmail) sentQuery))
    as (H1 & _ & H3 & H4 & _).
  - apply reads_users. reflexivity.
  - apply (Forwards_admitted lib answered proxy (usersHeader byEmail) (usersRequest byEmail)
             "app.users" "users" sentQuery).
    + apply inspected_users; reflexivity.
    + reflexivity.
  - reflexivity.
  - reflexivity.
  - reflexivity.
  - split; [exact H1|]. split; [exact H3 | exact H4].
Defined.

(** X20, witness: the first write of the same query to the server fails. *)
Lemma failed_forward_unanswered_witness :
  fst (run (handleQueryRequest lib unwritable proxy (usersHeader byEmail))) = Ok (Some brokenPipe)
  /\ clientWrites (snd (run (handleQueryRequest lib unwritable proxy (usersHeader byEmail)))) = [].
Proof.
  destruct (failed_forward_unanswered lib unwritable proxy (usersHeader byEmail)
              (usersRequest byEmail) "app.users"
              (admittedHeader lib (usersHeader byEmail) (usersRequest byEmail) sentQuery) sentQuery
              (admittedParts lib (usersHeader byEmail) (usersRequest byEmail) sentQuery) brokenPipe)
    as (H1 & _ & H3 & _).
  - repeat split.
  - apply (Forwards_admitted lib unwritable proxy (usersHeader byEmail) (usersRequest byEmail)
             "app.users" "users" sentQuery).
    + split; [reflexivity|]. exists "app". split; [split; reflexivity | reflexivity].
    + reflexivity.
  - left. exists 0%nat. split; [simpl; lia|]. split; [intros i Hi; lia | reflexivity].
  - split; [exact H1 | exact H3].
Defined.

(** X21, witness: the [GetMore] whose header cannot be written. *)
Lemma server_recycled_on_error_witness :
  run (pumpIteration lib lostUpstream proxy)
  = (Ok Next,
     ClientSetReadDeadline (clientIdleTimeout proxy)
     :: snd (run (handleMessage lib lostUpstream proxy getMore))
     ++ [ServerClose] ++ snd (run (newServerConn lostUpstream proxy))).
Proof.
  apply (proj2 (server_recycled_on_error lib lostUpstream proxy) getMore (Some brokenPipe));
    reflexivity.
Defined.

(** X17, witness: a query whose [maxTimeMS] is an integer. *)
Lemma handler_panic_propagates_witness :
  run (handleClientConnection lib proxy flaky [users intLimit None (inr []); answered])
  = (Panic "interface conversion: interface {} is not float64",
     snd (run (newServerConn flaky proxy))
     ++ [ClientSetReadDeadline (clientIdleTimeout proxy)]
     ++ snd (run (handleMessage lib (users intLimit None (inr [])) proxy (usersHeader intLimit)))
     ++ [ServerClose]).
Proof.
  apply (handler_panic_propagates lib proxy flaky (users intLimit None (inr [])) [answered]
           (usersHeader intLimit)).
  - discriminate.
  - reflexivity.
  - reflexivity.
  - reflexivity.
Defined.

(** X23, witness: the operation found after the time-out of
    [{ email: "a@b" }] is the one killed. *)
Lemma kills_only_what_was_found_witness :
  exists (err : error) (f : gmap string Value) (ops : list Value),
    copyMessageErr timedOut = Some err
    /\ InprogFind f ∈ snd (run (handleMessage lib timedOut proxy (usersHeader byEmail)))
    /\ ctlInprog timedOut f = inr ops
    /\ VInt 4711 ∈ ops.
Proof.
  apply (kills_only_what_was_found lib timedOut proxy (usersHeader byEmail) (VInt 4711)).
  apply (list_elem_of_lookup_2 _ 9%nat). vm_compute. reflexivity.
Defined.

(** The selector [{ email: 1 }], read as a header: a message of 16
    bytes with the opcode 0. *)
Lemma selector_as_header :
  length selecting = 71%nat
  /\ fromWire (Marshal onlyEmail)
     = {| MessageLength := 16; RequestID := 1634559248; ResponseTo := 16804969; OpCode := 0 |}.
Proof. split; vm_compute; reflexivity. Qed.

(** C5, witness: [{ name: "x" }] with the selector [{ email: 1 }] is
    rejected, and the selector goes to the server in the next turn. *)
Lemma rejected_query_tail_forwarded_witness :
  Marshal onlyEmail = take 16 (drop 55 selecting)
  /\ exists (c : Conn) (tail : Trace),
       run (pump lib proxy Connected [selectingWorld; afterSelecting])
       = (Ok (Reading c),
          ([ClientSetReadDeadline (600 * Second);
            ServerSetDeadline (5 * Second);
            ClientSetDeadline (5 * Second)]
           ++ clientWriteEvents selectingWorld 0
                (errorReply lib selectingHeader (rejection "users") 17357))
          ++ [ClientSetReadDeadline (600 * Second);
              ServerSetDeadline (5 * Second);
              ClientSetDeadline (5 * Second);
              ServerWrite (Marshal onlyEmail) None]
          ++ tail).
Proof.
  destruct (rejected_query_tail_forwarded lib proxy selectingWorld afterSelecting selecting
              (Marshal onlyEmail) (Marshal onlyEmail) selectingHeader (usersRequest byName)
              "app.users" "users")
    as (H1 & _ & _ & _ & H5).
  - discriminate.
  - split; [vm_compute; reflexivity|]. split; [reflexivity|].
    repeat split.
  - reflexivity.
  - split; [reflexivity|]. exists "app". split; [split; reflexivity | reflexivity].
  - reflexivity.
  - vm_compute. discriminate.
  - split; [exists []; reflexivity | reflexivity].
  - vm_compute. discriminate.
  - split; [exact H1 | exact H5].
Defined.

(** The two turns in full: the reply to the client, then the selector
    to the server. *)
Lemma selecting_run :
  run (pump lib proxy Connected [selectingWorld; afterSelecting])
  = (Ok (Reading Connected),
     [ClientSetReadDeadline (600 * Second);
      ServerSetDeadline (5 * Second);
      ClientSetDeadline (5 * Second);
      ClientWrite (ToWire {| MessageLength := 140; RequestID := 7; ResponseTo := 7;
                             OpCode := OpReply |}) None;
      ClientWrite errorBytes None;
      ClientWrite (Marshal [("$err", VString "No index was found that could be used for your query try db.users.getIndexes()");
                            ("code", VInt 17357)]) None;
      ClientSetReadDeadline (600 * Second);
      ServerSetDeadline (5 * Second);
      ClientSetDeadline (5 * Second);
      ServerWrite (Marshal onlyEmail) None]).
Proof. vm_compute. reflexivity. Qed.

End Scenario.
